(** * thpp tensor serialization: a shallow embedding of
      [thpp/TensorSerialization.cpp], of [Tensor<T>::deserializeTH] in
      [thpp/Tensor-inl.h] and of [TensorBase::mode], with the properties of
      the wire format proved on it.

    Conventions of the embedding.
    - [uint64_t] values are integers in [0, 2^64); every arithmetic operation
      of the source on them is followed by its wrap-around ([u64]).  A [long]
      that meets a [uint64_t] in an expression is converted first, as C++
      does ([u64] of the signed value).
    - The product of two [long]s, [sizes[idx] * strides[idx]], is taken in
      two's complement: only its value modulo 2^64 reaches the pointer.
    - A pointer into the source buffer is the 64-bit offset from
      [data.data()]; pointer arithmetic wraps like the integers.
    - An IOBufQueue is the sequence of the runs it received, a pushed copy
      or an inserted clone each; how [QueueAppender] cuts copied bytes into
      blocks is not modelled.
    - A call either returns ([Done]), stops the process on a failed glog
      assertion ([Fatal]), leaves defined behaviour, for instance by reading
      outside the buffer ([Undefined]), or has not finished within the steps
      it was given ([Timeout]). *)

From Stdlib Require Import ZArith List Lia Bool.
From Stdlib Require Import Init.Byte.
From stdpp Require Import base tactics option list.

Local Open Scope Z_scope.

(* ------------------------------------------------------------------ *)
(** ** Outcomes of a call *)

Inductive outcome (A : Type) : Type :=
| Done (a : A)
| Fatal
| Undefined
| Timeout.

Arguments Done {A} a.
Arguments Fatal {A}.
Arguments Undefined {A}.
Arguments Timeout {A}.

#[global] Instance outcome_ret : MRet outcome := fun A a => Done a.

#[global] Instance outcome_bind : MBind outcome := fun A B k m =>
  match m with
  | Done a => k a
  | Fatal => Fatal
  | Undefined => Undefined
  | Timeout => Timeout
  end.

(** The build and the host: glog's [DCHECK] family is compiled in only in
    debug builds, [CHECK] always; [gMachineEndianness] is the byte order of
    the running machine. *)
Record Build : Type := mkBuild {
  dchecks : bool;
  littleEndianHost : bool
}.

Definition CHECK (c : bool) : outcome unit :=
  if c then Done tt else Fatal.

Definition DCHECK (cfg : Build) (c : bool) : outcome unit :=
  if dchecks cfg then CHECK c else Done tt.

(* ------------------------------------------------------------------ *)
(** ** 64-bit arithmetic *)

Definition u64 (z : Z) : Z := z mod 2 ^ 64.
Definition add64 (a b : Z) : Z := u64 (a + b).
Definition sub64 (a b : Z) : Z := u64 (a - b).
Definition mul64 (a b : Z) : Z := u64 (a * b).

(** Reading a [std::vector] or a [Range] at an index; outside the range the
    C++ access is undefined. *)
Definition at_index {A : Type} (l : list A) (i : Z) : outcome A :=
  if i <? 0 then Undefined
  else match l !! Z.to_nat i with
       | Some x => Done x
       | None => Undefined
       end.

(* ------------------------------------------------------------------ *)
(** ** Thrift types *)

Inductive ThriftTensorEndianness : Type := LITTLE | BIG | NATIVE.

Definition endianness_eqb (a b : ThriftTensorEndianness) : bool :=
  match a, b with
  | LITTLE, LITTLE | BIG, BIG | NATIVE, NATIVE => true
  | _, _ => false
  end.

Definition gMachineEndianness (cfg : Build) : ThriftTensorEndianness :=
  if littleEndianHost cfg then LITTLE else BIG.

(** The enumerators of [ThriftTensorDataType] are declared in the Thrift
    IDL; a tag is its integer code. *)
Definition ThriftTensorDataType : Type := Z.

Inductive SharingMode : Type :=
| SHARE_NONE
| SHARE_IOBUF_MANAGED
| SHARE_ALL.

(* ------------------------------------------------------------------ *)
(** ** folly::IOBuf, as far as the serializer observes it *)

(** One element of a buffer chain: the bytes in [data(), data()+length()),
    the caller-visible allocation they live in ([None] for an IOBuf that
    owns no buffer or whose memory is private to it), and whether the
    buffer is managed by IOBuf's reference counting. *)
Record Segment : Type := mkSegment {
  seg_buffer : option nat;
  seg_bytes : list byte;
  seg_managed : bool
}.

Record IOBuf : Type := mkIOBuf {
  io_head : Segment;
  io_rest : list Segment
}.

(** [folly::IOBuf()]: no buffer, no data, not chained; also the state of a
    moved-from IOBuf. *)
Definition IOBuf_empty : IOBuf :=
  {| io_head := {| seg_buffer := None; seg_bytes := []; seg_managed := true |};
     io_rest := [] |}.

Definition isChained (b : IOBuf) : bool :=
  match io_rest b with [] => false | _ :: _ => true end.

Definition data_bytes (b : IOBuf) : list byte := seg_bytes (io_head b).

Definition io_length (b : IOBuf) : Z := Z.of_nat (length (data_bytes b)).

Definition isManagedOne (b : IOBuf) : bool := seg_managed (io_head b).

(** All the bytes of a chain, in order. *)
Definition chain_bytes (b : IOBuf) : list byte :=
  seg_bytes (io_head b) ++ concat (map seg_bytes (io_rest b)).

Definition with_bytes (s : Segment) (bs : list byte) : Segment :=
  {| seg_buffer := seg_buffer s; seg_bytes := bs; seg_managed := seg_managed s |}.

(** [cloneOne]: a new IOBuf over the same memory as the head of the chain. *)
Definition cloneOne (b : IOBuf) : IOBuf :=
  {| io_head := io_head b; io_rest := [] |}.

(** [trimStart] and [trimEnd] move the bounds of the head without a check;
    trimming more than [length()] leaves a range outside the buffer. *)
Definition trimStart (amount : Z) (b : IOBuf) : outcome IOBuf :=
  if amount <=? io_length b then
    Done {| io_head := with_bytes (io_head b) (drop (Z.to_nat amount) (data_bytes b));
            io_rest := io_rest b |}
  else Undefined.

Definition trimEnd (amount : Z) (b : IOBuf) : outcome IOBuf :=
  if amount <=? io_length b then
    Done {| io_head := with_bytes (io_head b)
                         (take (Z.to_nat (io_length b - amount)) (data_bytes b));
            io_rest := io_rest b |}
  else Undefined.

(** The [length] bytes at pointer [data.data() + offset]. *)
Definition read_bytes (b : IOBuf) (offset length : Z) : outcome (list byte) :=
  if offset + length <=? io_length b then
    Done (take (Z.to_nat length) (drop (Z.to_nat offset) (data_bytes b)))
  else Undefined.

(** What an IOBufQueue holds after a sequence of [QueueAppender] calls:
    [push] copies bytes into blocks of the queue, [insert] links a buffer. *)
Inductive Chunk : Type :=
| Pushed (bs : list byte)
| Inserted (b : IOBuf).

Definition chunk_bytes (c : Chunk) : list byte :=
  match c with
  | Pushed bs => bs
  | Inserted b => chain_bytes b
  end.

Definition queue_bytes (q : list Chunk) : list byte :=
  concat (map chunk_bytes q).

Definition chunk_segments (c : Chunk) : list Segment :=
  match c with
  | Pushed bs => [ {| seg_buffer := None; seg_bytes := bs; seg_managed := true |} ]
  | Inserted b => io_head b :: io_rest b
  end.

(** The chain of an IOBufQueue: [push] of zero bytes allocates nothing,
    [insert] links the buffer whatever its length. *)
Fixpoint queue_segments (q : list Chunk) : list Segment :=
  match q with
  | [] => []
  | Pushed [] :: q' => queue_segments q'
  | c :: q' => chunk_segments c ++ queue_segments q'
  end.

(** [outQueue.move()->cloneInto(out.data)]: [move()] hands out the head of
    the chain, which is null for a queue that holds no buffer. *)
Definition queue_move_cloneInto (q : list Chunk) : outcome IOBuf :=
  match queue_segments q with
  | [] => Undefined
  | s :: rest => Done {| io_head := s; io_rest := rest |}
  end.

(* ------------------------------------------------------------------ *)
(** ** The wire record *)

Record ThriftTensor : Type := mkThriftTensor {
  dataType : ThriftTensorDataType;
  endianness : ThriftTensorEndianness;
  sizes : list Z;
  data : IOBuf
}.

(** The payload of a wire record. *)
Definition payload (t : ThriftTensor) : list byte := chain_bytes (data t).

(* ------------------------------------------------------------------ *)
(** ** detail::serialize *)

Definition kMinCloneSize : Z := Z.shiftl 4 10.
Definition kMaxBlockSize : Z := Z.shiftl 2 20.

(** [partialCloneOne(buf, offset, length)] *)
Definition partialCloneOne (cfg : Build) (buf : IOBuf) (offset length : Z)
  : outcome IOBuf :=
  _ ← DCHECK cfg (add64 offset length <=? io_length buf);
  let cloned := cloneOne buf in
  cloned ← trimStart offset cloned;
  trimEnd (sub64 (io_length cloned) length) cloned.

(** Modelled from the spec: [detail::applySharingMode], called on the fast
    path, is defined outside the two source files.  The buffer goes to the
    output as it is when the mode permits sharing (for
    [SHARE_IOBUF_MANAGED], when the buffer is managed); otherwise its bytes
    are copied to memory private to the output. *)
Definition sharingPermitted (sharing : SharingMode) (b : IOBuf) : bool :=
  match sharing with
  | SHARE_NONE => false
  | SHARE_IOBUF_MANAGED => isManagedOne b
  | SHARE_ALL => true
  end.

Definition private_copy (s : Segment) : Segment :=
  {| seg_buffer := None; seg_bytes := seg_bytes s; seg_managed := true |}.

Definition applySharingMode (b : IOBuf) (sharing : SharingMode) : IOBuf :=
  if sharingPermitted sharing b then b
  else {| io_head := private_copy (io_head b);
          io_rest := map private_copy (io_rest b) |}.

(** The contiguity scan, lines 61-67: [k] is [firstContiguousDim + 1], so
    the loop test [firstContiguousDim >= 0] is [k <> 0].  The result is the
    value of [firstContiguousDim] at the exit of the loop and
    [contiguousSize]. *)
Fixpoint scanContiguous (k : nat) (sizes strides : list Z) (contiguousSize : Z)
  : outcome (Z * Z) :=
  match k with
  | O => Done (-1, contiguousSize)
  | S j =>
      stride ← at_index strides (Z.of_nat j);
      if negb (u64 stride =? contiguousSize) then
        Done (Z.of_nat j, contiguousSize)
      else
        size ← at_index sizes (Z.of_nat j);
        scanContiguous j sizes strides (mul64 contiguousSize (u64 size))
  end.

(** The result of lines 54-79: [firstContiguousDim], [contiguousSize] and
    [dataSize], all three still counted in elements. *)
Record Contiguity : Type := mkContiguity {
  firstContiguousDim : Z;
  contiguousSize : Z;
  dataSize : Z
}.

Definition product64 (acc : Z) (l : list Z) : Z :=
  fold_left (fun d s => mul64 d (u64 s)) l acc.

Definition analyze (cfg : Build) (sizes strides : list Z) : outcome Contiguity :=
  let ndims := Z.of_nat (length sizes) in
  match strides with
  | _ :: _ =>
      _ ← DCHECK cfg (Z.of_nat (length strides) =? ndims);
      '(fcd, cs) ← scanContiguous (length sizes) sizes strides 1;
      let fcd := fcd + 1 in
      Done {| firstContiguousDim := fcd;
              contiguousSize := cs;
              dataSize := product64 cs (take (Z.to_nat fcd) sizes) |}
  | [] =>
      let ds := product64 1 sizes in
      Done {| firstContiguousDim := 0; contiguousSize := ds; dataSize := ds |}
  end.

(** The state of the traversal of lines 124-158. *)
Record Odometer : Type := mkOdometer {
  idx : Z;
  src : Z;
  counter : list Z;
  outQueue : list Chunk
}.

Section Traversal.

Variable cfg : Build.
Variables sizes strides : list Z.
Variable data : IOBuf.
Variable elementSize : Z.
Variable firstContiguousDim : Z.
(** [contiguousSize] in bytes. *)
Variable contiguousSize : Z.
Variable mayShare : bool.

(** Lines 141-146: one contiguous run goes to the output. *)
Definition emitRun (src : Z) : outcome Chunk :=
  if mayShare && (kMinCloneSize <=? contiguousSize) then
    cloned ← partialCloneOne cfg data src contiguousSize;
    Done (Inserted cloned)
  else
    bs ← read_bytes data src contiguousSize;
    Done (Pushed bs).

(** One iteration of the body of [while (idx >= 0)]. *)
Definition step (o : Odometer) : outcome Odometer :=
  if idx o =? firstContiguousDim then
    c ← emitRun (src o);
    Done {| idx := idx o - 1; src := src o; counter := counter o;
            outQueue := outQueue o ++ [c] |}
  else
    stride ← at_index strides (idx o);
    size ← at_index sizes (idx o);
    cnt ← at_index (counter o) (idx o);
    let src1 := add64 (src o) (mul64 (u64 stride) elementSize) in
    let cnt1 := add64 cnt 1 in
    if cnt1 =? u64 size then
      Done {| idx := idx o - 1;
              src := sub64 src1 (mul64 (u64 (size * stride)) elementSize);
              counter := <[Z.to_nat (idx o) := 0]> (counter o);
              outQueue := outQueue o |}
    else
      Done {| idx := firstContiguousDim;
              src := src1;
              counter := <[Z.to_nat (idx o) := cnt1]> (counter o);
              outQueue := outQueue o |}.

(** The loop, run for at most [fuel] iterations. *)
Fixpoint loop (fuel : nat) (o : Odometer) : outcome Odometer :=
  if idx o <? 0 then Done o
  else match fuel with
       | O => Timeout
       | S fuel' => o' ← step o; loop fuel' o'
       end.

End Traversal.

Definition mayShareOf (sharing : SharingMode) (data : IOBuf) : bool :=
  match sharing with
  | SHARE_NONE => false
  | SHARE_IOBUF_MANAGED => isManagedOne data
  | SHARE_ALL => true
  end.

(** Lines 111-158: the queue filled by the traversal.  The block size given
    to the appender, [min(dataSize, kMaxBlockSize)], decides how the pushed
    bytes are cut into blocks, not which bytes the queue holds. *)
Definition traverse (cfg : Build) (fuel : nat) (sizes strides : list Z)
    (data : IOBuf) (elementSize : Z) (sharing : SharingMode)
    (firstContiguousDim contiguousSize : Z) : outcome (list Chunk) :=
  let o0 := {| idx := firstContiguousDim;
               src := 0;
               counter := replicate (Z.to_nat firstContiguousDim) 0;
               outQueue := [] |} in
  o ← loop cfg sizes strides data elementSize firstContiguousDim contiguousSize
         (mayShareOf sharing data) fuel o0;
  Done (outQueue o).

(** Lines 47-52: the byte order that goes to the wire record. *)
Definition resolveEndianness (cfg : Build) (endianness : ThriftTensorEndianness)
  : outcome ThriftTensorEndianness :=
  match endianness with
  | NATIVE => Done (gMachineEndianness cfg)
  | _ => _ ← CHECK (endianness_eqb endianness (gMachineEndianness cfg));
         Done endianness
  end.

(** [detail::serialize]: the wire record written to [out] and the source
    buffer [data] as the call leaves it. *)
Definition serialize (cfg : Build) (fuel : nat)
    (sizes strides : list Z) (data : IOBuf) (dtype : ThriftTensorDataType)
    (elementSize : Z) (endianness : ThriftTensorEndianness)
    (sharing : SharingMode) : outcome (ThriftTensor * IOBuf) :=
  _ ← DCHECK cfg (negb (isChained data));
  endianness ← resolveEndianness cfg endianness;
  let ndims := Z.of_nat (length sizes) in
  c ← analyze cfg sizes strides;
  let dataSize := mul64 (dataSize c) elementSize in
  let contiguousSize := mul64 (contiguousSize c) elementSize in
  _ ← DCHECK cfg (contiguousSize <=? dataSize);
  let out d := {| dataType := dtype; endianness := endianness;
                  sizes := sizes; data := d |} in
  if ndims =? 0 then
    Done (out IOBuf_empty, IOBuf_empty)
  else if firstContiguousDim c =? 0 then
    _ ← DCHECK cfg (dataSize <=? io_length data);
    data ← trimEnd (sub64 (io_length data) dataSize) data;
    let data := applySharingMode data sharing in
    Done (out data, IOBuf_empty)
  else
    q ← traverse cfg fuel sizes strides data elementSize sharing
          (firstContiguousDim c) contiguousSize;
    d ← queue_move_cloneInto q;
    Done (out d, data).

(** Modelled from the spec: [detail::deserialize] is only declared and
    instantiated in the source files.  It requires the data type of the
    wire record to be the expected one, a mismatch being a fatal contract
    violation, and returns the payload unchanged. *)
Definition deserialize (t : ThriftTensor) (dtype : ThriftTensorDataType)
  : outcome IOBuf :=
  _ ← CHECK (dataType t =? dtype);
  Done (data t).

(* ------------------------------------------------------------------ *)
(** ** Tensor<T>::deserializeTH *)

(** A TH tensor as [Tensor<T>] reads and builds it: storage, storage
    offset, sizes and strides.  [None] for the strides is the null pointer
    that makes TH lay the tensor out row-major. *)
Record THTensor : Type := mkTHTensor {
  th_storage : IOBuf;
  th_storageOffset : Z;
  th_sizes : list Z;
  th_strides : option (list Z)
}.

(** [Tensor<T>::deserializeTH]: [dtype] is [detail::dataType<T>()]; the
    storage wraps the buffer returned by [detail::deserialize]. *)
Definition deserializeTH (dtype : ThriftTensorDataType)
    (thriftTensor : ThriftTensor) (sharing : SharingMode) : outcome THTensor :=
  data ← deserialize thriftTensor dtype;
  let s := sizes thriftTensor in
  Done {| th_storage := data; th_storageOffset := 0;
          th_sizes := s; th_strides := None |}.

(* ------------------------------------------------------------------ *)
(** ** The logical array of a strided view *)

Definition prodZ (l : list Z) : Z := fold_right Z.mul 1 l.

(** The strides of the implicit row-major layout: the stride of a dimension
    is the number of elements of the dimensions inside it. *)
Fixpoint rowMajorStrides (sizes : list Z) : list Z :=
  match sizes with
  | [] => []
  | _ :: inner => prodZ inner :: rowMajorStrides inner
  end.

(** The element offsets of a view in row-major order of the indices: the
    last index varies fastest. *)
Fixpoint rowMajor (sizes strides : list Z) (base : Z) : list Z :=
  match sizes, strides with
  | [], _ => [base]
  | size :: sizes', stride :: strides' =>
      flat_map (fun i => rowMajor sizes' strides' (base + i * stride))
               (seqZ 0 size)
  | _ :: _, [] => []
  end.

(** The bytes of the element at an element offset. *)
Definition elementBytes (bs : list byte) (elementSize : Z) (e : Z) : list byte :=
  take (Z.to_nat elementSize) (drop (Z.to_nat (e * elementSize)) bs).

Definition effectiveStrides (sizes strides : list Z) : list Z :=
  match strides with
  | [] => rowMajorStrides sizes
  | _ :: _ => strides
  end.

(** The element offsets of the logical elements of a view, in row-major
    order, from the base offset of the view.  A tensor without dimensions
    is TH's empty tensor: it has no element. *)
Definition viewOffsets (sizes strides : list Z) : list Z :=
  match sizes with
  | [] => []
  | _ :: _ => rowMajor sizes (effectiveStrides sizes strides) 0
  end.

(** The row-major flattening of the logical elements of a view over the
    bytes [bs], which start at the base offset of the view. *)
Definition logicalBytes (sizes strides : list Z) (bs : list byte)
    (elementSize : Z) : list byte :=
  flat_map (elementBytes bs elementSize) (viewOffsets sizes strides).

(** Every logical element of the view lies inside a buffer of [len]
    bytes. *)
Definition viewInBuffer (sizes strides : list Z) (elementSize len : Z) : Prop :=
  Forall (fun e => 0 <= e /\ (e + 1) * elementSize <= len)
         (viewOffsets sizes strides).

(** The strides of a view laid out row-major: the stride of every
    dimension with more than one index is the number of elements of the
    dimensions inside it. *)
Fixpoint rowMajorLike (sizes strides : list Z) : Prop :=
  match sizes, strides with
  | [], _ => True
  | size :: sizes', stride :: strides' =>
      (size = 1 \/ stride = prodZ sizes') /\ rowMajorLike sizes' strides'
  | _ :: _, [] => False
  end.

(** The number of iterations the traversal makes over leading dimensions
    of the given sizes. *)
Fixpoint odometerSteps (sizes : list Z) : nat :=
  match sizes with
  | [] => 1
  | size :: inner => Z.to_nat size * (odometerSteps inner + 1)
  end.

(** The payload a call produced, if it returned. *)
Definition payloadOf (r : outcome (ThriftTensor * IOBuf)) : option (list byte) :=
  match r with
  | Done (out, _) => Some (payload out)
  | _ => None
  end.

Definition isInserted (c : Chunk) : bool :=
  match c with
  | Inserted _ => true
  | Pushed _ => false
  end.

(** Two calls agree when both return, with related results, or neither
    does. *)
Definition agree {A : Type} (R : A -> A -> Prop) (r1 r2 : outcome A) : Prop :=
  match r1, r2 with
  | Done a, Done b => R a b
  | Done _, _ | _, Done _ => False
  | _, _ => True
  end.

(** An aliased run holds at least one byte. *)
Definition chunkSolid (c : Chunk) : Prop :=
  match c with
  | Inserted b => chain_bytes b <> []
  | Pushed _ => True
  end.

(** Two traversals at the same position whose queues hold the same bytes. *)
Definition sameBytes (o1 o2 : Odometer) : Prop :=
  idx o1 = idx o2 /\ src o1 = src o2 /\ counter o1 = counter o2 /\
  0 <= src o1 /\
  queue_bytes (outQueue o1) = queue_bytes (outQueue o2) /\
  Forall chunkSolid (outQueue o1) /\ Forall chunkSolid (outQueue o2).

(** The bytes of the run of [contiguousSize] bytes that starts at the
    element offset [e], and the condition that the run lies inside the
    buffer. *)
Definition runBytes (bs : list byte) (elementSize contiguousSize e : Z)
  : list byte :=
  take (Z.to_nat contiguousSize) (drop (Z.to_nat (e * elementSize)) bs).

Definition runInBuffer (data : IOBuf) (elementSize contiguousSize e : Z) : Prop :=
  0 <= e * elementSize /\ e * elementSize + contiguousSize <= io_length data.

(** A view that serialize is specified for: a single unchained buffer,
    strides that are implicit or one per dimension, positive sizes, sizes
    and strides in the range of their types, and every logical element
    inside the buffer. *)
Definition servableView (sizes strides : list Z) (data : IOBuf)
    (elementSize : Z) : Prop :=
  isChained data = false /\
  io_length data < 2 ^ 64 /\
  (strides = [] \/ length strides = length sizes) /\
  Forall (fun s => 0 < s) sizes /\
  Forall (fun t => - 2 ^ 63 <= t < 2 ^ 63) strides /\
  0 < elementSize /\
  prodZ sizes * elementSize < 2 ^ 64 /\
  viewInBuffer sizes strides elementSize (io_length data).

(** After [n] iterations from [o] the loop [run] is in a state that
    satisfies [Q], unless an iteration stopped the call before. *)
Definition haltsTo (run : nat -> Odometer -> outcome Odometer) (n : nat)
    (o : Odometer) (Q : Odometer -> Prop) : Prop :=
  forall fuel,
    (exists o', Q o' /\ run (n + fuel)%nat o = run fuel o') \/
    run (n + fuel)%nat o = Fatal \/ run (n + fuel)%nat o = Undefined.

(* ------------------------------------------------------------------ *)
(** ** TensorBase: the tensor mode *)

(** [enum Mode : unsigned { UNIQUE = 1U << 0, CONTIGUOUS = 1U << 1 }] *)
Definition UNIQUE : Z := Z.shiftl 1 0.
Definition CONTIGUOUS : Z := Z.shiftl 1 1.

(** [TensorBase::mode(th)]; [isUnique(th)] and [isContiguous(th)] are only
    declared in the header: their results are the two arguments. *)
Definition mode (isUnique isContiguous : bool) : Z :=
  Z.lor (if isUnique then UNIQUE else 0) (if isContiguous then CONTIGUOUS else 0).

(* ------------------------------------------------------------------ *)
(** ** Relations between calls and between views *)

(** A call that stops at an assertion or else behaves as another one. *)
Definition assertsOr {A : Type} (r r' : outcome A) : Prop :=
  r = Fatal \/ r = r'.

(** Two strides sequences that differ only in dimensions with one index. *)
Fixpoint sameButUnit (sizes strides1 strides2 : list Z) : Prop :=
  match sizes, strides1, strides2 with
  | [], [], [] => True
  | size :: sizes', s1 :: strides1', s2 :: strides2' =>
      (size = 1 \/ s1 = s2) /\ sameButUnit sizes' strides1' strides2'
  | _, _, _ => False
  end.

(** What a run of the output is made of: [contiguousSize] bytes that lie
    in the source buffer at some offset; an aliased run is a single buffer
    over the allocation of the source. *)
Definition runOfSource (data : IOBuf) (contiguousSize : Z) (c : Chunk) : Prop :=
  (exists offset,
     0 <= offset /\ offset + contiguousSize <= io_length data /\
     chunk_bytes c = take (Z.to_nat contiguousSize)
                          (drop (Z.to_nat offset) (data_bytes data))) /\
  match c with
  | Inserted b =>
      isChained b = false /\ seg_buffer (io_head b) = seg_buffer (io_head data)
  | Pushed _ => True
  end.

(* ------------------------------------------------------------------ *)
(** ** Runs, aliases and copies *)

(** The runs at the given pointers emitted one after the other; the first
    one that is not emitted ends the call. *)
Fixpoint emitAll (emit : Z -> outcome Chunk) (srcs : list Z)
  : outcome (list Chunk) :=
  match srcs with
  | [] => Done []
  | src :: rest => c ← emit src; q ← emitAll emit rest; Done (c :: q)
  end.

(** The bytes of the run of [contiguousSize] bytes at byte offset [src]. *)
Definition bytesOfRun (data : IOBuf) (src contiguousSize : Z) : list byte :=
  take (Z.to_nat contiguousSize) (drop (Z.to_nat src) (data_bytes data)).

(** The zero-copy alias of a run: one unchained IOBuf over the allocation
    of the source buffer, with the management of the source, whose data
    are the bytes of the run. *)
Definition aliasOf (data : IOBuf) (src contiguousSize : Z) : IOBuf :=
  {| io_head := with_bytes (io_head data) (bytesOfRun data src contiguousSize);
     io_rest := [] |}.

(** What the queue receives for a run: its alias, or a copy of its
    bytes. *)
Definition runChunk (data : IOBuf) (aliased : bool) (contiguousSize src : Z)
  : Chunk :=
  if aliased then Inserted (aliasOf data src contiguousSize)
  else Pushed (bytesOfRun data src contiguousSize).

(** The condition of the specification for [SHARE_IOBUF_MANAGED], in its
    words: the source segment is exclusively owned.  A buffer is
    exclusively owned when it is managed and no other IOBuf, among those
    that exist, has a segment over its allocation. *)
Definition sharesAllocation (b other : IOBuf) : Prop :=
  seg_buffer (io_head b) <> None /\
  Exists (fun s => seg_buffer s = seg_buffer (io_head b))
         (io_head other :: io_rest other).

Definition specExclusivelyOwned (b : IOBuf) (others : list IOBuf) : Prop :=
  isManagedOne b = true /\ Forall (fun o => ~ sharesAllocation b o) others.

(* ------------------------------------------------------------------ *)
(** ** Sample inputs *)

(** A debug build and a release build, both on a little-endian host. *)
Definition debugBuild : Build := {| dchecks := true; littleEndianHost := true |}.
Definition releaseBuild : Build := {| dchecks := false; littleEndianHost := true |}.

(** A managed, unchained buffer over allocation 0 that holds [bs]. *)
Definition bufferOf (bs : list byte) : IOBuf :=
  {| io_head := {| seg_buffer := Some 0%nat; seg_bytes := bs; seg_managed := true |};
     io_rest := [] |}.

(** A chain of two buffers over allocations 0 and 1. *)
Definition chainOf (bs1 bs2 : list byte) : IOBuf :=
  {| io_head := {| seg_buffer := Some 0%nat; seg_bytes := bs1; seg_managed := true |};
     io_rest := [ {| seg_buffer := Some 1%nat; seg_bytes := bs2;
                     seg_managed := true |} ] |}.

(** The six bytes "abcdef", and their transposition as a 3 x 2 array. *)
Definition abcdef : list byte := [x61; x62; x63; x64; x65; x66].
Definition acebdf : list byte := [x61; x63; x65; x62; x64; x66].

(* ================================================================== *)
(** * Properties *)

(** ** Outcomes *)

Lemma bind_Done {A B : Type} (a : A) (k : A -> outcome B) :
  (Done a ≫= k) = k a.
Proof. reflexivity. Qed.

Lemma bind_Done_inv {A B : Type} (m : outcome A) (k : A -> outcome B) (b : B) :
  (m ≫= k) = Done b -> exists a, m = Done a /\ k a = Done b.
Proof. destruct m; simpl; intros H; try discriminate. eauto. Qed.

Ltac done_inv H :=
  let a := fresh "a" in
  let Ha := fresh "Ha" in
  apply bind_Done_inv in H; destruct H as (a & Ha & H).

(** ** 64-bit arithmetic *)

Lemma u64_range z : 0 <= u64 z < 2 ^ 64.
Proof. unfold u64. apply Z.mod_pos_bound. lia. Qed.

Lemma u64_small z : 0 <= z < 2 ^ 64 -> u64 z = z.
Proof. unfold u64. intros. apply Z.mod_small. lia. Qed.

Lemma u64_idemp z : u64 (u64 z) = u64 z.
Proof. apply u64_small, u64_range. Qed.

Lemma u64_add_l a b : u64 (u64 a + b) = u64 (a + b).
Proof. unfold u64. apply Zplus_mod_idemp_l. Qed.

Lemma u64_add_r a b : u64 (a + u64 b) = u64 (a + b).
Proof. unfold u64. apply Zplus_mod_idemp_r. Qed.

Lemma u64_sub_l a b : u64 (u64 a - b) = u64 (a - b).
Proof. unfold u64. apply Zminus_mod_idemp_l. Qed.

Lemma u64_sub_r a b : u64 (a - u64 b) = u64 (a - b).
Proof. unfold u64. apply Zminus_mod_idemp_r. Qed.

Lemma u64_mul_l a b : u64 (u64 a * b) = u64 (a * b).
Proof. unfold u64. apply Zmult_mod_idemp_l. Qed.

Lemma u64_mul_r a b : u64 (a * u64 b) = u64 (a * b).
Proof. unfold u64. apply Zmult_mod_idemp_r. Qed.

(** Two integers less than 2^64 apart that agree modulo 2^64 are equal. *)
Lemma u64_inj_window a b :
  u64 a = u64 b -> - 2 ^ 64 < a - b < 2 ^ 64 -> a = b.
Proof.
  unfold u64. intros H Hw.
  assert (Hd : (a - b) mod 2 ^ 64 = 0).
  { rewrite Zminus_mod, H, Z.sub_diag. reflexivity. }
  apply Z.mod_divide in Hd; [|lia].
  destruct Hd as [q Hq]. nia.
Qed.

Lemma product64_u64 acc l : product64 acc l = u64 (product64 acc l) \/ l = [].
Proof.
  destruct l as [|x l]; [now right|left].
  revert acc x. induction l as [|y l IH]; intros acc x; simpl.
  - unfold mul64. now rewrite u64_idemp.
  - apply (IH (mul64 acc (u64 x)) y).
Qed.

Lemma product64_spec acc l : u64 (product64 acc l) = u64 (acc * prodZ l).
Proof.
  revert acc. induction l as [|x l IH]; intros acc; simpl.
  - now rewrite Z.mul_1_r.
  - change (fold_left _ l ?a) with (product64 a l). rewrite IH.
    unfold mul64. rewrite u64_mul_l.
    replace (acc * u64 x * prodZ l) with (u64 x * (acc * prodZ l)) by ring.
    rewrite u64_mul_l. f_equal. unfold prodZ. simpl. ring.
Qed.

Lemma product64_prodZ acc l :
  0 <= acc < 2 ^ 64 -> product64 acc l = u64 (acc * prodZ l).
Proof.
  intros Hacc. destruct (product64_u64 acc l) as [H| ->].
  - rewrite H. apply product64_spec.
  - simpl. rewrite Z.mul_1_r. symmetry. now apply u64_small.
Qed.

Lemma prodZ_app l1 l2 : prodZ (l1 ++ l2) = prodZ l1 * prodZ l2.
Proof.
  unfold prodZ. induction l1 as [|x l1 IH]; simpl; [lia|]. rewrite IH. ring.
Qed.

Lemma prodZ_pos l : Forall (fun s => 0 < s) l -> 0 < prodZ l.
Proof. unfold prodZ. induction 1; simpl; lia. Qed.

(** ** The contiguity analysis *)

Lemma at_index_lookup {A : Type} (l : list A) (j : nat) (x : A) :
  l !! j = Some x -> at_index l (Z.of_nat j) = Done x.
Proof.
  intros H. unfold at_index.
  destruct (Z.ltb_spec (Z.of_nat j) 0); [lia|].
  now rewrite Nat2Z.id, H.
Qed.

Lemma at_index_Done {A : Type} (l : list A) (i : Z) (x : A) :
  at_index l i = Done x -> 0 <= i /\ l !! Z.to_nat i = Some x.
Proof.
  unfold at_index. destruct (Z.ltb_spec i 0); [discriminate|].
  destruct (l !! Z.to_nat i) eqn:E; [|discriminate].
  intros [= ->]. auto.
Qed.

Lemma drop_lookup_cons {A : Type} (l : list A) (j : nat) (x : A) :
  l !! j = Some x -> drop j l = x :: drop (S j) l.
Proof.
  revert j. induction l as [|y l IH]; intros [|j] H; simpl in *; try discriminate.
  - now injection H as ->.
  - now apply IH.
Qed.

Lemma prodZ_drop sizes (j : nat) (size : Z) :
  sizes !! j = Some size -> prodZ (drop j sizes) = size * prodZ (drop (S j) sizes).
Proof. intros H. now rewrite (drop_lookup_cons _ _ _ H). Qed.

(** The scan absorbs the dimensions [f .. k) and leaves the loop with
    [firstContiguousDim = f - 1]: the stride of every absorbed dimension
    equals the product of the sizes inside it, and dimension [f - 1], if
    there is one, does not. *)
Lemma scanContiguous_spec sizes strides :
  length strides = length sizes ->
  forall k : nat, (k <= length sizes)%nat ->
  exists f : nat,
    (f <= k)%nat /\
    scanContiguous k sizes strides (u64 (prodZ (drop k sizes)))
      = Done (Z.of_nat f - 1, u64 (prodZ (drop f sizes))) /\
    (forall (j : nat) stride, (f <= j < k)%nat -> strides !! j = Some stride ->
       u64 stride = u64 (prodZ (drop (S j) sizes))) /\
    (forall stride, f <> 0%nat -> strides !! (f - 1)%nat = Some stride ->
       u64 stride <> u64 (prodZ (drop f sizes))).
Proof.
  intros Hlen. induction k as [|k IH]; intros Hk.
  - exists 0%nat. simpl. repeat split; auto; try lia.
  - destruct (lookup_lt_is_Some_2 strides k) as [stride Hst]; [lia|].
    destruct (lookup_lt_is_Some_2 sizes k) as [size Hsz]; [lia|].
    simpl. rewrite (at_index_lookup _ _ _ Hst). simpl.
    destruct (Z.eqb_spec (u64 stride) (u64 (prodZ (drop (S k) sizes)))) as [Heq|Hne];
      simpl.
    + rewrite (at_index_lookup _ _ _ Hsz). simpl.
      replace (mul64 (u64 (prodZ (drop (S k) sizes))) (u64 size))
        with (u64 (prodZ (drop k sizes))).
      2:{ unfold mul64. rewrite u64_mul_l, u64_mul_r, (prodZ_drop _ _ _ Hsz).
          f_equal. ring. }
      destruct IH as (f & Hf & Hscan & Habs & Hmis); [lia|].
      exists f. repeat split; auto; try lia.
      intros j s [Hj1 Hj2] Hs.
      destruct (decide (j = k)) as [->|Hjk].
      * rewrite Hst in Hs. now injection Hs as <-.
      * apply (Habs j s); [lia|done].
    + exists (S k). repeat split; auto.
      * do 2 f_equal. lia.
      * intros j s ?. lia.
      * intros s _. replace (S k - 1)%nat with k by lia.
        rewrite Hst. now intros [= <-].
Qed.

Lemma analyze_implicit (cfg : Build) (sizes : list Z) :
  analyze cfg sizes [] =
    Done {| firstContiguousDim := 0;
            contiguousSize := u64 (prodZ sizes);
            dataSize := u64 (prodZ sizes) |}.
Proof. unfold analyze. rewrite product64_prodZ by lia. now rewrite Z.mul_1_l. Qed.

Lemma analyze_strided (cfg : Build) (sizes strides : list Z) :
  strides <> [] -> length strides = length sizes ->
  exists (c : Contiguity) (f : nat),
    analyze cfg sizes strides = Done c /\
    firstContiguousDim c = Z.of_nat f /\ (f <= length sizes)%nat /\
    (forall (j : nat) stride, (f <= j)%nat -> strides !! j = Some stride ->
       u64 stride = u64 (prodZ (drop (S j) sizes))) /\
    (forall stride, f <> 0%nat -> strides !! (f - 1)%nat = Some stride ->
       u64 stride <> u64 (prodZ (drop f sizes))) /\
    contiguousSize c = u64 (prodZ (drop f sizes)) /\
    dataSize c = u64 (prodZ (take f sizes) * contiguousSize c).
Proof.
  intros Hne Hlen.
  destruct (scanContiguous_spec sizes strides Hlen (length sizes))
    as (f & Hf & Hscan & Habs & Hmis); [lia|].
  rewrite drop_all in Hscan. change (u64 (prodZ [])) with 1 in Hscan.
  unfold analyze. destruct strides as [|s0 strides']; [done|].
  unfold DCHECK, CHECK. rewrite Hlen, Z.eqb_refl.
  exists {| firstContiguousDim := Z.of_nat f;
            contiguousSize := u64 (prodZ (drop f sizes));
            dataSize := u64 (prodZ (take f sizes) * u64 (prodZ (drop f sizes))) |}, f.
  split.
  { destruct (dchecks cfg); simpl; rewrite Hscan; simpl;
      replace (Z.of_nat f - 1 + 1) with (Z.of_nat f) by lia;
      rewrite Nat2Z.id, product64_prodZ by apply u64_range;
      rewrite (Z.mul_comm (u64 _)); reflexivity. }
  simpl. repeat split; auto.
  intros j stride Hj Hs. apply (Habs j stride); [|done].
  split; [done|]. rewrite <- Hlen. now apply lookup_lt_Some in Hs.
Qed.

(** C3. The contiguity analysis scans the dimensions from the innermost
    to the outermost with [expected = 1], absorbs a dimension, multiplying
    [expected] by its size, exactly while its stride equals [expected], and
    stops at the first mismatch or after the last dimension.  It returns
    [firstContiguousDim = f], the index after the last absorbed dimension,
    [contiguousSize = expected], the product of the sizes of the dimensions
    [f ..], and [dataSize], the product of the sizes of the leading
    dimensions times [contiguousSize]; the products are those of the 64-bit
    unsigned arithmetic of the code.  With empty strides it returns
    [firstContiguousDim = 0] and the product of all the sizes as
    [contiguousSize]. *)
Theorem contiguity_analysis (cfg : Build) (sizes strides : list Z) :
  analyze cfg sizes [] =
    Done {| firstContiguousDim := 0;
            contiguousSize := u64 (prodZ sizes);
            dataSize := u64 (prodZ sizes) |}
  /\ (strides <> [] -> length strides = length sizes ->
      exists (c : Contiguity) (f : nat),
        analyze cfg sizes strides = Done c /\
        firstContiguousDim c = Z.of_nat f /\ (f <= length sizes)%nat /\
        (forall (j : nat) stride, (f <= j)%nat -> strides !! j = Some stride ->
           u64 stride = u64 (prodZ (drop (S j) sizes))) /\
        (forall stride, f <> 0%nat -> strides !! (f - 1)%nat = Some stride ->
           u64 stride <> u64 (prodZ (drop f sizes))) /\
        contiguousSize c = u64 (prodZ (drop f sizes)) /\
        dataSize c = u64 (prodZ (take f sizes) * contiguousSize c)).
Proof.
  split; [apply analyze_implicit|apply analyze_strided].
Qed.

Lemma contiguity_analysis_witness :
  exists (c : Contiguity) (f : nat),
    analyze debugBuild [2; 3; 4] [100; 4; 1] = Done c /\
    firstContiguousDim c = Z.of_nat f /\ (f <= 3)%nat /\
    (forall (j : nat) stride, (f <= j)%nat -> [100; 4; 1] !! j = Some stride ->
       u64 stride = u64 (prodZ (drop (S j) [2; 3; 4]))) /\
    (forall stride, f <> 0%nat -> [100; 4; 1] !! (f - 1)%nat = Some stride ->
       u64 stride <> u64 (prodZ (drop f [2; 3; 4]))) /\
    contiguousSize c = u64 (prodZ (drop f [2; 3; 4])) /\
    dataSize c = u64 (prodZ (take f [2; 3; 4]) * contiguousSize c).
Proof.
  apply (proj2 (contiguity_analysis debugBuild [2; 3; 4] [100; 4; 1])).
  - discriminate.
  - reflexivity.
Defined.

(** ** Buffers *)

Lemma length_take_drop {A : Type} (l : list A) (off n : nat) :
  (off + n <= length l)%nat -> length (take n (drop off l)) = n.
Proof. intros H. rewrite length_take, length_drop. lia. Qed.

Lemma read_bytes_Done b off n :
  0 <= off -> 0 <= n -> off + n <= io_length b ->
  read_bytes b off n = Done (take (Z.to_nat n) (drop (Z.to_nat off) (data_bytes b))).
Proof.
  intros. unfold read_bytes.
  destruct (Z.leb_spec (off + n) (io_length b)); [done|lia].
Qed.

Lemma chain_bytes_single s : chain_bytes {| io_head := s; io_rest := [] |} = seg_bytes s.
Proof. unfold chain_bytes. simpl. apply app_nil_r. Qed.

(** A clone of a run inside the buffer holds the bytes of the run. *)
Lemma partialCloneOne_Done cfg buf off n :
  0 <= off -> 0 <= n -> off + n <= io_length buf -> io_length buf < 2 ^ 64 ->
  exists cloned,
    partialCloneOne cfg buf off n = Done cloned /\
    chain_bytes cloned = take (Z.to_nat n) (drop (Z.to_nat off) (data_bytes buf)) /\
    io_rest cloned = [] /\
    seg_buffer (io_head cloned) = seg_buffer (io_head buf).
Proof.
  intros Hoff Hn Hin Hlen. unfold partialCloneOne.
  assert (Hd : DCHECK cfg (add64 off n <=? io_length buf) = Done tt).
  { unfold DCHECK, CHECK, add64. rewrite u64_small by lia.
    destruct (Z.leb_spec (off + n) (io_length buf)); [|lia].
    now destruct (dchecks cfg). }
  rewrite Hd. simpl.
  unfold trimStart. change (io_length (cloneOne buf)) with (io_length buf).
  destruct (Z.leb_spec off (io_length buf)); [|lia]. simpl.
  unfold trimEnd.
  set (c1 := {| io_head := _ |}).
  assert (Hl1 : io_length c1 = io_length buf - off).
  { unfold c1, io_length, data_bytes. simpl. rewrite length_drop.
    unfold io_length, data_bytes in *. lia. }
  rewrite Hl1. unfold sub64. rewrite u64_small by lia.
  destruct (Z.leb_spec (io_length buf - off - n) (io_length buf - off)); [|lia].
  eexists. split; [reflexivity|]. simpl. rewrite chain_bytes_single. simpl.
  repeat split. f_equal. f_equal. lia.
Qed.

(** A clone of a run that leaves the buffer does not return. *)
Lemma partialCloneOne_outside cfg buf off n :
  0 <= off -> 0 <= n < 2 ^ 64 -> io_length buf < off + n ->
  partialCloneOne cfg buf off n = Fatal \/ partialCloneOne cfg buf off n = Undefined.
Proof.
  intros Hoff Hn Hout. unfold partialCloneOne.
  destruct (DCHECK cfg (add64 off n <=? io_length buf)) as [[]| | |] eqn:Hd;
    simpl; auto.
  2:{ unfold DCHECK, CHECK in Hd. repeat case_match; discriminate. }
  unfold trimStart. change (io_length (cloneOne buf)) with (io_length buf).
  destruct (Z.leb_spec off (io_length buf)); simpl; auto.
  unfold trimEnd.
  set (c1 := {| io_head := _ |}).
  assert (Hl1 : io_length c1 = io_length buf - off).
  { unfold c1, io_length, data_bytes. simpl. rewrite length_drop.
    unfold io_length, data_bytes in *. lia. }
  rewrite Hl1. unfold sub64.
  assert (Hw : u64 (io_length buf - off - n) = io_length buf - off - n + 2 ^ 64).
  { unfold u64. symmetry. apply (Z.mod_unique _ _ (-1)); lia. }
  rewrite Hw.
  destruct (Z.leb_spec (io_length buf - off - n + 2 ^ 64) (io_length buf - off));
    [lia|auto].
Qed.

(** ** The traversal *)

Section TraversalFacts.

Variable cfg : Build.
Variables sizes strides : list Z.
Variable data : IOBuf.
Variable elementSize : Z.
Variable firstContiguousDim : Z.
Variable contiguousSize : Z.
Variable mayShare : bool.

Local Abbreviation emit := (emitRun cfg data contiguousSize mayShare).
Local Abbreviation step1 :=
  (step cfg sizes strides data elementSize firstContiguousDim contiguousSize mayShare).
Local Abbreviation run :=
  (loop cfg sizes strides data elementSize firstContiguousDim contiguousSize mayShare).

Lemma loop_finished fuel o : idx o < 0 -> run fuel o = Done o.
Proof.
  intros H. destruct fuel; simpl; destruct (Z.ltb_spec (idx o) 0); auto; lia.
Qed.

Lemma loop_step fuel o o' :
  0 <= idx o -> step1 o = Done o' -> run (S fuel) o = run fuel o'.
Proof.
  intros H Hs. simpl. destruct (Z.ltb_spec (idx o) 0); [lia|].
  now rewrite Hs.
Qed.

Lemma loop_S fuel o :
  0 <= idx o -> run (S fuel) o = step1 o ≫= run fuel.
Proof. intros H. simpl. destruct (Z.ltb_spec (idx o) 0); [lia|done]. Qed.

(** The copy-or-alias decision of one run. *)
Lemma emitRun_kind src c :
  emit src = Done c ->
  isInserted c = mayShare && (kMinCloneSize <=? contiguousSize).
Proof.
  unfold emitRun.
  destruct (mayShare && (kMinCloneSize <=? contiguousSize)); intros H.
  - done_inv H. now injection H as <-.
  - done_inv H. now injection H as <-.
Qed.

(** A run inside the buffer is emitted, as a copy or as an alias, with
    the bytes of the run; a run that leaves the buffer is not. *)
Lemma emitRun_inside src :
  0 <= src -> 0 <= contiguousSize ->
  src + contiguousSize <= io_length data -> io_length data < 2 ^ 64 ->
  exists c, emit src = Done c /\
    chunk_bytes c = take (Z.to_nat contiguousSize)
                         (drop (Z.to_nat src) (data_bytes data)).
Proof.
  intros Hs Hc Hin Hlen. unfold emitRun.
  destruct (mayShare && (kMinCloneSize <=? contiguousSize)).
  - destruct (partialCloneOne_Done cfg data src contiguousSize)
      as (cl & -> & Hb & _); auto.
    simpl. eauto.
  - rewrite read_bytes_Done by auto. simpl. eauto.
Qed.

Lemma emitRun_outside src :
  0 <= src -> 0 <= contiguousSize < 2 ^ 64 ->
  io_length data < src + contiguousSize ->
  emit src = Fatal \/ emit src = Undefined.
Proof.
  intros Hs Hc Hout. unfold emitRun.
  destruct (mayShare && (kMinCloneSize <=? contiguousSize)).
  - destruct (partialCloneOne_outside cfg data src contiguousSize) as [->| ->];
      auto.
  - unfold read_bytes.
    destruct (Z.leb_spec (src + contiguousSize) (io_length data)); [lia|auto].
Qed.

Lemma step_queue (P : Chunk -> Prop) o o' :
  (forall src c, emit src = Done c -> P c) ->
  step1 o = Done o' -> Forall P (outQueue o) -> Forall P (outQueue o').
Proof.
  intros HP Hs Hq. unfold step in Hs.
  destruct (idx o =? firstContiguousDim).
  - done_inv Hs. injection Hs as <-. simpl.
    apply Forall_app. split; [done|]. constructor; [|constructor].
    eapply HP. eassumption.
  - do 3 done_inv Hs. destruct (_ =? _); injection Hs as <-; done.
Qed.

Lemma loop_queue (P : Chunk -> Prop) fuel : forall o o',
  (forall src c, emit src = Done c -> P c) ->
  run fuel o = Done o' -> Forall P (outQueue o) -> Forall P (outQueue o').
Proof.
  induction fuel as [|fuel IH]; intros o o' HP Hl Hq; simpl in Hl;
    destruct (idx o <? 0); try discriminate.
  - now injection Hl as <-.
  - now injection Hl as <-.
  - done_inv Hl. eapply IH; [done|eassumption|].
    eapply step_queue; eassumption.
Qed.

End TraversalFacts.

(** The copy-or-alias decision is the same for every run of a
    traversal. *)
Lemma traverse_decision cfg fuel sizes strides data elementSize sharing
    fcd cs q :
  traverse cfg fuel sizes strides data elementSize sharing fcd cs = Done q ->
  Forall (fun c =>
            (isInserted c = true <->
             (sharing = SHARE_ALL \/
              (sharing = SHARE_IOBUF_MANAGED /\ isManagedOne data = true)) /\
             4096 <= cs) /\
            (isInserted c = false <-> exists bs, c = Pushed bs)) q.
Proof.
  intros H. unfold traverse in H. done_inv H. injection H as <-.
  eapply loop_queue; [|eassumption|constructor].
  intros src c Hc. apply emitRun_kind in Hc. split.
  - rewrite Hc. change kMinCloneSize with 4096.
    destruct (Z.leb_spec 4096 cs); destruct sharing; simpl;
      destruct (isManagedOne data); simpl; intuition (try discriminate; try lia).
  - destruct c; simpl; split; intros; eauto; try discriminate.
    destruct H as [? [=]].
Qed.

(** ** The payload does not depend on the sharing mode *)

Lemma agree_bind {A B : Type} (R : A -> A -> Prop) (S : B -> B -> Prop)
    (m1 m2 : outcome A) (k1 k2 : A -> outcome B) :
  agree R m1 m2 ->
  (forall a1 a2, R a1 a2 -> agree S (k1 a1) (k2 a2)) ->
  agree S (m1 ≫= k1) (m2 ≫= k2).
Proof. destruct m1, m2; simpl; auto; contradiction. Qed.

Lemma queue_bytes_app q1 q2 : queue_bytes (q1 ++ q2) = queue_bytes q1 ++ queue_bytes q2.
Proof. unfold queue_bytes. now rewrite map_app, concat_app. Qed.

Lemma queue_segments_bytes q :
  concat (map seg_bytes (queue_segments q)) = queue_bytes q.
Proof.
  induction q as [|c q IH]; [done|].
  unfold queue_bytes in *. destruct c as [[|b bs]|b]; simpl.
  - done.
  - now rewrite IH.
  - rewrite map_app, concat_app, IH. unfold chain_bytes. now rewrite app_assoc.
Qed.

Lemma queue_segments_nil q :
  Forall chunkSolid q -> queue_bytes q = [] -> queue_segments q = [].
Proof.
  induction 1 as [|c q Hc Hq IH]; [done|].
  unfold queue_bytes. simpl. intros H.
  apply app_eq_nil in H as [Hc0 Hq0].
  destruct c as [bs|b]; simpl in *.
  - subst bs. now apply IH.
  - contradiction.
Qed.

(** What [out.data] receives from the queue is decided by the bytes of the
    queue. *)
Lemma queue_move_cloneInto_bytes q :
  Forall chunkSolid q ->
  (queue_bytes q = [] /\ queue_move_cloneInto q = Undefined) \/
  (queue_bytes q <> [] /\
   exists b, queue_move_cloneInto q = Done b /\ chain_bytes b = queue_bytes q).
Proof.
  intros Hq. unfold queue_move_cloneInto.
  destruct (queue_segments q) as [|s rest] eqn:E.
  - left. split; [|done]. now rewrite <- queue_segments_bytes, E.
  - right. split.
    + intros H0. now rewrite (queue_segments_nil q Hq H0) in E.
    + eexists. split; [done|]. now rewrite <- queue_segments_bytes, E.
Qed.

Section Sharing.

Variable cfg : Build.
Variables sizes strides : list Z.
Variable data : IOBuf.
Variable elementSize : Z.
Variable firstContiguousDim : Z.
Variable contiguousSize : Z.
Variables mayShare1 mayShare2 : bool.

Hypothesis contiguousSize_range : 0 <= contiguousSize < 2 ^ 64.
Hypothesis length_range : io_length data < 2 ^ 64.

Local Abbreviation step' m :=
  (step cfg sizes strides data elementSize firstContiguousDim contiguousSize m).
Local Abbreviation loop' m :=
  (loop cfg sizes strides data elementSize firstContiguousDim contiguousSize m).

Lemma emitRun_solid m src c :
  0 <= src -> emitRun cfg data contiguousSize m src = Done c -> chunkSolid c.
Proof.
  intros Hs Hc. destruct c as [bs|b]; [done|]. simpl.
  pose proof (emitRun_kind _ _ _ _ _ _ Hc) as Hk. simpl in Hk.
  symmetry in Hk. apply andb_true_iff in Hk as [_ Hk].
  apply Z.leb_le in Hk. change kMinCloneSize with 4096 in Hk.
  destruct (Z.le_gt_cases (src + contiguousSize) (io_length data)) as [Hin|Hout].
  - destruct (emitRun_inside cfg data contiguousSize m src) as (c' & Hc' & Hb);
      auto; try lia.
    rewrite Hc in Hc'. injection Hc' as <-. simpl in Hb. rewrite Hb.
    intros H0. apply (f_equal length) in H0.
    unfold io_length in Hin.
    rewrite length_take_drop in H0 by lia. simpl in H0. lia.
  - destruct (emitRun_outside cfg data contiguousSize m src) as [H|H]; auto;
      try lia; rewrite H in Hc; discriminate.
Qed.

Lemma emitRun_agree src :
  0 <= src ->
  agree (fun c1 c2 => chunk_bytes c1 = chunk_bytes c2)
        (emitRun cfg data contiguousSize mayShare1 src)
        (emitRun cfg data contiguousSize mayShare2 src).
Proof.
  intros Hs.
  destruct (Z.le_gt_cases (src + contiguousSize) (io_length data)) as [Hin|Hout].
  - destruct (emitRun_inside cfg data contiguousSize mayShare1 src)
      as (c1 & -> & Hb1); auto; try lia.
    destruct (emitRun_inside cfg data contiguousSize mayShare2 src)
      as (c2 & -> & Hb2); auto; try lia.
    simpl. congruence.
  - destruct (emitRun_outside cfg data contiguousSize mayShare1 src) as [-> | ->];
      auto;
    destruct (emitRun_outside cfg data contiguousSize mayShare2 src) as [-> | ->];
      auto; done.
Qed.

Lemma step_agree o1 o2 :
  sameBytes o1 o2 -> agree sameBytes (step' mayShare1 o1) (step' mayShare2 o2).
Proof.
  destruct o1 as [i1 s1 c1 q1], o2 as [i2 s2 c2 q2].
  intros (Hi & Hs & Hc & Hs0 & Hq & Hq1 & Hq2). simpl in *. subst i2 s2 c2.
  unfold step. simpl. destruct (i1 =? firstContiguousDim).
  - pose proof (emitRun_agree s1 Hs0) as Ha.
    pose proof (emitRun_solid mayShare1 s1) as Hsol1.
    pose proof (emitRun_solid mayShare2 s1) as Hsol2.
    destruct (emitRun cfg data contiguousSize mayShare1 s1) as [e1| | |],
             (emitRun cfg data contiguousSize mayShare2 s1) as [e2| | |];
      simpl in *; try done.
    repeat split; simpl; auto.
    + rewrite !queue_bytes_app, Hq. unfold queue_bytes at 2 4. simpl. now rewrite Ha.
    + apply Forall_app; split; auto.
    + apply Forall_app; split; auto.
  - destruct (at_index strides i1) as [stride| | |]; simpl; try done.
    destruct (at_index sizes i1) as [size| | |]; simpl; try done.
    destruct (at_index c1 i1) as [cnt| | |]; simpl; try done.
    destruct (add64 cnt 1 =? u64 size); simpl; repeat split; auto;
      apply u64_range.
Qed.

Lemma loop_agree fuel : forall o1 o2,
  sameBytes o1 o2 -> agree sameBytes (loop' mayShare1 fuel o1) (loop' mayShare2 fuel o2).
Proof.
  induction fuel as [|fuel IH]; intros o1 o2 H; simpl;
    destruct H as (Hi & H'); rewrite <- Hi; destruct (idx o1 <? 0); simpl;
    try done.
  apply agree_bind with (R := sameBytes); [apply step_agree; done|auto].
Qed.

End Sharing.

Lemma agree_refl {A : Type} (m : outcome A) : agree eq m m.
Proof. now destruct m. Qed.

Lemma chain_bytes_applySharingMode b sharing :
  chain_bytes (applySharingMode b sharing) = chain_bytes b.
Proof.
  unfold applySharingMode. destruct (sharingPermitted sharing b); [done|].
  unfold chain_bytes. simpl. now rewrite map_map.
Qed.

Lemma traverse_agree cfg fuel sizes strides data elementSize s1 s2 fcd cs :
  0 <= cs < 2 ^ 64 -> io_length data < 2 ^ 64 ->
  agree (fun q1 q2 => queue_bytes q1 = queue_bytes q2 /\
                      Forall chunkSolid q1 /\ Forall chunkSolid q2)
        (traverse cfg fuel sizes strides data elementSize s1 fcd cs)
        (traverse cfg fuel sizes strides data elementSize s2 fcd cs).
Proof.
  intros Hcs Hlen. unfold traverse.
  apply agree_bind with (R := sameBytes).
  - apply loop_agree; auto. repeat split; simpl; auto; lia.
  - intros o1 o2 (_ & _ & _ & _ & Hq & H1 & H2). simpl. auto.
Qed.

(** C9. For the same shape, strides, element size and buffer the payload
    of the wire record is the same under [SHARE_NONE],
    [SHARE_IOBUF_MANAGED] and [SHARE_ALL], and a call returns under one
    mode exactly when it returns under the others: the mode only decides
    whether runs are copied or aliased. *)
Theorem sharing_transparency
    (cfg : Build) (fuel : nat) (sizes strides : list Z) (data : IOBuf)
    (dtype : ThriftTensorDataType) (elementSize : Z)
    (endianness : ThriftTensorEndianness) (sharing1 sharing2 : SharingMode) :
  io_length data < 2 ^ 64 ->
  payloadOf (serialize cfg fuel sizes strides data dtype elementSize
                       endianness sharing1)
  = payloadOf (serialize cfg fuel sizes strides data dtype elementSize
                         endianness sharing2).
Proof.
  intros Hlen.
  assert (Hag : agree (fun r1 r2 => payload (fst r1) = payload (fst r2))
                  (serialize cfg fuel sizes strides data dtype elementSize
                             endianness sharing1)
                  (serialize cfg fuel sizes strides data dtype elementSize
                             endianness sharing2)).
  2:{ destruct (serialize _ _ _ _ _ _ _ _ sharing1) as [[o1 d1]| | |],
               (serialize _ _ _ _ _ _ _ _ sharing2) as [[o2 d2]| | |];
        simpl in *; try done. now rewrite Hag. }
  unfold serialize.
  apply agree_bind with (R := eq); [apply agree_refl|intros _ _ _].
  apply agree_bind with (R := eq); [apply agree_refl|intros e ? <-].
  apply agree_bind with (R := eq); [apply agree_refl|intros c ? <-].
  apply agree_bind with (R := eq); [apply agree_refl|intros _ _ _].
  destruct (Z.of_nat (length sizes) =? 0); [done|].
  destruct (firstContiguousDim c =? 0).
  - apply agree_bind with (R := eq); [apply agree_refl|intros _ _ _].
    apply agree_bind with (R := eq); [apply agree_refl|intros d ? <-].
    simpl. unfold payload. simpl. now rewrite !chain_bytes_applySharingMode.
  - eapply agree_bind.
    + apply traverse_agree; [apply u64_range|done].
    + intros q1 q2 (Hq & H1 & H2). simpl in *.
      destruct (queue_move_cloneInto_bytes q1 H1) as [[E1 ->]|[N1 (b1 & -> & B1)]],
               (queue_move_cloneInto_bytes q2 H2) as [[E2 ->]|[N2 (b2 & -> & B2)]];
        simpl; try done; try congruence.
      unfold payload. simpl. congruence.
Qed.

Lemma sharing_transparency_witness :
  payloadOf (serialize debugBuild 4 [2; 4096] [0; 1] (bufferOf (replicate 4096 x00))
                       0 1 NATIVE SHARE_NONE)
  = payloadOf (serialize debugBuild 4 [2; 4096] [0; 1] (bufferOf (replicate 4096 x00))
                         0 1 NATIVE SHARE_ALL).
Proof.
  apply (sharing_transparency debugBuild 4 [2; 4096] [0; 1]
           (bufferOf (replicate 4096 x00)) 0 1 NATIVE SHARE_NONE SHARE_ALL).
  vm_compute. reflexivity.
Defined.

(** ** The traversal enumerates the leading dimensions in row-major order *)

Lemma drop_cons_inv {A : Type} (l : list A) (d : nat) (x : A) (l' : list A) :
  drop d l = x :: l' -> l !! d = Some x /\ drop (S d) l = l'.
Proof.
  revert d. induction l as [|y l IH]; intros [|d] H; simpl in *; try discriminate.
  - injection H as -> ->. split; [done|]. now rewrite drop_0.
  - now apply IH.
Qed.

Lemma lookup_take_inv {A : Type} (l : list A) (n d : nat) (x : A) :
  take n l !! d = Some x -> l !! d = Some x.
Proof. intros H. apply lookup_take_Some in H. tauto. Qed.

Lemma bind_assoc {A B C : Type} (m : outcome A) (f : A -> outcome B)
    (g : B -> outcome C) :
  (m ≫= f) ≫= g = m ≫= (fun a => f a ≫= g).
Proof. destruct m; reflexivity. Qed.

Lemma bind_ext {A B : Type} (m : outcome A) (f g : A -> outcome B) :
  (forall a, f a = g a) -> m ≫= f = m ≫= g.
Proof. intros H. destruct m; simpl; auto. Qed.

Lemma emitAll_app emit l1 l2 :
  emitAll emit (l1 ++ l2)
  = emitAll emit l1 ≫= fun q1 => emitAll emit l2 ≫= fun q2 => Done (q1 ++ q2).
Proof.
  induction l1 as [|x l1 IH]; simpl.
  - destruct (emitAll emit l2); reflexivity.
  - destruct (emit x); simpl; try reflexivity. rewrite IH.
    destruct (emitAll emit l1); simpl; try reflexivity.
    destruct (emitAll emit l2); reflexivity.
Qed.

Section Odometer.

Variable cfg : Build.
Variables sizes strides : list Z.
Variable data : IOBuf.
Variable elementSize : Z.
Variable L : nat.
Variable contiguousSize : Z.
Variable mayShare : bool.

Hypothesis contiguousSize_nonneg : 0 <= contiguousSize.
Hypothesis length_range : io_length data < 2 ^ 64.

Local Abbreviation run :=
  (loop cfg sizes strides data elementSize (Z.of_nat L) contiguousSize mayShare).
Local Abbreviation step1 :=
  (step cfg sizes strides data elementSize (Z.of_nat L) contiguousSize mayShare).
Local Abbreviation inBuffer := (runInBuffer data elementSize contiguousSize).
Local Abbreviation bytesAt := (runBytes (data_bytes data) elementSize contiguousSize).

(** The iteration that emits the run at element offset [e]. *)
Lemma step_emit o e :
  idx o = Z.of_nat L -> src o = u64 (e * elementSize) -> inBuffer e ->
  exists c, chunk_bytes c = bytesAt e /\
    step1 o = Done {| idx := Z.of_nat L - 1; src := src o; counter := counter o;
                      outQueue := outQueue o ++ [c] |}.
Proof.
  intros Hi Hs [Hlo Hhi]. unfold step. rewrite Hi, Z.eqb_refl.
  rewrite Hs, u64_small by lia.
  destruct (emitRun_inside cfg data contiguousSize mayShare (e * elementSize))
    as (c & -> & Hb); auto.
  exists c. split; [done|]. reflexivity.
Qed.

(** The iteration that advances the counter of dimension [d]. *)
Lemma step_advance o (d : nat) size stride cnt :
  (d < L)%nat -> idx o = Z.of_nat d ->
  strides !! d = Some stride -> sizes !! d = Some size ->
  counter o !! d = Some cnt ->
  step1 o =
    let src1 := add64 (src o) (mul64 (u64 stride) elementSize) in
    if add64 cnt 1 =? u64 size then
      Done {| idx := Z.of_nat d - 1;
              src := sub64 src1 (mul64 (u64 (size * stride)) elementSize);
              counter := <[d := 0]> (counter o);
              outQueue := outQueue o |}
    else
      Done {| idx := Z.of_nat L;
              src := src1;
              counter := <[d := add64 cnt 1]> (counter o);
              outQueue := outQueue o |}.
Proof.
  intros Hd Hi Hst Hsz Hc. unfold step. rewrite Hi.
  destruct (Z.eqb_spec (Z.of_nat d) (Z.of_nat L)); [lia|].
  rewrite (at_index_lookup _ _ _ Hst), (at_index_lookup _ _ _ Hsz),
    (at_index_lookup _ _ _ Hc). simpl. now rewrite Nat2Z.id.
Qed.

Lemma src_advance base i stride :
  add64 (u64 ((base + i * stride) * elementSize)) (mul64 (u64 stride) elementSize)
  = u64 ((base + (i + 1) * stride) * elementSize).
Proof.
  unfold add64, mul64. rewrite u64_mul_l, u64_add_l, u64_add_r.
  f_equal. ring.
Qed.

Lemma src_reset base size stride :
  sub64 (u64 ((base + size * stride) * elementSize))
        (mul64 (u64 (size * stride)) elementSize)
  = u64 (base * elementSize).
Proof.
  unfold sub64, mul64. rewrite u64_mul_l, u64_sub_l, u64_sub_r.
  f_equal. ring.
Qed.

(** From a state that is about to emit, with the counters of the
    dimensions [d ..] at zero and the source pointer at element offset
    [base], the loop emits the runs of the dimensions [d .. L) in row-major
    order and comes back to the same pointer and counters with
    [idx = d - 1], in [odometerSteps] iterations. *)
Lemma odometer_run ss : forall ts (d : nat) o base,
  length ts = length ss ->
  (d + length ss = L)%nat ->
  drop d (take L sizes) = ss -> drop d (take L strides) = ts ->
  Forall (fun s => 0 < s < 2 ^ 64) ss ->
  idx o = Z.of_nat L -> src o = u64 (base * elementSize) ->
  length (counter o) = L ->
  (forall j : nat, (d <= j < L)%nat -> counter o !! j = Some 0) ->
  (forall e, In e (rowMajor ss ts base) -> inBuffer e) ->
  exists q,
    queue_bytes q = flat_map bytesAt (rowMajor ss ts base) /\
    forall fuel,
      run (odometerSteps ss + fuel) o
      = run fuel {| idx := Z.of_nat d - 1; src := src o; counter := counter o;
                    outQueue := outQueue o ++ q |}.
Proof.
  induction ss as [|s ss IH]; intros ts d o base Hlen Hd Hss Hts Hpos Hi Hs Hcl Hz Hin.
  - (* no dimension left: one run *)
    simpl in Hd. assert (d = L) by lia. subst d.
    destruct (step_emit o base) as (c & Hc & Hstep); auto.
    { apply Hin. simpl. destruct ts; simpl; auto. }
    exists [c]. split.
    + unfold queue_bytes. simpl. destruct ts; simpl; now rewrite Hc.
    + intros fuel. simpl odometerSteps.
      change (1 + fuel)%nat with (S fuel).
      apply loop_step; [lia|done].
  - destruct ts as [|t ts]; [discriminate|].
    simpl in Hlen, Hd.
    apply drop_cons_inv in Hss as [Hsz Hss]. apply lookup_take_inv in Hsz.
    apply drop_cons_inv in Hts as [Hst Hts]. apply lookup_take_inv in Hst.
    apply Forall_cons in Hpos as [Hs0 Hpos].
    set (T := odometerSteps ss).
    assert (inner : forall (k : nat) i o,
      (1 <= k)%nat -> i + Z.of_nat k = s -> 0 <= i ->
      idx o = Z.of_nat L -> src o = u64 ((base + i * t) * elementSize) ->
      length (counter o) = L ->
      counter o !! d = Some i ->
      (forall j : nat, (d < j < L)%nat -> counter o !! j = Some 0) ->
      exists q,
        queue_bytes q =
          flat_map bytesAt
            (flat_map (fun i' => rowMajor ss ts (base + i' * t)) (seqZ i (Z.of_nat k))) /\
        forall fuel,
          run (k * (T + 1) + fuel) o
          = run fuel {| idx := Z.of_nat d - 1; src := u64 (base * elementSize);
                        counter := <[d := 0]> (counter o);
                        outQueue := outQueue o ++ q |}).
    { induction k as [|k IHk]; intros i o' Hk Hik Hi0 Hi' Hs' Hcl' Hcd Hz'; [lia|].
      (* the inner dimensions, from offset [base + i * t] *)
      assert (Hz1 : forall j : nat, (S d <= j < L)%nat -> counter o' !! j = Some 0)
        by (intros j Hj; apply Hz'; lia).
      assert (Hin1 : forall e, In e (rowMajor ss ts (base + i * t)) -> inBuffer e).
      { intros e He. apply Hin. simpl. apply in_flat_map.
        exists i. split; [|done].
        apply list_elem_of_In, elem_of_seqZ. lia. }
      destruct (IH ts (S d) o' (base + i * t) ltac:(lia) ltac:(lia)
                   Hss Hts Hpos Hi' Hs' Hcl' Hz1 Hin1) as (q1 & Hq1 & Hrun1).
      set (o1 := {| idx := Z.of_nat (S d) - 1; src := src o'; counter := counter o';
                    outQueue := outQueue o' ++ q1 |}) in *.
      assert (Hstep : step1 o1 = _) by
        (apply (step_advance o1 d s t i); auto; unfold o1; simpl; lia).
      simpl in Hstep.
      assert (Hcnt : add64 i 1 = i + 1) by (unfold add64; apply u64_small; lia).
      rewrite Hcnt, (u64_small s) in Hstep by lia.
      rewrite Hs', src_advance in Hstep.
      destruct (decide (k = 0%nat)) as [->|Hk0].
      - (* the last value of the counter: reset and carry *)
        assert (i + 1 = s) by lia.
        destruct (Z.eqb_spec (i + 1) s); [|lia].
        replace (i + 1) with s in Hstep by lia. rewrite src_reset in Hstep.
        exists q1. split.
        + rewrite seqZ_cons, seqZ_nil by lia. simpl. now rewrite app_nil_r.
        + intros fuel.
          replace (1 * (T + 1) + fuel)%nat with (T + S fuel)%nat by lia.
          rewrite Hrun1. apply loop_step; [unfold o1; simpl; lia|done].
      - (* move on to the next value *)
        destruct (Z.eqb_spec (i + 1) s); [lia|].
        set (o2 := {| idx := Z.of_nat L;
                      src := u64 ((base + (i + 1) * t) * elementSize);
                      counter := <[d := i + 1]> (counter o1);
                      outQueue := outQueue o1 |}) in *.
        assert (Hcl2 : length (counter o2) = L)
          by (unfold o2; simpl; now rewrite length_insert).
        assert (Hcd2 : counter o2 !! d = Some (i + 1))
          by (unfold o2; simpl; apply list_lookup_insert_eq; lia).
        assert (Hz2 : forall j : nat, (d < j < L)%nat -> counter o2 !! j = Some 0).
        { intros j Hj. unfold o2. simpl.
          rewrite list_lookup_insert_ne by lia. apply Hz'. lia. }
        destruct (IHk (i + 1) o2 ltac:(lia) ltac:(lia) ltac:(lia) eq_refl eq_refl
                      Hcl2 Hcd2 Hz2) as (q2 & Hq2 & Hrun2).
        exists (q1 ++ q2). split.
        + rewrite (seqZ_cons i) by lia.
          replace (Z.succ i) with (i + 1) by lia.
          replace (Z.pred (Z.of_nat (S k))) with (Z.of_nat k) by lia.
          simpl. now rewrite queue_bytes_app, flat_map_app, Hq1, Hq2.
        + intros fuel.
          replace (S k * (T + 1) + fuel)%nat
            with (T + S (k * (T + 1) + fuel))%nat by lia.
          rewrite Hrun1.
          rewrite (loop_step _ _ _ _ _ _ _ _ _ _ o2); [|unfold o1; simpl; lia|done].
          rewrite Hrun2. unfold o2, o1. simpl.
          now rewrite list_insert_insert_eq, app_assoc. }
    assert (Hs1 : src o = u64 ((base + 0 * t) * elementSize))
      by (rewrite Hs; f_equal; ring).
    assert (Hz1 : forall j : nat, (d < j < L)%nat -> counter o !! j = Some 0)
      by (intros j Hj; apply Hz; lia).
    destruct (inner (Z.to_nat s) 0 o ltac:(lia) ltac:(lia) ltac:(lia) Hi Hs1 Hcl
                    (Hz d ltac:(lia)) Hz1) as (q & Hq & Hrun).
    exists q. split.
    + simpl. rewrite Hq. now rewrite Z2Nat.id by lia.
    + intros fuel. simpl odometerSteps. fold T. rewrite Hrun.
      rewrite list_insert_id by (apply Hz; lia). now rewrite Hs.
Qed.

Local Abbreviation emit1 := (emitRun cfg data contiguousSize mayShare).
Local Abbreviation srcOf := (fun e : Z => u64 (e * elementSize)).

Lemma step_emit_eq o :
  idx o = Z.of_nat L ->
  step1 o = emit1 (src o) ≫= fun c =>
            Done {| idx := Z.of_nat L - 1; src := src o; counter := counter o;
                    outQueue := outQueue o ++ [c] |}.
Proof. intros Hi. unfold step. rewrite Hi, Z.eqb_refl. reflexivity. Qed.

(** The same traversal without any assumption on the buffer: the loop
    emits the runs of the dimensions [d .. L) in row-major order, and the
    first run that is not emitted ends it. *)
Lemma odometer_emits ss : forall ts (d : nat) o base,
  length ts = length ss ->
  (d + length ss = L)%nat ->
  drop d (take L sizes) = ss -> drop d (take L strides) = ts ->
  Forall (fun s => 0 < s < 2 ^ 64) ss ->
  idx o = Z.of_nat L -> src o = u64 (base * elementSize) ->
  length (counter o) = L ->
  (forall j : nat, (d <= j < L)%nat -> counter o !! j = Some 0) ->
  forall fuel,
    run (odometerSteps ss + fuel) o
    = emitAll emit1 (map srcOf (rowMajor ss ts base)) ≫= fun q =>
      run fuel {| idx := Z.of_nat d - 1; src := src o; counter := counter o;
                  outQueue := outQueue o ++ q |}.
Proof.
  induction ss as [|s ss IH]; intros ts d o base Hlen Hd Hss Hts Hpos Hi Hs Hcl Hz fuel.
  - (* no dimension left: one run *)
    simpl in Hd. assert (d = L) by lia. subst d.
    assert (Hr : rowMajor [] ts base = [base]) by (destruct ts; reflexivity).
    rewrite Hr. simpl odometerSteps. change (1 + fuel)%nat with (S fuel).
    rewrite loop_S by lia. rewrite (step_emit_eq o Hi). cbn [map emitAll].
    rewrite <- Hs. destruct (emit1 (src o)); reflexivity.
  - destruct ts as [|t ts]; [discriminate|].
    simpl in Hlen, Hd.
    apply drop_cons_inv in Hss as [Hsz Hss]. apply lookup_take_inv in Hsz.
    apply drop_cons_inv in Hts as [Hst Hts]. apply lookup_take_inv in Hst.
    apply Forall_cons in Hpos as [Hs0 Hpos].
    set (T := odometerSteps ss).
    assert (inner : forall (k : nat) i o,
      (1 <= k)%nat -> i + Z.of_nat k = s -> 0 <= i ->
      idx o = Z.of_nat L -> src o = u64 ((base + i * t) * elementSize) ->
      length (counter o) = L ->
      counter o !! d = Some i ->
      (forall j : nat, (d < j < L)%nat -> counter o !! j = Some 0) ->
      forall fuel,
        run (k * (T + 1) + fuel) o
        = emitAll emit1
            (map srcOf (flat_map (fun i' => rowMajor ss ts (base + i' * t))
                                 (seqZ i (Z.of_nat k)))) ≫= fun q =>
          run fuel {| idx := Z.of_nat d - 1; src := u64 (base * elementSize);
                      counter := <[d := 0]> (counter o);
                      outQueue := outQueue o ++ q |}).
    { induction k as [|k IHk]; intros i o' Hk Hik Hi0 Hi' Hs' Hcl' Hcd Hz' fuel';
        [lia|].
      assert (Hz1 : forall j : nat, (S d <= j < L)%nat -> counter o' !! j = Some 0)
        by (intros j Hj; apply Hz'; lia).
      pose proof (IH ts (S d) o' (base + i * t) ltac:(lia) ltac:(lia)
                     Hss Hts Hpos Hi' Hs' Hcl' Hz1) as Hrun1.
      assert (Hstep : forall q1,
        step1 {| idx := Z.of_nat (S d) - 1; src := src o'; counter := counter o';
                 outQueue := outQueue o' ++ q1 |}
        = if i + 1 =? s then
            Done {| idx := Z.of_nat d - 1;
                    src := u64 (base * elementSize);
                    counter := <[d := 0]> (counter o');
                    outQueue := outQueue o' ++ q1 |}
          else
            Done {| idx := Z.of_nat L;
                    src := u64 ((base + (i + 1) * t) * elementSize);
                    counter := <[d := i + 1]> (counter o');
                    outQueue := outQueue o' ++ q1 |}).
      { intros q1.
        rewrite (step_advance _ d s t i) by (auto; simpl; lia). simpl.
        assert (Hcnt : add64 i 1 = i + 1) by (unfold add64; apply u64_small; lia).
        rewrite Hcnt, (u64_small s) by lia. rewrite Hs', src_advance.
        destruct (Z.eqb_spec (i + 1) s) as [E|_]; [|reflexivity].
        rewrite <- E at 1. now rewrite E, src_reset. }
      rewrite (seqZ_cons i) by lia. cbn [flat_map].
      rewrite map_app, emitAll_app, bind_assoc.
      destruct (decide (k = 0%nat)) as [->|Hk0].
      - (* the last value of the counter: reset and carry *)
        assert (Hlast : i + 1 = s) by lia.
        replace (Z.pred (Z.of_nat 1)) with 0 by lia.
        rewrite seqZ_nil by lia. cbn [flat_map map emitAll].
        replace (1 * (T + 1) + fuel')%nat with (T + S fuel')%nat by lia.
        rewrite Hrun1. apply bind_ext. intros q1.
        rewrite !bind_Done, app_nil_r. rewrite loop_S by (simpl; lia).
        rewrite Hstep. destruct (Z.eqb_spec (i + 1) s); [reflexivity|lia].
      - (* move on to the next value *)
        replace (S k * (T + 1) + fuel')%nat
          with (T + S (k * (T + 1) + fuel'))%nat by lia.
        rewrite Hrun1. apply bind_ext. intros q1.
        rewrite loop_S by (simpl; lia). rewrite Hstep.
        destruct (Z.eqb_spec (i + 1) s); [lia|]. rewrite bind_Done.
        rewrite bind_assoc.
        replace (Z.succ i) with (i + 1) by lia.
        replace (Z.pred (Z.of_nat (S k))) with (Z.of_nat k) by lia.
        rewrite (IHk (i + 1)); simpl; auto; try lia.
        + apply bind_ext. intros q2. simpl.
          now rewrite list_insert_insert_eq, app_assoc.
        + now rewrite length_insert.
        + apply list_lookup_insert_eq. lia.
        + intros j Hj. rewrite list_lookup_insert_ne by lia. apply Hz'. lia. }
    assert (Hs1 : src o = u64 ((base + 0 * t) * elementSize))
      by (rewrite Hs; f_equal; ring).
    assert (Hz1 : forall j : nat, (d < j < L)%nat -> counter o !! j = Some 0)
      by (intros j Hj; apply Hz; lia).
    simpl odometerSteps. fold T.
    rewrite (inner (Z.to_nat s) 0 o ltac:(lia) ltac:(lia) ltac:(lia) Hi Hs1 Hcl
                   (Hz d ltac:(lia)) Hz1).
    simpl rowMajor. rewrite Z2Nat.id by lia.
    apply bind_ext. intros q.
    rewrite list_insert_id by (apply Hz; lia). now rewrite Hs.
Qed.

End Odometer.

(** ** Row-major order *)

Lemma rowMajor_nil_strides strides base : rowMajor [] strides base = [base].
Proof. now destruct strides. Qed.

Lemma rowMajor_app sizes1 : forall strides1 sizes2 strides2 base,
  length strides1 = length sizes1 ->
  rowMajor (sizes1 ++ sizes2) (strides1 ++ strides2) base
  = flat_map (rowMajor sizes2 strides2) (rowMajor sizes1 strides1 base).
Proof.
  induction sizes1 as [|s sizes1 IH]; intros [|t strides1] sizes2 strides2 base Hlen;
    try discriminate; simpl.
  - now rewrite app_nil_r.
  - induction (seqZ 0 s) as [|i l IHl]; simpl; [done|].
    rewrite flat_map_app, IHl, IH by (simpl in Hlen; lia). done.
Qed.

(** Blocks of [n] consecutive offsets laid side by side. *)
Lemma flat_map_seqZ_blocks base n (k : nat) :
  0 <= n ->
  flat_map (fun i => seqZ (base + i * n) n) (seqZ 0 (Z.of_nat k))
  = seqZ base (Z.of_nat k * n).
Proof.
  intros Hn. induction k as [|k IH].
  - simpl. now rewrite !seqZ_nil by lia.
  - replace (Z.of_nat (S k) * n) with (Z.of_nat k * n + n) by lia.
    rewrite (seqZ_app base) by nia.
    replace (Z.of_nat (S k)) with (Z.of_nat k + 1) by lia.
    rewrite seqZ_app by lia. rewrite flat_map_app, IH. f_equal.
    rewrite seqZ_cons by lia. rewrite seqZ_nil by lia.
    cbn [flat_map]. rewrite app_nil_r. f_equal; lia.
Qed.

(** The offsets of a view laid out row-major are consecutive. *)
Lemma rowMajor_consecutive sizes : forall strides base,
  Forall (fun s => 0 < s) sizes -> rowMajorLike sizes strides ->
  rowMajor sizes strides base = seqZ base (prodZ sizes).
Proof.
  induction sizes as [|s sizes IH]; intros strides base Hpos Hlike.
  - rewrite rowMajor_nil_strides. change (prodZ []) with 1.
    rewrite seqZ_cons by lia. now rewrite seqZ_nil by lia.
  - destruct strides as [|t strides]; [done|].
    apply Forall_cons in Hpos as [Hs Hpos]. destruct Hlike as [Ht Hlike].
    pose proof (prodZ_pos sizes Hpos) as HP.
    simpl rowMajor. change (prodZ (s :: sizes)) with (s * prodZ sizes).
    destruct Ht as [-> | ->].
    + rewrite seqZ_cons, seqZ_nil by lia. simpl.
      rewrite app_nil_r, IH by done. f_equal; lia.
    + rewrite <- (Z2Nat.id s) by lia.
      rewrite <- flat_map_seqZ_blocks by lia.
      apply flat_map_ext. intros i. now apply IH.
Qed.

Lemma rowMajorLike_implicit sizes : rowMajorLike sizes (rowMajorStrides sizes).
Proof. induction sizes as [|s sizes IH]; simpl; auto. Qed.

(** The bytes of consecutive elements are one range of the buffer. *)
Lemma consecutive_elementBytes (bs : list byte) elementSize (n : nat) : forall e,
  0 <= e -> 0 <= elementSize ->
  flat_map (elementBytes bs elementSize) (seqZ e (Z.of_nat n))
  = take (Z.to_nat (Z.of_nat n * elementSize)) (drop (Z.to_nat (e * elementSize)) bs).
Proof.
  induction n as [|n IH]; intros e He Hes.
  - rewrite seqZ_nil by lia. reflexivity.
  - rewrite seqZ_cons by lia. cbn [flat_map].
    replace (Z.pred (Z.of_nat (S n))) with (Z.of_nat n) by lia.
    rewrite IH by lia. unfold elementBytes.
    replace (Z.to_nat (Z.succ e * elementSize))
      with (Z.to_nat (e * elementSize) + Z.to_nat elementSize)%nat by nia.
    rewrite <- drop_drop, take_take_drop. f_equal. nia.
Qed.

(** ** Views whose elements lie inside the buffer *)

Lemma odometerSteps_pos sizes :
  Forall (fun s => 0 < s) sizes -> (1 <= odometerSteps sizes)%nat.
Proof. induction 1 as [|s sizes Hs _ IH]; simpl; nia. Qed.

Lemma odometerSteps_take sizes : forall f : nat,
  Forall (fun s => 0 < s) sizes ->
  (odometerSteps (take f sizes) <= odometerSteps sizes)%nat.
Proof.
  induction sizes as [|s sizes IH]; intros [|f] Hpos; simpl; try lia.
  - apply (odometerSteps_pos (s :: sizes) Hpos).
  - apply Forall_cons in Hpos as [Hs Hpos]. specialize (IH f Hpos). nia.
Qed.

Lemma prodZ_take_drop sizes (f : nat) :
  prodZ sizes = prodZ (take f sizes) * prodZ (drop f sizes).
Proof. now rewrite <- prodZ_app, take_drop. Qed.

Lemma prodZ_drop_le sizes (f : nat) :
  Forall (fun s => 0 < s) sizes -> 0 < prodZ (drop f sizes) <= prodZ sizes.
Proof.
  intros Hpos.
  pose proof (prodZ_pos (take f sizes) (Forall_take _ f _ Hpos)).
  pose proof (prodZ_pos (drop f sizes) (Forall_drop _ f _ Hpos)).
  rewrite (prodZ_take_drop sizes f). nia.
Qed.

Lemma length_rowMajorStrides sizes : length (rowMajorStrides sizes) = length sizes.
Proof. induction sizes; simpl; auto. Qed.

(** With sizes whose product fits 64 bits, a stride that equals the
    expected value in the arithmetic of the code is the number of elements
    inside its dimension, unless the dimension has a single index. *)
Lemma absorbed_rowMajorLike sizes strides :
  length strides = length sizes ->
  Forall (fun s => 0 < s) sizes -> prodZ sizes < 2 ^ 64 ->
  Forall (fun t => - 2 ^ 63 <= t < 2 ^ 63) strides ->
  forall (n f : nat), (length sizes - f = n)%nat ->
  (forall (j : nat) stride, (f <= j)%nat -> strides !! j = Some stride ->
     u64 stride = u64 (prodZ (drop (S j) sizes))) ->
  rowMajorLike (drop f sizes) (drop f strides).
Proof.
  intros Hlen Hpos Hprod Hlong. induction n as [|n IH]; intros f Hn Habs.
  - rewrite drop_ge by lia. done.
  - destruct (lookup_lt_is_Some_2 strides f) as [t Ht]; [lia|].
    destruct (lookup_lt_is_Some_2 sizes f) as [s Hs]; [lia|].
    rewrite (drop_lookup_cons _ _ _ Ht), (drop_lookup_cons _ _ _ Hs). simpl.
    split.
    + destruct (decide (s = 1)) as [|Hs1]; [auto|right].
      pose proof (prodZ_drop_le sizes f Hpos) as Hf.
      pose proof (prodZ_drop_le sizes (S f) Hpos) as HSf.
      rewrite (prodZ_drop _ _ _ Hs) in Hf.
      assert (0 < s).
      { apply (Forall_lookup_1 _ _ _ _ Hpos Hs). }
      assert (- 2 ^ 63 <= t < 2 ^ 63).
      { apply (Forall_lookup_1 _ _ _ _ Hlong Ht). }
      apply u64_inj_window; [now apply (Habs f)|]. nia.
    + apply IH; [lia|]. intros j stride Hj. apply Habs. lia.
Qed.

Lemma flat_map_nested {A B C : Type} (f : B -> list C) (g : A -> list B) l :
  flat_map f (flat_map g l) = flat_map (fun x => flat_map f (g x)) l.
Proof.
  induction l as [|x l IH]; simpl; [done|]. now rewrite flat_map_app, IH.
Qed.

Lemma flat_map_ext_in {A B : Type} (f g : A -> list B) l :
  (forall x, In x l -> f x = g x) -> flat_map f l = flat_map g l.
Proof.
  induction l as [|x l IH]; simpl; intros H; [done|].
  rewrite H by auto. f_equal. apply IH. auto.
Qed.

Lemma rowMajor_nonempty sizes : forall strides base,
  length strides = length sizes -> Forall (fun s => 0 < s) sizes ->
  exists e, In e (rowMajor sizes strides base).
Proof.
  induction sizes as [|s sizes IH]; intros [|t strides] base Hlen Hpos;
    try discriminate; simpl.
  - eauto.
  - apply Forall_cons in Hpos as [Hs Hpos].
    destruct (IH strides (base + 0 * t)) as [e He]; [simpl in Hlen; lia|done|].
    exists e. apply in_flat_map. exists 0. split; [|done].
    apply list_elem_of_In, elem_of_seqZ. lia.
Qed.

(** A view whose dimensions from [f] on are laid out row-major is a
    sequence of runs of [prodZ (drop f sizes)] elements, one for each index
    combination of the leading dimensions: the runs lie inside the buffer
    when the elements do, and their bytes are the bytes of the elements. *)
Lemma leading_runs sizes strides (f : nat) data elementSize :
  length strides = length sizes ->
  Forall (fun s => 0 < s) sizes ->
  rowMajorLike (drop f sizes) (drop f strides) ->
  0 < elementSize ->
  Forall (fun e => 0 <= e /\ (e + 1) * elementSize <= io_length data)
         (rowMajor sizes strides 0) ->
  let cs := prodZ (drop f sizes) * elementSize in
  (forall e, In e (rowMajor (take f sizes) (take f strides) 0) ->
     0 <= e /\ runInBuffer data elementSize cs e) /\
  flat_map (runBytes (data_bytes data) elementSize cs)
           (rowMajor (take f sizes) (take f strides) 0)
  = flat_map (elementBytes (data_bytes data) elementSize) (rowMajor sizes strides 0).
Proof.
  intros Hlen Hpos Hlike Hes Hin cs.
  pose proof (prodZ_drop_le sizes f Hpos) as HP.
  assert (Hall : rowMajor sizes strides 0
                 = flat_map (fun e => seqZ e (prodZ (drop f sizes)))
                            (rowMajor (take f sizes) (take f strides) 0)).
  { rewrite <- (take_drop f sizes) at 1. rewrite <- (take_drop f strides) at 1.
    rewrite rowMajor_app by (rewrite !length_take; lia).
    apply flat_map_ext. intros e.
    apply rowMajor_consecutive; [now apply Forall_drop|done]. }
  assert (Hruns : forall e, In e (rowMajor (take f sizes) (take f strides) 0) ->
                  0 <= e /\ runInBuffer data elementSize cs e).
  { intros e He. rewrite Forall_forall in Hin.
    assert (H1 : In e (rowMajor sizes strides 0)).
    { rewrite Hall. apply in_flat_map. exists e. split; [done|].
      apply list_elem_of_In, elem_of_seqZ. lia. }
    assert (H2 : In (e + prodZ (drop f sizes) - 1) (rowMajor sizes strides 0)).
    { rewrite Hall. apply in_flat_map. exists e. split; [done|].
      apply list_elem_of_In, elem_of_seqZ. lia. }
    apply list_elem_of_In, Hin in H1. apply list_elem_of_In, Hin in H2.
    unfold runInBuffer, cs. nia. }
  split; [done|].
  rewrite Hall, flat_map_nested. apply flat_map_ext_in. intros e He.
  destruct (Hruns e He) as [He0 _].
  symmetry. rewrite <- (Z2Nat.id (prodZ (drop f sizes))) by lia.
  rewrite consecutive_elementBytes by lia.
  unfold runBytes, cs. now rewrite Z2Nat.id by lia.
Qed.

(** ** The payload is the row-major flattening of the view *)

Lemma DCHECK_true cfg : DCHECK cfg true = Done tt.
Proof. unfold DCHECK, CHECK. now destruct (dchecks cfg). Qed.

Lemma resolveEndianness_native cfg endianness :
  endianness = NATIVE \/ endianness = gMachineEndianness cfg ->
  resolveEndianness cfg endianness = Done (gMachineEndianness cfg).
Proof.
  intros [-> | ->]; [done|]. unfold resolveEndianness, gMachineEndianness.
  now destruct (littleEndianHost cfg).
Qed.

Lemma view_analysis cfg sizes strides :
  (strides = [] \/ length strides = length sizes) ->
  Forall (fun s => 0 < s) sizes ->
  Forall (fun t => - 2 ^ 63 <= t < 2 ^ 63) strides ->
  prodZ sizes < 2 ^ 64 ->
  exists f : nat,
    analyze cfg sizes strides =
      Done {| firstContiguousDim := Z.of_nat f;
              contiguousSize := prodZ (drop f sizes);
              dataSize := prodZ sizes |} /\
    (f <= length sizes)%nat /\
    (strides = [] -> f = 0%nat) /\
    length (effectiveStrides sizes strides) = length sizes /\
    rowMajorLike (drop f sizes) (drop f (effectiveStrides sizes strides)).
Proof.
  intros Hlen Hpos Hlong Hprod.
  pose proof (prodZ_pos sizes Hpos) as HP.
  destruct strides as [|t0 strides'] eqn:E.
  - exists 0%nat. rewrite analyze_implicit, u64_small by lia.
    rewrite drop_0. simpl. repeat split; auto; try lia.
    + apply length_rowMajorStrides.
    + apply rowMajorLike_implicit.
  - destruct Hlen as [|Hlen]; [done|]. rewrite <- E in *.
    destruct (analyze_strided cfg sizes strides)
      as (c & f & Han & Hfcd & Hf & Habs & _ & Hcs & Hds);
      [now rewrite E|done|].
    exists f. pose proof (prodZ_drop_le sizes f Hpos) as Hdrop.
    rewrite u64_small in Hcs by lia.
    rewrite Hcs, <- prodZ_take_drop, u64_small in Hds by lia.
    replace (effectiveStrides sizes strides) with strides by now rewrite E.
    repeat split; auto.
    + rewrite Han. destruct c. simpl in *. now subst.
    + now rewrite E.
    + eapply absorbed_rowMajorLike; eauto.
Qed.

(** The general path on a view whose [f] leading dimensions have positive
    sizes and whose runs lie inside the buffer. *)
Lemma traverse_row_major cfg fuel sizes strides data elementSize sharing
    (f : nat) cs :
  (f <= length sizes)%nat -> (f <= length strides)%nat ->
  Forall (fun s => 0 < s < 2 ^ 64) (take f sizes) ->
  0 <= cs -> io_length data < 2 ^ 64 ->
  (forall e, In e (rowMajor (take f sizes) (take f strides) 0) ->
     runInBuffer data elementSize cs e) ->
  (odometerSteps (take f sizes) <= fuel)%nat ->
  exists q,
    traverse cfg fuel sizes strides data elementSize sharing (Z.of_nat f) cs = Done q /\
    queue_bytes q = flat_map (runBytes (data_bytes data) elementSize cs)
                             (rowMajor (take f sizes) (take f strides) 0).
Proof.
  intros Hf1 Hf2 Hpos Hcs Hlen Hin Hfuel. unfold traverse.
  set (o0 := {| idx := Z.of_nat f; src := 0;
                counter := replicate (Z.to_nat (Z.of_nat f)) 0; outQueue := [] |}).
  destruct (odometer_run cfg sizes strides data elementSize f cs
              (mayShareOf sharing data) Hcs Hlen
              (take f sizes) (take f strides) 0%nat o0 0) as (q & Hq & Hrun);
    auto.
  - rewrite !length_take. lia.
  - rewrite length_take. lia.
  - unfold o0. simpl. now rewrite length_replicate, Nat2Z.id.
  - intros j Hj. unfold o0. simpl. rewrite Nat2Z.id.
    apply lookup_replicate_2. lia.
  - exists q. split; [|done].
    replace fuel with (odometerSteps (take f sizes)
                       + (fuel - odometerSteps (take f sizes)))%nat by lia.
    rewrite Hrun, loop_finished by (simpl; lia). reflexivity.
Qed.

(** ** Aliased and copied runs *)

(** The clone of a run inside the buffer, as a value. *)
Lemma partialCloneOne_eq cfg buf off n :
  0 <= off -> 0 <= n -> off + n <= io_length buf -> io_length buf < 2 ^ 64 ->
  partialCloneOne cfg buf off n
  = Done {| io_head := with_bytes (io_head buf)
                         (take (Z.to_nat n) (drop (Z.to_nat off) (data_bytes buf)));
            io_rest := [] |}.
Proof.
  intros Hoff Hn Hin Hlen. unfold partialCloneOne.
  assert (Hd : DCHECK cfg (add64 off n <=? io_length buf) = Done tt).
  { unfold add64. rewrite u64_small by lia.
    replace (off + n <=? io_length buf) with true
      by (symmetry; now apply Z.leb_le).
    apply DCHECK_true. }
  rewrite Hd, bind_Done. cbv zeta.
  unfold trimStart. change (io_length (cloneOne buf)) with (io_length buf).
  replace (off <=? io_length buf) with true by (symmetry; apply Z.leb_le; lia).
  rewrite bind_Done. unfold trimEnd.
  set (c1 := {| io_head := _ |}).
  assert (Hl1 : io_length c1 = io_length buf - off).
  { unfold c1, io_length, data_bytes. simpl. rewrite length_drop.
    unfold io_length, data_bytes in *. lia. }
  rewrite Hl1. unfold sub64. rewrite u64_small by lia.
  replace (io_length buf - off - n <=? io_length buf - off) with true
    by (symmetry; apply Z.leb_le; lia).
  unfold c1, with_bytes, data_bytes. simpl. do 5 f_equal. lia.
Qed.

(** What is emitted for a run inside the buffer: its alias or its copy. *)
Lemma emitRun_exact cfg data cs mayShare src :
  0 <= src -> 0 <= cs -> src + cs <= io_length data -> io_length data < 2 ^ 64 ->
  emitRun cfg data cs mayShare src
  = Done (runChunk data (mayShare && (kMinCloneSize <=? cs)) cs src).
Proof.
  intros Hs Hc Hin Hlen. unfold emitRun, runChunk, aliasOf, bytesOfRun.
  destruct (mayShare && (kMinCloneSize <=? cs)).
  - now rewrite partialCloneOne_eq by auto.
  - now rewrite read_bytes_Done by auto.
Qed.

Lemma emitAll_inside cfg data cs mayShare srcs :
  0 <= cs -> io_length data < 2 ^ 64 ->
  Forall (fun src => 0 <= src /\ src + cs <= io_length data) srcs ->
  emitAll (emitRun cfg data cs mayShare) srcs
  = Done (map (runChunk data (mayShare && (kMinCloneSize <=? cs)) cs) srcs).
Proof.
  intros Hc Hlen. induction 1 as [|src srcs [Hlo Hhi] _ IH]; [reflexivity|].
  cbn [emitAll map]. now rewrite emitRun_exact, bind_Done, IH by auto.
Qed.

(** With enough iterations the traversal is the sequence of its runs, in
    row-major order of the indices of the leading dimensions. *)
Lemma traverse_emits cfg fuel sizes strides data elementSize sharing
    (f : nat) cs :
  (f <= length sizes)%nat -> (f <= length strides)%nat ->
  Forall (fun s => 0 < s < 2 ^ 64) (take f sizes) ->
  (odometerSteps (take f sizes) <= fuel)%nat ->
  traverse cfg fuel sizes strides data elementSize sharing (Z.of_nat f) cs
  = emitAll (emitRun cfg data cs (mayShareOf sharing data))
            (map (fun e => u64 (e * elementSize))
                 (rowMajor (take f sizes) (take f strides) 0)).
Proof.
  intros Hf1 Hf2 Hpos Hfuel. unfold traverse. cbv zeta.
  set (o0 := {| idx := Z.of_nat f; src := 0;
                counter := replicate (Z.to_nat (Z.of_nat f)) 0; outQueue := [] |}).
  replace fuel with (odometerSteps (take f sizes)
                     + (fuel - odometerSteps (take f sizes)))%nat by lia.
  rewrite (odometer_emits cfg sizes strides data elementSize f cs
             (mayShareOf sharing data) (take f sizes) (take f strides) 0%nat o0 0).
  - rewrite bind_assoc.
    rewrite <- (bind_ext _ (fun q => Done q)).
    + destruct (emitAll _ _); reflexivity.
    + intros q. rewrite loop_finished by (simpl; lia). reflexivity.
  - rewrite !length_take. lia.
  - rewrite length_take. lia.
  - reflexivity.
  - reflexivity.
  - exact Hpos.
  - reflexivity.
  - reflexivity.
  - unfold o0. simpl. now rewrite length_replicate, Nat2Z.id.
  - intros j Hj. unfold o0. simpl. rewrite Nat2Z.id.
    apply lookup_replicate_2. lia.
Qed.

(** The queue of a traversal whose runs lie inside the buffer. *)
Lemma traverse_runChunks cfg fuel sizes strides data elementSize sharing
    (f : nat) cs :
  (f <= length sizes)%nat -> (f <= length strides)%nat ->
  Forall (fun s => 0 < s < 2 ^ 64) (take f sizes) ->
  0 <= cs -> io_length data < 2 ^ 64 ->
  (forall e, In e (rowMajor (take f sizes) (take f strides) 0) ->
     runInBuffer data elementSize cs e) ->
  (odometerSteps (take f sizes) <= fuel)%nat ->
  traverse cfg fuel sizes strides data elementSize sharing (Z.of_nat f) cs
  = Done (map (fun e => runChunk data
                          (mayShareOf sharing data && (kMinCloneSize <=? cs))
                          cs (e * elementSize))
              (rowMajor (take f sizes) (take f strides) 0)).
Proof.
  intros Hf1 Hf2 Hpos Hcs Hlen Hin Hfuel.
  rewrite traverse_emits by auto.
  rewrite emitAll_inside; auto.
  - rewrite map_map. f_equal. apply map_ext_in. intros e He.
    destruct (Hin e He) as [Hlo Hhi]. now rewrite u64_small by lia.
  - apply Forall_forall. intros src Hsrc.
    apply list_elem_of_In, in_map_iff in Hsrc as (e & <- & He).
    destruct (Hin e He) as [Hlo Hhi]. rewrite u64_small by lia. lia.
Qed.

(** C4, as amended.  In the general path the decision between alias and
    copy is the same for every run: a run is aliased if and only if the
    sharing mode permits it and the run has at least [kMinCloneSize] = 4096
    bytes, never under [SHARE_NONE], under [SHARE_IOBUF_MANAGED] only when
    the source buffer is managed ([data.isManagedOne()]), under [SHARE_ALL]
    whenever the length allows.  For a run inside the source buffer the
    alias is one IOBuf over the allocation of the source that holds the
    bytes of the run, and a run that is not aliased is copied: its bytes
    are pushed.  So the queue of a view whose runs lie inside the buffer
    holds, run by run in row-major order, the aliases or the copies; a run
    of 4095 bytes is copied in every mode and a run of 4096 bytes is
    aliased under [SHARE_ALL]. *)
Theorem alias_iff_permitted_and_large
    (cfg : Build) (fuel : nat) (sizes strides : list Z) (data : IOBuf)
    (elementSize : Z) (sharing : SharingMode) (f : nat) (contiguousSize : Z) :
  kMinCloneSize = 4096 /\
  (mayShareOf sharing data && (kMinCloneSize <=? contiguousSize) = true <->
   (sharing = SHARE_ALL \/
    (sharing = SHARE_IOBUF_MANAGED /\ isManagedOne data = true)) /\
   4096 <= contiguousSize) /\
  (forall q,
     traverse cfg fuel sizes strides data elementSize sharing (Z.of_nat f)
              contiguousSize = Done q ->
     Forall (fun c =>
               (isInserted c = true <->
                (sharing = SHARE_ALL \/
                 (sharing = SHARE_IOBUF_MANAGED /\ isManagedOne data = true)) /\
                4096 <= contiguousSize) /\
               (isInserted c = false <-> exists bs, c = Pushed bs)) q) /\
  (forall src,
     0 <= src -> 0 <= contiguousSize ->
     src + contiguousSize <= io_length data -> io_length data < 2 ^ 64 ->
     emitRun cfg data contiguousSize (mayShareOf sharing data) src
     = Done (if mayShareOf sharing data && (kMinCloneSize <=? contiguousSize)
             then Inserted (aliasOf data src contiguousSize)
             else Pushed (bytesOfRun data src contiguousSize)) /\
     seg_buffer (io_head (aliasOf data src contiguousSize))
     = seg_buffer (io_head data) /\
     isChained (aliasOf data src contiguousSize) = false /\
     chain_bytes (aliasOf data src contiguousSize)
     = take (Z.to_nat contiguousSize) (drop (Z.to_nat src) (data_bytes data))) /\
  ((f <= length sizes)%nat -> (f <= length strides)%nat ->
   Forall (fun s => 0 < s < 2 ^ 64) (take f sizes) ->
   0 <= contiguousSize -> io_length data < 2 ^ 64 ->
   (forall e, In e (rowMajor (take f sizes) (take f strides) 0) ->
      runInBuffer data elementSize contiguousSize e) ->
   (odometerSteps (take f sizes) <= fuel)%nat ->
   traverse cfg fuel sizes strides data elementSize sharing (Z.of_nat f)
            contiguousSize
   = Done (map (fun e =>
                  runChunk data
                    (mayShareOf sharing data && (kMinCloneSize <=? contiguousSize))
                    contiguousSize (e * elementSize))
               (rowMajor (take f sizes) (take f strides) 0))).
Proof.
  split; [reflexivity|]. split; [|split; [|split]].
  - change kMinCloneSize with 4096.
    destruct (Z.leb_spec 4096 contiguousSize); destruct sharing; simpl;
      destruct (isManagedOne data); simpl; intuition (try discriminate; try lia).
  - intros q. apply traverse_decision.
  - intros src Hs Hc Hin Hlen. split; [|split; [|split]].
    + now rewrite emitRun_exact by auto.
    + reflexivity.
    + reflexivity.
    + unfold aliasOf. now rewrite chain_bytes_single.
  - apply traverse_runChunks.
Qed.

(** Two runs of 4096 bytes, both over the whole buffer (shape [2,4096],
    strides [0,1]): under [SHARE_ALL] both are aliases of the buffer, under
    [SHARE_NONE] both are copies; with runs of one byte less the traversal
    copies under [SHARE_ALL] too. *)
Lemma alias_iff_permitted_and_large_witness :
  traverse debugBuild 4 [2; 4096] [0; 1] (bufferOf (replicate 4096 x00)) 1
           SHARE_ALL (Z.of_nat 1) 4096
  = Done (map (fun e =>
                 runChunk (bufferOf (replicate 4096 x00))
                   (mayShareOf SHARE_ALL (bufferOf (replicate 4096 x00))
                    && (kMinCloneSize <=? 4096))
                   4096 (e * 1))
              (rowMajor (take 1 [2; 4096]) (take 1 [0; 1]) 0)) /\
  (mayShareOf SHARE_ALL (bufferOf (replicate 4096 x00)) && (kMinCloneSize <=? 4095)
   = true <->
   (SHARE_ALL = SHARE_ALL \/
    (SHARE_ALL = SHARE_IOBUF_MANAGED /\
     isManagedOne (bufferOf (replicate 4096 x00)) = true)) /\
   4096 <= 4095).
Proof.
  split.
  - apply (proj2 (proj2 (proj2 (proj2
      (alias_iff_permitted_and_large debugBuild 4 [2; 4096] [0; 1]
         (bufferOf (replicate 4096 x00)) 1 SHARE_ALL 1 4096))))).
    + simpl. lia.
    + simpl. lia.
    + repeat constructor; vm_compute; congruence.
    + lia.
    + vm_compute. reflexivity.
    + intros e He. vm_compute in He. unfold runInBuffer.
      change (io_length (bufferOf (replicate 4096 x00))) with 4096.
      repeat (destruct He as [<- | He]; [lia|]). destruct He.
    + vm_compute. lia.
  - apply (proj1 (proj2
      (alias_iff_permitted_and_large debugBuild 4 [2; 4096] [0; 1]
         (bufferOf (replicate 4096 x00)) 1 SHARE_ALL 1 4095))).
Defined.

(** C4 as stated fails for [SHARE_IOBUF_MANAGED]: the code asks whether
    the source buffer is managed, not whether it is exclusively owned.  A
    managed buffer of which the caller holds a clone is not exclusively
    owned, and its runs of 4096 bytes are aliased all the same. *)
Lemma managed_shared_buffer_is_aliased :
  isManagedOne (bufferOf (replicate 4096 x00)) = true /\
  ~ specExclusivelyOwned (bufferOf (replicate 4096 x00))
      [cloneOne (bufferOf (replicate 4096 x00))] /\
  traverse debugBuild 4 [2; 4096] [0; 1] (bufferOf (replicate 4096 x00)) 1
           SHARE_IOBUF_MANAGED 1 4096
  = Done [Inserted (aliasOf (bufferOf (replicate 4096 x00)) 0 4096);
          Inserted (aliasOf (bufferOf (replicate 4096 x00)) 0 4096)].
Proof.
  split; [reflexivity|]. split.
  - intros [_ H]. apply Forall_cons in H as [H _]. apply H.
    split; [discriminate|]. constructor. reflexivity.
  - vm_compute. reflexivity.
Qed.

Lemma sizes_bounded sizes bound :
  Forall (fun s => 0 < s) sizes -> prodZ sizes < bound ->
  Forall (fun s => 0 < s < bound) sizes.
Proof.
  induction 1 as [|s sizes Hs Hpos IH]; intros Hb; constructor.
  - pose proof (prodZ_pos sizes Hpos). change (s * prodZ sizes < bound) in Hb. nia.
  - apply IH. pose proof (prodZ_pos sizes Hpos).
    change (s * prodZ sizes < bound) in Hb. nia.
Qed.

Lemma trimEnd_to b n :
  0 <= n <= io_length b -> io_length b < 2 ^ 64 ->
  trimEnd (sub64 (io_length b) n) b =
    Done {| io_head := with_bytes (io_head b) (take (Z.to_nat n) (data_bytes b));
            io_rest := io_rest b |}.
Proof.
  intros Hn Hlen. unfold trimEnd, sub64. rewrite u64_small by lia.
  destruct (Z.leb_spec (io_length b - n) (io_length b)); [|lia].
  do 4 f_equal. lia.
Qed.

Lemma queue_move_cloneInto_Done q :
  queue_bytes q <> [] ->
  exists b, queue_move_cloneInto q = Done b /\ chain_bytes b = queue_bytes q.
Proof.
  intros Hne. unfold queue_move_cloneInto.
  destruct (queue_segments q) as [|s rest] eqn:E.
  - exfalso. apply Hne. now rewrite <- queue_segments_bytes, E.
  - eexists. split; [done|]. now rewrite <- queue_segments_bytes, E.
Qed.

Lemma flat_map_nonempty {A B : Type} (f : A -> list B) l x :
  In x l -> f x <> [] -> flat_map f l <> [].
Proof.
  induction l as [|y l IH]; simpl; [done|]. intros [->|Hx] Hfx H;
    apply app_eq_nil in H as [H1 H2]; auto.
  now apply IH.
Qed.

Lemma deserialize_same dtype e sizes d :
  deserialize {| dataType := dtype; endianness := e; sizes := sizes; data := d |}
              dtype = Done d.
Proof. unfold deserialize, CHECK. simpl. now rewrite Z.eqb_refl. Qed.

(** Serialization of a view with positive sizes whose elements lie inside
    a single unchained buffer: the call returns, and the payload is the
    row-major flattening of the logical elements. *)
Lemma serialize_view cfg fuel sizes strides data dtype elementSize endianness sharing :
  isChained data = false ->
  io_length data < 2 ^ 64 ->
  endianness = NATIVE \/ endianness = gMachineEndianness cfg ->
  strides = [] \/ length strides = length sizes ->
  Forall (fun s => 0 < s) sizes ->
  Forall (fun t => - 2 ^ 63 <= t < 2 ^ 63) strides ->
  0 < elementSize -> prodZ sizes * elementSize < 2 ^ 64 ->
  viewInBuffer sizes strides elementSize (io_length data) ->
  (odometerSteps sizes <= fuel)%nat ->
  exists d data',
    serialize cfg fuel sizes strides data dtype elementSize endianness sharing
    = Done ({| dataType := dtype; endianness := gMachineEndianness cfg;
               sizes := sizes; data := d |}, data') /\
    chain_bytes d = logicalBytes sizes strides (data_bytes data) elementSize.
Proof.
  intros Hch Hlen Hend Hsl Hpos Hlong Hes Hprod Hview Hfuel.
  pose proof (prodZ_pos sizes Hpos) as HP0.
  assert (HP : prodZ sizes < 2 ^ 64) by nia.
  destruct (view_analysis cfg sizes strides Hsl Hpos Hlong HP)
    as (f & Han & Hf & Hf0 & Hlen' & Hlike).
  pose proof (prodZ_drop_le sizes f Hpos) as Hdrop.
  unfold serialize. rewrite Hch. cbn [negb].
  rewrite DCHECK_true, bind_Done, (resolveEndianness_native _ _ Hend), bind_Done.
  rewrite Han, bind_Done. cbn [firstContiguousDim contiguousSize dataSize].
  unfold mul64. rewrite !u64_small by nia.
  replace (prodZ (drop f sizes) * elementSize <=? prodZ sizes * elementSize)
    with true by (symmetry; apply Z.leb_le; nia).
  rewrite DCHECK_true, bind_Done.
  destruct (Z.eqb_spec (Z.of_nat (length sizes)) 0) as [Hnd|Hnd].
  { (* no dimension *)
    destruct sizes; [|simpl in Hnd; lia].
    eexists _, _. split; [reflexivity|]. reflexivity. }
  assert (Hoff : viewOffsets sizes strides
                 = rowMajor sizes (effectiveStrides sizes strides) 0).
  { unfold viewOffsets. destruct sizes; [simpl in Hnd; lia|done]. }
  unfold viewInBuffer in Hview. unfold logicalBytes. rewrite Hoff in *.
  destruct (leading_runs sizes (effectiveStrides sizes strides) f data elementSize
              Hlen' Hpos Hlike Hes Hview) as [Hruns Hbytes].
  rewrite <- Hbytes.
  destruct (Z.eqb_spec (Z.of_nat f) 0) as [Hfz|Hfz].
  - (* every dimension is part of the run: the buffer is trimmed and moved *)
    assert (f = 0%nat) by lia. subst f. rewrite drop_0 in *.
    rewrite !take_0. rewrite rowMajor_nil_strides in *.
    destruct (Hruns 0) as [_ [_ Hhi]]; [now left|].
    replace (prodZ sizes * elementSize <=? io_length data)
      with true by (symmetry; apply Z.leb_le; lia).
    rewrite DCHECK_true, bind_Done, trimEnd_to, bind_Done by lia.
    eexists _, _. split; [reflexivity|].
    rewrite chain_bytes_applySharingMode. unfold chain_bytes. cbn [io_head io_rest].
    unfold isChained in Hch. destruct (io_rest data); [|done].
    cbn [flat_map map concat with_bytes seg_bytes]. unfold runBytes.
    now rewrite Z.mul_0_l, drop_0.
  - (* the traversal *)
    assert (Hne : strides <> []) by (intros E; apply Hf0 in E; lia).
    assert (Heff : effectiveStrides sizes strides = strides)
      by (destruct strides; done).
    rewrite Heff in *.
    destruct (traverse_row_major cfg fuel sizes strides data elementSize sharing f
                (prodZ (drop f sizes) * elementSize)) as (q & -> & Hq); auto;
      try lia.
    { apply Forall_take. now apply sizes_bounded. }
    { intros e He. now apply Hruns. }
    { pose proof (odometerSteps_take sizes f Hpos). lia. }
    rewrite bind_Done.
    destruct (queue_move_cloneInto_Done q) as (b & -> & Hb).
    { rewrite Hq.
      destruct (rowMajor_nonempty (take f sizes) (take f strides) 0) as [e He].
      { rewrite !length_take. lia. }
      { now apply Forall_take. }
      apply (flat_map_nonempty _ _ e He).
      destruct (Hruns e He) as [He0 [Hlo Hhi]].
      intros H0. apply (f_equal length) in H0. unfold runBytes in H0.
      unfold io_length in Hhi. rewrite length_take_drop in H0 by lia.
      simpl in H0. lia. }
    rewrite bind_Done. eexists _, _. split; [reflexivity|]. congruence.
Qed.

(** A call that has stopped does not change with more fuel. *)
Lemma loop_mono cfg sizes strides data elementSize fcd cs mayShare fuel :
  forall o r,
    loop cfg sizes strides data elementSize fcd cs mayShare fuel o = r ->
    r <> Timeout ->
    forall k, loop cfg sizes strides data elementSize fcd cs mayShare (fuel + k) o = r.
Proof.
  induction fuel as [|fuel IH]; intros o r Hr Hne k; simpl in *.
  - destruct (idx o <? 0) eqn:E; [|congruence].
    subst r. apply loop_finished. now apply Z.ltb_lt.
  - destruct (idx o <? 0); [done|].
    destruct (step cfg sizes strides data elementSize fcd cs mayShare o)
      as [o'| | |]; simpl in *; auto.
Qed.

Lemma serialize_mono cfg fuel sizes strides data dtype elementSize endianness
    sharing r :
  serialize cfg fuel sizes strides data dtype elementSize endianness sharing = r ->
  r <> Timeout ->
  forall k,
    serialize cfg (fuel + k) sizes strides data dtype elementSize endianness sharing
    = r.
Proof.
  intros Hr Hne k. subst r. revert Hne. unfold serialize. cbv zeta.
  destruct (DCHECK cfg (negb (isChained data))) as [[]| | |]; try done.
  rewrite !bind_Done.
  destruct (resolveEndianness cfg endianness) as [e| | |]; try done.
  rewrite !bind_Done.
  destruct (analyze cfg sizes strides) as [c| | |]; try done.
  rewrite !bind_Done.
  destruct (DCHECK cfg (mul64 (contiguousSize c) elementSize
                        <=? mul64 (dataSize c) elementSize)) as [[]| | |];
    try done.
  rewrite !bind_Done.
  destruct (Z.of_nat (length sizes) =? 0); [done|].
  destruct (firstContiguousDim c =? 0); [done|].
  unfold traverse.
  destruct (loop cfg sizes strides data elementSize (firstContiguousDim c)
              (mul64 (contiguousSize c) elementSize) (mayShareOf sharing data)
              fuel _) as [o| | |] eqn:Hl; intros Hne.
  - now rewrite (loop_mono _ _ _ _ _ _ _ _ _ _ _ Hl) by discriminate.
  - now rewrite (loop_mono _ _ _ _ _ _ _ _ _ _ _ Hl) by discriminate.
  - now rewrite (loop_mono _ _ _ _ _ _ _ _ _ _ _ Hl) by discriminate.
  - exfalso. apply Hne. reflexivity.
Qed.

(** The record of a call that returned carries the data type and the sizes
    it was given and the byte order of the machine. *)
Lemma serialize_record cfg fuel shape strides source dtype elementSize order
    sharing out source' :
  serialize cfg fuel shape strides source dtype elementSize order sharing
    = Done (out, source') ->
  dataType out = dtype /\ sizes out = shape /\
  endianness out = gMachineEndianness cfg.
Proof.
  intros H. unfold serialize in H. do 4 done_inv H.
  assert (He : a0 = gMachineEndianness cfg).
  { unfold resolveEndianness, CHECK, gMachineEndianness in *.
    destruct order, (littleEndianHost cfg); simpl in *; congruence. }
  destruct (Z.of_nat (length shape) =? 0).
  - injection H as <- <-. auto.
  - destruct (firstContiguousDim a1 =? 0).
    + do 2 done_inv H. injection H as <- <-. auto.
    + do 2 done_inv H. injection H as <- <-. auto.
Qed.

(** C1, as amended.  For every shape whose sizes are all positive, every
    strides sequence (or the implicit row-major layout) with which each
    logical element lies inside the single, unchained source buffer, and
    every sharing mode, serialize returns a record whose payload is, byte
    for byte, the row-major flattening of the logical elements addressed by
    shape, strides and the buffer from the base offset; deserialize returns
    that payload unchanged.  The byte count of the tensor is assumed to fit
    64 bits. *)
Theorem serialize_payload_is_row_major
    (cfg : Build) (fuel : nat) (sizes strides : list Z) (data : IOBuf)
    (dtype : ThriftTensorDataType) (elementSize : Z)
    (endianness : ThriftTensorEndianness) (sharing : SharingMode) :
  isChained data = false ->
  io_length data < 2 ^ 64 ->
  endianness = NATIVE \/ endianness = gMachineEndianness cfg ->
  strides = [] \/ length strides = length sizes ->
  Forall (fun s => 0 < s) sizes ->
  Forall (fun t => - 2 ^ 63 <= t < 2 ^ 63) strides ->
  0 < elementSize -> prodZ sizes * elementSize < 2 ^ 64 ->
  viewInBuffer sizes strides elementSize (io_length data) ->
  (odometerSteps sizes <= fuel)%nat ->
  exists out data' received,
    serialize cfg fuel sizes strides data dtype elementSize endianness sharing
      = Done (out, data') /\
    payload out = logicalBytes sizes strides (data_bytes data) elementSize /\
    deserialize out dtype = Done received /\
    chain_bytes received = payload out.
Proof.
  intros Hch Hlen Hend Hsl Hpos Hlong Hes Hprod Hview Hfuel.
  destruct (serialize_view cfg fuel sizes strides data dtype elementSize
              endianness sharing) as (d & data' & Hser & Hbytes); auto.
  eexists _, data', d. split; [exact Hser|]. split; [exact Hbytes|].
  split; [apply deserialize_same|reflexivity].
Qed.

(** Scenario 2 of the specification: shape [2,3] with strides [1,2] over
    "abcdef" gives the payload "acebdf". *)
Lemma serialize_payload_is_row_major_witness :
  exists out data' received,
    serialize debugBuild 14 [2; 3] [1; 2] (bufferOf abcdef) 0 1 NATIVE SHARE_NONE
      = Done (out, data') /\
    payload out = [x61; x63; x65; x62; x64; x66] /\
    deserialize out 0 = Done received /\
    chain_bytes received = payload out.
Proof.
  apply (serialize_payload_is_row_major debugBuild 14 [2; 3] [1; 2]
           (bufferOf abcdef) 0 1 NATIVE SHARE_NONE).
  - reflexivity.
  - vm_compute. reflexivity.
  - left. reflexivity.
  - right. reflexivity.
  - repeat constructor.
  - repeat constructor; vm_compute; congruence.
  - lia.
  - vm_compute. reflexivity.
  - repeat constructor; vm_compute; congruence.
  - vm_compute. lia.
Defined.

(** The same scenario for arbitrary bytes a..f, by evaluation: the order
    is buffer[0], buffer[2], buffer[4], buffer[1], buffer[3], buffer[5]. *)
Example scenario_2_3_strides_1_2 (a b c d e f : byte) (sharing : SharingMode) :
  payloadOf (serialize debugBuild 14 [2; 3] [1; 2] (bufferOf [a; b; c; d; e; f])
                       0 1 NATIVE sharing)
  = Some [a; c; e; b; d; f].
Proof. destruct sharing; reflexivity. Qed.

(** C1 as stated fails on a shape with a zero-size dimension outside the
    contiguous run.  The view of shape [0] with stride 2 has no logical
    element, so its flattening is empty; the call does not return that
    payload: a debug build stops at [DCHECK_LE(contiguousSize, dataSize)],
    a release build enters the traversal, which copies data[0], data[2],
    data[4] and then reads past the six bytes of the buffer. *)
Lemma zero_size_leading_dimension_not_flattened :
  logicalBytes [0] [2] abcdef 1 = [] /\
  ~ (exists cfg fuel out data',
       serialize cfg fuel [0] [2] (bufferOf abcdef) 0 1 NATIVE SHARE_NONE
       = Done (out, data')).
Proof.
  split; [reflexivity|].
  intros (cfg & fuel & out & data' & H).
  destruct cfg as [[] host].
  - vm_compute in H. discriminate.
  - do 7 (destruct fuel as [|fuel]; [vm_compute in H; discriminate|]).
    vm_compute in H. discriminate.
Qed.

(** ** Canonical payloads *)

Lemma lookup_rowMajorStrides sizes : forall j : nat,
  (j < length sizes)%nat ->
  rowMajorStrides sizes !! j = Some (prodZ (drop (S j) sizes)).
Proof.
  induction sizes as [|s sizes IH]; intros [|j] Hj; simpl in *; try lia.
  - now rewrite drop_0.
  - apply IH. lia.
Qed.

Lemma rowMajorLike_drop sizes : forall strides (d : nat),
  rowMajorLike sizes strides -> rowMajorLike (drop d sizes) (drop d strides).
Proof.
  induction sizes as [|s sizes IH]; intros strides d H.
  - now rewrite drop_nil.
  - destruct strides as [|t strides]; [done|].
    destruct d as [|d]; [done|]. destruct H as [_ H]. simpl. now apply IH.
Qed.

(** A view with explicit row-major strides takes the fast path. *)
Lemma analyze_row_major cfg sizes :
  sizes <> [] ->
  Forall (fun s => 0 < s) sizes -> prodZ sizes < 2 ^ 64 ->
  exists c, analyze cfg sizes (rowMajorStrides sizes) = Done c /\
            firstContiguousDim c = 0.
Proof.
  intros Hne Hpos Hprod.
  destruct (analyze_strided cfg sizes (rowMajorStrides sizes))
    as (c & f & Han & Hfcd & Hf & _ & Hmis & _).
  { destruct sizes; done. }
  { apply length_rowMajorStrides. }
  exists c. split; [done|]. rewrite Hfcd.
  destruct f as [|f]; [done|]. exfalso.
  apply (Hmis (prodZ (drop (S f) sizes))); [lia| |done].
  replace (S f - 1)%nat with f by lia.
  apply lookup_rowMajorStrides. lia.
Qed.

(** The general path forced on a row-major view, with the dimensions from
    [d] on taken as the contiguous run, emits the logical bytes. *)
Lemma forced_traversal cfg fuel sizes data elementSize sharing (d : nat) :
  servableView sizes (rowMajorStrides sizes) data elementSize ->
  sizes <> [] ->
  (d <= length sizes)%nat ->
  (odometerSteps sizes <= fuel)%nat ->
  exists q,
    traverse cfg fuel sizes (rowMajorStrides sizes) data elementSize sharing
             (Z.of_nat d) (prodZ (drop d sizes) * elementSize) = Done q /\
    queue_bytes q
    = logicalBytes sizes (rowMajorStrides sizes) (data_bytes data) elementSize.
Proof.
  intros (Hch & Hlen & Hsl & Hpos & Hlong & Hes & Hprod & Hview) Hne Hd Hfuel.
  pose proof (prodZ_pos sizes Hpos) as HP0.
  pose proof (prodZ_drop_le sizes d Hpos) as Hdrop.
  assert (Heff : effectiveStrides sizes (rowMajorStrides sizes) = rowMajorStrides sizes).
  { destruct sizes; done. }
  assert (Hoff : viewOffsets sizes (rowMajorStrides sizes)
                 = rowMajor sizes (rowMajorStrides sizes) 0).
  { unfold viewOffsets. rewrite Heff. destruct sizes; done. }
  unfold viewInBuffer in Hview. unfold logicalBytes. rewrite Hoff in *.
  destruct (leading_runs sizes (rowMajorStrides sizes) d data elementSize)
    as [Hruns Hbytes]; auto.
  { apply length_rowMajorStrides. }
  { apply rowMajorLike_drop, rowMajorLike_implicit. }
  rewrite <- Hbytes.
  apply traverse_row_major; auto; try nia.
  - rewrite length_rowMajorStrides. lia.
  - apply Forall_take. apply sizes_bounded; [done|nia].
  - intros e He. now apply Hruns.
  - pose proof (odometerSteps_take sizes d Hpos). lia.
Qed.

(** C2, as amended.  Two views whose sizes are all positive and whose
    elements lie inside their buffers, with the same logical content but
    different shapes, strides or buffers, are serialized to byte-identical
    payloads.  When the strides of such a view are those of the row-major
    layout, serialize takes the fast path ([firstContiguousDim = 0]), and
    the general path, forced with any dimension [d] as the first of the
    contiguous run, emits the same bytes. *)
Theorem canonical_payload
    (cfg : Build) (fuel : nat) (sizes1 strides1 sizes2 strides2 : list Z)
    (data1 data2 : IOBuf) (dtype : ThriftTensorDataType) (elementSize : Z)
    (endianness : ThriftTensorEndianness) (sharing1 sharing2 : SharingMode) :
  servableView sizes1 strides1 data1 elementSize ->
  servableView sizes2 strides2 data2 elementSize ->
  endianness = NATIVE \/ endianness = gMachineEndianness cfg ->
  (odometerSteps sizes1 <= fuel)%nat -> (odometerSteps sizes2 <= fuel)%nat ->
  logicalBytes sizes1 strides1 (data_bytes data1) elementSize
  = logicalBytes sizes2 strides2 (data_bytes data2) elementSize ->
  exists out1 rest1 out2 rest2,
    serialize cfg fuel sizes1 strides1 data1 dtype elementSize endianness sharing1
      = Done (out1, rest1) /\
    serialize cfg fuel sizes2 strides2 data2 dtype elementSize endianness sharing2
      = Done (out2, rest2) /\
    payload out1 = payload out2 /\
    (sizes1 <> [] -> strides1 = rowMajorStrides sizes1 ->
     (exists c, analyze cfg sizes1 strides1 = Done c /\ firstContiguousDim c = 0) /\
     forall d : nat, (d <= length sizes1)%nat ->
       exists q,
         traverse cfg fuel sizes1 strides1 data1 elementSize sharing1
                  (Z.of_nat d) (prodZ (drop d sizes1) * elementSize) = Done q /\
         queue_bytes q = payload out1).
Proof.
  intros V1 V2 Hend Hfuel1 Hfuel2 Hsame.
  pose proof V1 as (Hch1 & Hlen1 & Hsl1 & Hpos1 & Hlong1 & Hes & Hprod1 & Hview1).
  pose proof V2 as (Hch2 & Hlen2 & Hsl2 & Hpos2 & Hlong2 & _ & Hprod2 & Hview2).
  destruct (serialize_view cfg fuel sizes1 strides1 data1 dtype elementSize
              endianness sharing1) as (d1 & r1 & Hs1 & Hb1); auto.
  destruct (serialize_view cfg fuel sizes2 strides2 data2 dtype elementSize
              endianness sharing2) as (d2 & r2 & Hs2 & Hb2); auto.
  eexists _, r1, _, r2. split; [exact Hs1|]. split; [exact Hs2|].
  unfold payload. cbn [data]. split; [congruence|].
  intros Hne ->. split.
  - apply analyze_row_major; auto.
    pose proof (prodZ_pos sizes1 Hpos1). nia.
  - intros d Hd.
    destruct (forced_traversal cfg fuel sizes1 data1 elementSize sharing1 d)
      as (q & Hq & Hqb); auto.
    exists q. split; [done|]. congruence.
Qed.

Ltac concrete_view :=
  unfold servableView, viewInBuffer;
  repeat match goal with
         | |- _ /\ _ => split
         | |- Forall _ _ => repeat constructor
         end;
  try reflexivity; try (right; reflexivity);
  try (vm_compute; first [reflexivity | congruence]).

(** The 2 x 3 array "acebdf" laid out row-major, and the same array as a
    transposed view of "abcdef". *)
Lemma canonical_payload_witness :
  exists out1 rest1 out2 rest2,
    serialize debugBuild 14 [2; 3] [3; 1] (bufferOf acebdf) 0 1 NATIVE SHARE_NONE
      = Done (out1, rest1) /\
    serialize debugBuild 14 [2; 3] [1; 2] (bufferOf abcdef) 0 1 NATIVE SHARE_ALL
      = Done (out2, rest2) /\
    payload out1 = payload out2 /\
    ([2; 3] <> [] -> [3; 1] = rowMajorStrides [2; 3] ->
     (exists c, analyze debugBuild [2; 3] [3; 1] = Done c /\
                firstContiguousDim c = 0) /\
     forall d : nat, (d <= length [2; 3])%nat ->
       exists q,
         traverse debugBuild 14 [2; 3] [3; 1] (bufferOf acebdf) 1 SHARE_NONE
                  (Z.of_nat d) (prodZ (drop d [2; 3]) * 1) = Done q /\
         queue_bytes q = payload out1).
Proof.
  apply (canonical_payload debugBuild 14 [2; 3] [3; 1] [2; 3] [1; 2]
           (bufferOf acebdf) (bufferOf abcdef) 0 1 NATIVE SHARE_NONE SHARE_ALL).
  - concrete_view.
  - concrete_view.
  - left. reflexivity.
  - vm_compute. lia.
  - vm_compute. lia.
  - reflexivity.
Defined.

(** C2 as stated fails on views with a zero-size dimension outside the
    contiguous run.  Shape [0,2] with strides [2,1] and with strides [5,1]
    over "abcdef" are two views with the same, empty, logical content.
    The first takes the fast path and gives the empty payload; the second
    gives none: a debug build stops at [DCHECK_LE(contiguousSize,
    dataSize)], a release build copies the two bytes at offset 0 and then
    reads the run at offset 5, which leaves the buffer. *)
Lemma zero_size_views_not_canonical :
  logicalBytes [0; 2] [2; 1] abcdef 1 = logicalBytes [0; 2] [5; 1] abcdef 1 /\
  (forall cfg,
     payloadOf (serialize cfg 0 [0; 2] [2; 1] (bufferOf abcdef) 0 1 NATIVE SHARE_NONE)
     = Some []) /\
  ~ (exists cfg fuel out data',
       serialize cfg fuel [0; 2] [5; 1] (bufferOf abcdef) 0 1 NATIVE SHARE_NONE
       = Done (out, data')).
Proof.
  split; [reflexivity|]. split.
  - intros [[] []]; reflexivity.
  - intros (cfg & fuel & out & data' & H).
    destruct cfg as [[] host].
    + vm_compute in H. discriminate.
    + do 3 (destruct fuel as [|fuel]; [vm_compute in H; discriminate|]).
      vm_compute in H. discriminate.
Qed.

(** ** The empty tensor *)

Lemma serialize_no_dims cfg fuel data dtype elementSize endianness sharing :
  isChained data = false ->
  endianness = NATIVE \/ endianness = gMachineEndianness cfg ->
  serialize cfg fuel [] [] data dtype elementSize endianness sharing
  = Done ({| dataType := dtype; endianness := gMachineEndianness cfg;
             sizes := []; data := IOBuf_empty |}, IOBuf_empty).
Proof.
  intros Hch Hend. unfold serialize. rewrite Hch. cbn [negb].
  rewrite DCHECK_true, bind_Done, (resolveEndianness_native _ _ Hend), bind_Done.
  rewrite analyze_implicit, bind_Done.
  cbn [firstContiguousDim contiguousSize dataSize].
  rewrite Z.leb_refl, DCHECK_true, bind_Done. reflexivity.
Qed.

(** C7. For every sharing mode, data type and element size, serializing
    an input without dimensions, from an unchained buffer of any content
    and with a byte order that is native or that of the machine, gives a
    record with empty sizes and a payload of length 0, and leaves the
    source buffer cleared. *)
Theorem empty_tensor
    (cfg : Build) (fuel : nat) (data : IOBuf) (dtype : ThriftTensorDataType)
    (elementSize : Z) (endianness : ThriftTensorEndianness)
    (sharing : SharingMode) :
  isChained data = false ->
  endianness = NATIVE \/ endianness = gMachineEndianness cfg ->
  exists out,
    serialize cfg fuel [] [] data dtype elementSize endianness sharing
      = Done (out, IOBuf_empty) /\
    dataType out = dtype /\
    sizes out = [] /\
    length (payload out) = 0%nat.
Proof.
  intros Hch Hend. eexists. split.
  - now apply serialize_no_dims.
  - repeat split.
Qed.

Lemma empty_tensor_witness :
  exists out,
    serialize debugBuild 0 [] [] (bufferOf abcdef) 7 4 NATIVE SHARE_IOBUF_MANAGED
      = Done (out, IOBuf_empty) /\
    dataType out = 7 /\
    sizes out = [] /\
    length (payload out) = 0%nat.
Proof.
  apply (empty_tensor debugBuild 0 (bufferOf abcdef) 7 4 NATIVE SHARE_IOBUF_MANAGED).
  - reflexivity.
  - left. reflexivity.
Defined.

(** ** The source buffer after the call *)

(** C8. After a call that returned, the source buffer is in one of two
    states, decided by the path taken.  When the input has no dimension it
    is cleared, the output payload being an empty buffer; on the fast path
    ([firstContiguousDim = 0]) it is the empty, moved-from buffer, the
    source after [trimEnd] and [applySharingMode] having been moved into
    the output; on the general path it is the buffer the caller passed:
    its bytes were only read. *)
Theorem source_buffer_after_serialize
    (cfg : Build) (fuel : nat) (shape strides : list Z) (source : IOBuf)
    (dtype : ThriftTensorDataType) (elementSize : Z)
    (endianness : ThriftTensorEndianness) (sharing : SharingMode)
    (out : ThriftTensor) (source' : IOBuf) :
  serialize cfg fuel shape strides source dtype elementSize endianness sharing
    = Done (out, source') ->
  exists c,
    analyze cfg shape strides = Done c /\
    if Z.of_nat (length shape) =? 0 then
      source' = IOBuf_empty /\ data out = IOBuf_empty
    else if firstContiguousDim c =? 0 then
      source' = IOBuf_empty /\
      exists trimmed,
        trimEnd (sub64 (io_length source) (mul64 (dataSize c) elementSize)) source
          = Done trimmed /\
        data out = applySharingMode trimmed sharing
    else
      source' = source /\
      exists q,
        traverse cfg fuel shape strides source elementSize sharing
                 (firstContiguousDim c) (mul64 (contiguousSize c) elementSize)
          = Done q /\
        payload out = queue_bytes q.
Proof.
  intros H. unfold serialize in H.
  do 4 done_inv H. exists a1. split; [done|].
  destruct (Z.of_nat (length shape) =? 0).
  - injection H as <- <-. done.
  - destruct (firstContiguousDim a1 =? 0).
    + do 2 done_inv H. injection H as <- <-. eauto.
    + do 2 done_inv H. injection H as <- <-. split; [done|].
      exists a3. split; [done|].
      unfold payload. cbn [data].
      unfold queue_move_cloneInto in Ha4.
      destruct (queue_segments a3) as [|s rest] eqn:E; [done|].
      injection Ha4 as <-. now rewrite <- queue_segments_bytes, E.
Qed.

(** The general path leaves the buffer as it was, here under [SHARE_ALL]
    with aliased runs. *)
Lemma source_buffer_after_serialize_witness :
  exists out c,
    serialize debugBuild 4 [2; 4096] [0; 1] (bufferOf (replicate 4096 x00))
              0 1 NATIVE SHARE_ALL
      = Done (out, bufferOf (replicate 4096 x00)) /\
    analyze debugBuild [2; 4096] [0; 1] = Done c /\
    firstContiguousDim c = 1.
Proof.
  eexists.
  assert (H : serialize debugBuild 4 [2; 4096] [0; 1]
                (bufferOf (replicate 4096 x00)) 0 1 NATIVE SHARE_ALL
              = Done (_, bufferOf (replicate 4096 x00)))
    by (vm_compute; reflexivity).
  destruct (source_buffer_after_serialize _ _ _ _ _ _ _ _ _ _ _ H) as (c & Hc & _).
  exists c. split; [exact H|]. split; [exact Hc|].
  vm_compute in Hc. injection Hc as <-. reflexivity.
Defined.

(** C8 as stated fails for an input without dimensions: the source buffer
    is cleared, but nothing of it goes to the output, which receives a new
    empty buffer: neither the allocation of the source nor any of its
    bytes. *)
Lemma no_dims_nothing_transferred :
  exists out,
    serialize debugBuild 0 [] [] (bufferOf abcdef) 0 1 NATIVE SHARE_ALL
      = Done (out, IOBuf_empty) /\
    seg_buffer (io_head (bufferOf abcdef)) = Some 0%nat /\
    seg_buffer (io_head (data out)) = None /\
    payload out = [].
Proof. eexists. repeat split. Qed.

(** ** Deserialization *)

(** C10. Whatever the wire record, and so whatever storage offset and
    strides the serialized view had, the tensor built by [deserializeTH]
    has storage offset 0 and null strides, which makes it row-major; its
    sizes are those of the record and its storage is the payload.  The call
    returns exactly when the data type of the record is the expected
    one. *)
Theorem deserializeTH_offset_zero_row_major
    (dtype : ThriftTensorDataType) (thriftTensor : ThriftTensor)
    (sharing : SharingMode) :
  match deserializeTH dtype thriftTensor sharing with
  | Done t =>
      th_storageOffset t = 0 /\ th_strides t = None /\
      th_sizes t = sizes thriftTensor /\ th_storage t = data thriftTensor /\
      dataType thriftTensor = dtype
  | Fatal => dataType thriftTensor <> dtype
  | Undefined | Timeout => False
  end.
Proof.
  unfold deserializeTH, deserialize, CHECK.
  destruct (Z.eqb_spec (dataType thriftTensor) dtype); simpl; auto.
Qed.

(** ** Termination *)

Lemma bind_not_Timeout {A B : Type} (m : outcome A) (k : A -> outcome B) :
  m <> Timeout -> (forall a, m = Done a -> k a <> Timeout) -> (m ≫= k) <> Timeout.
Proof. destruct m; simpl; auto; congruence. Qed.

Lemma DCHECK_not_Timeout cfg c : DCHECK cfg c <> Timeout.
Proof. unfold DCHECK, CHECK. destruct (dchecks cfg), c; discriminate. Qed.

Lemma at_index_not_Timeout {A : Type} (l : list A) i : at_index l i <> Timeout.
Proof. unfold at_index. repeat case_match; discriminate. Qed.

Lemma resolveEndianness_not_Timeout cfg e : resolveEndianness cfg e <> Timeout.
Proof.
  unfold resolveEndianness, CHECK.
  destruct e, (gMachineEndianness cfg); simpl; discriminate.
Qed.

Lemma trimStart_not_Timeout n b : trimStart n b <> Timeout.
Proof. unfold trimStart. case_match; discriminate. Qed.

Lemma trimEnd_not_Timeout n b : trimEnd n b <> Timeout.
Proof. unfold trimEnd. case_match; discriminate. Qed.

Lemma emitRun_not_Timeout cfg data cs mayShare src :
  emitRun cfg data cs mayShare src <> Timeout.
Proof.
  unfold emitRun. case_match.
  - apply bind_not_Timeout; [|discriminate]. unfold partialCloneOne.
    apply bind_not_Timeout; [apply DCHECK_not_Timeout|intros _ _].
    apply bind_not_Timeout; [apply trimStart_not_Timeout|intros ? _].
    apply trimEnd_not_Timeout.
  - apply bind_not_Timeout; [|discriminate]. unfold read_bytes.
    case_match; discriminate.
Qed.

Lemma step_not_Timeout cfg sizes strides data elementSize fcd cs mayShare o :
  step cfg sizes strides data elementSize fcd cs mayShare o <> Timeout.
Proof.
  unfold step. case_match.
  - apply bind_not_Timeout; [apply emitRun_not_Timeout|discriminate].
  - apply bind_not_Timeout; [apply at_index_not_Timeout|intros ? _].
    apply bind_not_Timeout; [apply at_index_not_Timeout|intros ? _].
    apply bind_not_Timeout; [apply at_index_not_Timeout|intros ? _].
    case_match; discriminate.
Qed.

Lemma scanContiguous_not_Timeout sizes strides (k : nat) : forall cs,
  scanContiguous k sizes strides cs <> Timeout.
Proof.
  induction k as [|k IH]; intros cs; simpl; [discriminate|].
  apply bind_not_Timeout; [apply at_index_not_Timeout|intros stride _].
  case_match; [discriminate|].
  apply bind_not_Timeout; [apply at_index_not_Timeout|intros size _]. apply IH.
Qed.

(** The scan leaves [firstContiguousDim] between -1 and the last index. *)
Lemma scanContiguous_range sizes strides (k : nat) : forall cs fcd cs',
  scanContiguous k sizes strides cs = Done (fcd, cs') -> -1 <= fcd < Z.of_nat k.
Proof.
  induction k as [|k IH]; intros cs fcd cs' H; simpl in H.
  - injection H as <- <-. lia.
  - done_inv H. destruct (negb (u64 a =? cs)).
    + injection H as <- <-. lia.
    + done_inv H. apply IH in H. lia.
Qed.

Lemma analyze_not_Timeout cfg sizes strides : analyze cfg sizes strides <> Timeout.
Proof.
  unfold analyze. destruct strides as [|t strides]; [discriminate|].
  apply bind_not_Timeout; [apply DCHECK_not_Timeout|intros _ _].
  apply bind_not_Timeout; [apply scanContiguous_not_Timeout|intros [? ?] _].
  discriminate.
Qed.

Lemma analyze_range cfg sizes strides c :
  analyze cfg sizes strides = Done c ->
  0 <= firstContiguousDim c <= Z.of_nat (length sizes).
Proof.
  unfold analyze. destruct strides as [|t strides].
  - intros [= <-]. simpl. lia.
  - intros H. do 2 done_inv H. destruct a0 as [fcd cs].
    apply scanContiguous_range in Ha0. injection H as <-. simpl. lia.
Qed.

Section Halting.

Variable cfg : Build.
Variables sizes strides : list Z.
Variable data : IOBuf.
Variable elementSize : Z.
Variable L : nat.
Variable contiguousSize : Z.
Variable mayShare : bool.

Local Abbreviation run :=
  (loop cfg sizes strides data elementSize (Z.of_nat L) contiguousSize mayShare).
Local Abbreviation step1 :=
  (step cfg sizes strides data elementSize (Z.of_nat L) contiguousSize mayShare).

Lemma haltsTo_step o (Q : Odometer -> Prop) :
  0 <= idx o ->
  (forall o', step1 o = Done o' -> Q o') ->
  haltsTo run 1 o Q.
Proof.
  intros Hi HQ fuel. change (1 + fuel)%nat with (S fuel).
  rewrite loop_S by done.
  pose proof (step_not_Timeout cfg sizes strides data elementSize (Z.of_nat L)
                contiguousSize mayShare o) as Hnt.
  destruct step1 as [o'| | |]; simpl; auto; [|done].
  left. exists o'. auto.
Qed.

Lemma haltsTo_trans (n1 n2 : nat) o (Q1 Q2 : Odometer -> Prop) :
  haltsTo run n1 o Q1 ->
  (forall o1, Q1 o1 -> haltsTo run n2 o1 Q2) ->
  haltsTo run (n1 + n2) o Q2.
Proof.
  intros H1 H2 fuel.
  replace (n1 + n2 + fuel)%nat with (n1 + (n2 + fuel))%nat by lia.
  destruct (H1 (n2 + fuel)%nat) as [(o1 & HQ1 & ->)|[-> | ->]]; auto.
  apply H2. done.
Qed.

Lemma haltsTo_weaken (n : nat) o (Q1 Q2 : Odometer -> Prop) :
  haltsTo run n o Q1 -> (forall o', Q1 o' -> Q2 o') -> haltsTo run n o Q2.
Proof.
  intros H HQ fuel. destruct (H fuel) as [(o1 & HQ1 & ->)|[-> | ->]]; eauto.
Qed.

(** The counterpart of [odometer_run] without any assumption on the
    strides or on the buffer: the traversal of dimensions of positive sizes
    comes to its end, or an iteration stops the call. *)
Lemma odometer_halts ss : forall (d : nat) o,
  (d + length ss = L)%nat ->
  drop d (take L sizes) = ss ->
  Forall (fun s => 0 < s < 2 ^ 64) ss ->
  idx o = Z.of_nat L -> length (counter o) = L ->
  (forall j : nat, (d <= j < L)%nat -> counter o !! j = Some 0) ->
  haltsTo run (odometerSteps ss) o
          (fun o' => idx o' = Z.of_nat d - 1 /\ counter o' = counter o).
Proof.
  induction ss as [|s ss IH]; intros d o Hd Hss Hpos Hi Hcl Hz.
  - simpl in Hd. assert (d = L) by lia. subst d.
    apply haltsTo_step; [lia|]. intros o' Ho'.
    unfold step in Ho'. rewrite Hi, Z.eqb_refl in Ho'.
    done_inv Ho'. injection Ho' as <-. simpl. split; [lia|done].
  - simpl in Hd.
    apply drop_cons_inv in Hss as [Hsz Hss]. apply lookup_take_inv in Hsz.
    apply Forall_cons in Hpos as [Hs0 Hpos].
    set (T := odometerSteps ss).
    assert (inner : forall (k : nat) i o,
      (1 <= k)%nat -> i + Z.of_nat k = s -> 0 <= i ->
      idx o = Z.of_nat L -> length (counter o) = L ->
      counter o !! d = Some i ->
      (forall j : nat, (d < j < L)%nat -> counter o !! j = Some 0) ->
      haltsTo run (k * (T + 1)) o
              (fun o' => idx o' = Z.of_nat d - 1 /\
                         counter o' = <[d := 0]> (counter o))).
    { induction k as [|k IHk]; intros i o' Hk Hik Hi0 Hi' Hcl' Hcd Hz'; [lia|].
      assert (Hz1 : forall j : nat, (S d <= j < L)%nat -> counter o' !! j = Some 0)
        by (intros j Hj; apply Hz'; lia).
      pose proof (IH (S d) o' ltac:(lia) Hss Hpos Hi' Hcl' Hz1) as Hinner.
      assert (Hcnt : add64 i 1 = i + 1) by (unfold add64; apply u64_small; lia).
      destruct (decide (k = 0%nat)) as [->|Hk0].
      - (* the last value of the counter *)
        replace (1 * (T + 1))%nat with (T + 1)%nat by lia.
        eapply haltsTo_trans; [exact Hinner|].
        intros o1 [Hi1 Hc1]. apply haltsTo_step; [lia|].
        intros o2 Ho2. unfold step in Ho2. rewrite Hi1 in Ho2.
        replace (Z.of_nat (S d) - 1) with (Z.of_nat d) in Ho2 by lia.
        destruct (Z.eqb_spec (Z.of_nat d) (Z.of_nat L)); [lia|].
        done_inv Ho2. rewrite (at_index_lookup _ _ _ Hsz) in Ho2.
        rewrite Hc1, (at_index_lookup _ _ _ Hcd) in Ho2. simpl in Ho2.
        rewrite Hcnt, (u64_small s) in Ho2 by lia.
        destruct (Z.eqb_spec (i + 1) s); [|lia].
        injection Ho2 as <-. simpl. now rewrite Nat2Z.id.
      - (* one more value *)
        replace (S k * (T + 1))%nat with (T + (1 + k * (T + 1)))%nat by lia.
        eapply haltsTo_trans; [exact Hinner|].
        intros o1 [Hi1 Hc1].
        eapply haltsTo_trans
          with (Q1 := fun o2 => idx o2 = Z.of_nat L /\
                                counter o2 = <[d := i + 1]> (counter o')).
        + apply haltsTo_step; [lia|].
          intros o2 Ho2. unfold step in Ho2. rewrite Hi1 in Ho2.
          replace (Z.of_nat (S d) - 1) with (Z.of_nat d) in Ho2 by lia.
          destruct (Z.eqb_spec (Z.of_nat d) (Z.of_nat L)); [lia|].
          done_inv Ho2. rewrite (at_index_lookup _ _ _ Hsz) in Ho2.
          rewrite Hc1, (at_index_lookup _ _ _ Hcd) in Ho2. simpl in Ho2.
          rewrite Hcnt, (u64_small s) in Ho2 by lia.
          destruct (Z.eqb_spec (i + 1) s); [lia|].
          injection Ho2 as <-. simpl. now rewrite Nat2Z.id.
        + intros o2 [Hi2 Hc2].
          eapply haltsTo_weaken.
          * apply (IHk (i + 1) o2); auto; try lia.
            -- rewrite Hc2, length_insert. done.
            -- rewrite Hc2. apply list_lookup_insert_eq. lia.
            -- intros j Hj. rewrite Hc2, list_lookup_insert_ne by lia.
               apply Hz'. lia.
          * intros o3 [Hi3 Hc3]. split; [done|].
            now rewrite Hc3, Hc2, list_insert_insert_eq. }
    simpl odometerSteps. fold T.
    eapply haltsTo_weaken.
    + apply (inner (Z.to_nat s) 0 o); auto; try lia.
      * apply Hz. lia.
      * intros j Hj. apply Hz. lia.
    + intros o' [Hi' Hc']. split; [done|].
      rewrite Hc'. apply list_insert_id. apply Hz. lia.
Qed.

End Halting.

Lemma queue_move_cloneInto_not_Timeout q : queue_move_cloneInto q <> Timeout.
Proof. unfold queue_move_cloneInto. case_match; discriminate. Qed.

(** With positive sizes the call comes to an end within [odometerSteps]
    iterations of the traversal, whatever the strides and the buffer. *)
Lemma serialize_halts cfg fuel sizes strides data dtype elementSize endianness sharing :
  Forall (fun s => 0 < s < 2 ^ 64) sizes ->
  (odometerSteps sizes <= fuel)%nat ->
  serialize cfg fuel sizes strides data dtype elementSize endianness sharing
  <> Timeout.
Proof.
  intros Hpos Hfuel. unfold serialize. cbv zeta.
  apply bind_not_Timeout; [apply DCHECK_not_Timeout|intros _ _].
  apply bind_not_Timeout; [apply resolveEndianness_not_Timeout|intros e _].
  apply bind_not_Timeout; [apply analyze_not_Timeout|intros c Hc].
  apply bind_not_Timeout; [apply DCHECK_not_Timeout|intros _ _].
  destruct (Z.of_nat (length sizes) =? 0); [discriminate|].
  destruct (Z.eqb_spec (firstContiguousDim c) 0) as [Hz|Hnz].
  - apply bind_not_Timeout; [apply DCHECK_not_Timeout|intros _ _].
    apply bind_not_Timeout; [apply trimEnd_not_Timeout|discriminate].
  - apply bind_not_Timeout.
    2:{ intros q _. apply bind_not_Timeout;
          [apply queue_move_cloneInto_not_Timeout|discriminate]. }
    unfold traverse. apply bind_not_Timeout; [|discriminate].
    apply analyze_range in Hc.
    set (f := Z.to_nat (firstContiguousDim c)).
    assert (Hf : firstContiguousDim c = Z.of_nat f) by (unfold f; lia).
    rewrite Hf. rewrite Hf in Hnz.
    assert (Hpos' : Forall (fun s => 0 < s) sizes).
    { eapply Forall_impl; [exact Hpos|]. intros s Hs. cbn beta in Hs. lia. }
    pose proof (odometerSteps_take sizes f Hpos') as Hsteps.
    set (o0 := {| idx := Z.of_nat f; src := 0; counter := replicate f 0;
                  outQueue := [] |}).
    assert (Hhalt : haltsTo
              (loop cfg sizes strides data elementSize (Z.of_nat f)
                    (mul64 (contiguousSize c) elementSize) (mayShareOf sharing data))
              (odometerSteps (take f sizes)) o0
              (fun o' => idx o' = Z.of_nat 0 - 1 /\ counter o' = counter o0)).
    { apply odometer_halts; auto.
      - rewrite length_take. lia.
      - now apply Forall_take.
      - unfold o0. simpl. now rewrite length_replicate.
      - intros j Hj. unfold o0. simpl. apply lookup_replicate_2. lia. }
    replace fuel with (odometerSteps (take f sizes)
                       + (fuel - odometerSteps (take f sizes)))%nat by lia.
    destruct (Hhalt (fuel - odometerSteps (take f sizes))%nat)
      as [(o' & [Hi _] & ->)|[-> | ->]]; try discriminate.
    rewrite loop_finished by (simpl in Hi; lia). discriminate.
Qed.

Lemma prodZ_zero sizes : In 0 sizes -> prodZ sizes = 0.
Proof.
  unfold prodZ. induction sizes as [|s sizes IH]; simpl; [done|].
  intros [->|H]; [lia|]. rewrite IH by done. lia.
Qed.

(** A shape with a zero-size dimension and implicit strides takes the fast
    path: the buffer is trimmed to nothing and moved to the output. *)
Lemma serialize_zero_size_implicit cfg fuel sizes source dtype elementSize
    endianness sharing :
  isChained source = false ->
  io_length source < 2 ^ 64 ->
  endianness = NATIVE \/ endianness = gMachineEndianness cfg ->
  In 0 sizes ->
  exists out,
    serialize cfg fuel sizes [] source dtype elementSize endianness sharing
      = Done (out, IOBuf_empty) /\
    payload out = [].
Proof.
  intros Hch Hlen Hend H0. unfold serialize. rewrite Hch. cbn [negb].
  rewrite DCHECK_true, bind_Done, (resolveEndianness_native _ _ Hend), bind_Done.
  rewrite analyze_implicit, bind_Done.
  cbn [firstContiguousDim contiguousSize dataSize].
  rewrite (prodZ_zero sizes H0). change (u64 0) with 0.
  unfold mul64. rewrite Z.mul_0_l. change (u64 0) with 0.
  rewrite Z.leb_refl, DCHECK_true, bind_Done.
  destruct (Z.eqb_spec (Z.of_nat (length sizes)) 0) as [Hnd|Hnd].
  { destruct sizes; [done|simpl in Hnd; lia]. }
  rewrite Z.eqb_refl.
  assert (Hl : 0 <= io_length source) by (unfold io_length; lia).
  replace (0 <=? io_length source) with true by (symmetry; now apply Z.leb_le).
  rewrite DCHECK_true, bind_Done, trimEnd_to, bind_Done by lia.
  eexists. split; [reflexivity|].
  unfold payload. cbn [data]. rewrite chain_bytes_applySharingMode.
  unfold chain_bytes. cbn [io_head io_rest with_bytes seg_bytes].
  unfold isChained in Hch. destruct (io_rest source); [|done].
  now rewrite take_0.
Qed.

(** C5, as amended.  On every input whose sizes are all positive the call
    comes to an end, by returning or by being stopped at an assertion or at
    an access outside a range, within a number of iterations of the
    traversal bounded by the sizes.  An input without dimensions is valid
    and takes the explicit empty-payload path, which never enters the
    traversal; a shape with a zero-size dimension and implicit strides is
    valid too and takes the fast path, which trims the buffer to an empty
    payload. *)
Theorem serialize_terminates
    (cfg : Build) (fuel : nat) (sizes strides : list Z) (data : IOBuf)
    (dtype : ThriftTensorDataType) (elementSize : Z)
    (endianness : ThriftTensorEndianness) (sharing : SharingMode) :
  (Forall (fun s => 0 < s < 2 ^ 63) sizes ->
   (odometerSteps sizes <= fuel)%nat ->
   serialize cfg fuel sizes strides data dtype elementSize endianness sharing
   <> Timeout) /\
  (isChained data = false ->
   endianness = NATIVE \/ endianness = gMachineEndianness cfg ->
   serialize cfg 0 [] [] data dtype elementSize endianness sharing
   = Done ({| dataType := dtype; endianness := gMachineEndianness cfg;
              sizes := []; data := IOBuf_empty |}, IOBuf_empty)) /\
  (isChained data = false ->
   io_length data < 2 ^ 64 ->
   endianness = NATIVE \/ endianness = gMachineEndianness cfg ->
   In 0 sizes ->
   exists out,
     serialize cfg 0 sizes [] data dtype elementSize endianness sharing
       = Done (out, IOBuf_empty) /\
     payload out = []).
Proof.
  split; [|split].
  - intros Hpos Hfuel. apply serialize_halts; [|done].
    eapply Forall_impl; [exact Hpos|]. intros s Hs. cbn beta in Hs. lia.
  - apply serialize_no_dims.
  - apply serialize_zero_size_implicit.
Qed.

Lemma serialize_terminates_witness :
  serialize debugBuild 14 [2; 3] [1; 2] (bufferOf abcdef) 0 1 NATIVE SHARE_NONE
    <> Timeout /\
  serialize debugBuild 0 [] [] (bufferOf abcdef) 0 1 NATIVE SHARE_NONE
    = Done ({| dataType := 0; endianness := LITTLE; sizes := [];
               data := IOBuf_empty |}, IOBuf_empty) /\
  exists out,
    serialize debugBuild 0 [3; 0] [] (bufferOf abcdef) 0 1 NATIVE SHARE_NONE
      = Done (out, IOBuf_empty) /\
    payload out = [].
Proof.
  split; [|split].
  - apply (proj1 (serialize_terminates debugBuild 14 [2; 3] [1; 2]
                    (bufferOf abcdef) 0 1 NATIVE SHARE_NONE)).
    + repeat constructor; vm_compute; congruence.
    + vm_compute. lia.
  - apply (proj1 (proj2 (serialize_terminates debugBuild 0 [] []
                           (bufferOf abcdef) 0 1 NATIVE SHARE_NONE))).
    + reflexivity.
    + left. reflexivity.
  - apply (proj2 (proj2 (serialize_terminates debugBuild 0 [3; 0] []
                           (bufferOf abcdef) 0 1 NATIVE SHARE_NONE))).
    + reflexivity.
    + vm_compute. reflexivity.
    + left. reflexivity.
    + right. left. reflexivity.
Defined.

(** The traversal of shape [0] with stride 0 over a one-byte buffer: the
    counter of the only dimension is compared with the size 0 after it
    has been incremented, so the loop alternates between emitting the byte
    and advancing the counter until the counter wraps around. *)
Lemma zero_size_spin (fuel : nat) : forall (k i : Z) q,
  0 <= k -> k + Z.of_nat fuel < 2 ^ 64 -> i = 0 \/ i = 1 ->
  loop releaseBuild [0] [0] (bufferOf [x61]) 1 1 1 false fuel
       {| idx := i; src := 0; counter := [k]; outQueue := q |}
  = Timeout.
Proof.
  induction fuel as [|fuel IH]; intros k i q Hk Hb Hi.
  - destruct Hi as [-> | ->]; reflexivity.
  - destruct Hi as [-> | ->].
    + rewrite (loop_step _ _ _ _ _ _ _ _ _ _
                 {| idx := 1; src := 0; counter := [k + 1]; outQueue := q |});
        [apply IH; auto; lia|simpl; lia|].
      change 1 with (Z.of_nat 1) at 2.
      rewrite (step_advance _ _ _ _ _ 1 _ _ _ 0%nat 0 0 k); try reflexivity; [|lia].
      cbv zeta. unfold add64 at 1. rewrite (u64_small (k + 1)) by lia.
      change (u64 0) with 0.
      destruct (Z.eqb_spec (k + 1) 0); [lia|].
      unfold add64 at 2. rewrite (u64_small (k + 1)) by lia. reflexivity.
    + rewrite (loop_step _ _ _ _ _ _ _ _ _ _
                 {| idx := 0; src := 0; counter := [k];
                    outQueue := q ++ [Pushed [x61]] |});
        [apply IH; auto; lia|simpl; lia|reflexivity].
Qed.

(** C5 as stated fails on a shape with a zero-size dimension outside the
    contiguous run, here shape [0] with stride 0 over a one-byte buffer.
    A debug build treats it as an error: it stops at
    [DCHECK_LE(contiguousSize, dataSize)].  A release build enters the
    general traversal, not an empty-payload path, and is still in it after
    any number of iterations below 2^64, a bound that does not depend on
    the size of the input. *)
Lemma zero_size_dimension_enters_traversal :
  (forall fuel,
     serialize debugBuild fuel [0] [0] (bufferOf [x61]) 0 1 NATIVE SHARE_NONE
     = Fatal) /\
  (forall fuel, Z.of_nat fuel < 2 ^ 64 ->
     serialize releaseBuild fuel [0] [0] (bufferOf [x61]) 0 1 NATIVE SHARE_NONE
     = Timeout).
Proof.
  split.
  - intros fuel. reflexivity.
  - intros fuel Hfuel.
    change (serialize releaseBuild fuel [0] [0] (bufferOf [x61]) 0 1 NATIVE SHARE_NONE)
      with ((loop releaseBuild [0] [0] (bufferOf [x61]) 1 1 1 false fuel
                  {| idx := 1; src := 0; counter := [0]; outQueue := [] |}
             ≫= fun o => Done (outQueue o))
            ≫= fun q => (queue_move_cloneInto q
            ≫= fun d => Done ({| dataType := 0; endianness := LITTLE;
                                 sizes := [0]; data := d |},
                              bufferOf [x61]))).
    rewrite zero_size_spin; auto; lia.
Qed.

(** ** Contract violations *)

Lemma DCHECK_false cfg : dchecks cfg = true -> DCHECK cfg false = Fatal.
Proof. unfold DCHECK, CHECK. now intros ->. Qed.

Lemma DCHECK_cases cfg c : DCHECK cfg c = Done tt \/ DCHECK cfg c = Fatal.
Proof. unfold DCHECK, CHECK. destruct (dchecks cfg), c; auto. Qed.

Lemma resolveEndianness_cases cfg e :
  (exists e', resolveEndianness cfg e = Done e') \/ resolveEndianness cfg e = Fatal.
Proof.
  unfold resolveEndianness, CHECK.
  destruct e, (gMachineEndianness cfg); simpl; eauto.
Qed.

(** An aliased run that ends past the end of the buffer fails the
    [DCHECK] of [partialCloneOne]. *)
Lemma emitRun_overrun cfg data cs src :
  dchecks cfg = true -> kMinCloneSize <= cs ->
  0 <= src -> src + cs < 2 ^ 64 -> io_length data < src + cs ->
  emitRun cfg data cs true src = Fatal.
Proof.
  intros Hd Hk Hs Hw Hout. unfold emitRun. cbn [andb].
  destruct (Z.leb_spec kMinCloneSize cs); [|lia].
  unfold partialCloneOne, add64. change kMinCloneSize with 4096 in *.
  rewrite u64_small by lia.
  destruct (Z.leb_spec (src + cs) (io_length data)); [lia|].
  now rewrite DCHECK_false.
Qed.

(** So does the first such run of a sequence whose runs all start inside
    the address range of the buffer. *)
Lemma emitAll_overrun cfg data cs srcs :
  dchecks cfg = true -> kMinCloneSize <= cs -> io_length data < 2 ^ 64 ->
  Forall (fun src => 0 <= src /\ src + cs < 2 ^ 64) srcs ->
  Exists (fun src => io_length data < src + cs) srcs ->
  emitAll (emitRun cfg data cs true) srcs = Fatal.
Proof.
  intros Hd Hk Hlen. change kMinCloneSize with 4096 in Hk.
  induction 1 as [|src srcs [Hlo Hhi] _ IH]; intros Hex.
  - inversion Hex.
  - cbn [emitAll].
    destruct (Z.le_gt_cases (src + cs) (io_length data)) as [Hin|Hout].
    + rewrite emitRun_exact, bind_Done by (auto; lia).
      apply Exists_cons in Hex as [Hex|Hex]; [lia|].
      now rewrite IH.
    + now rewrite emitRun_overrun by (auto; lia).
Qed.

(** In a debug build the general path stops at the [DCHECK] of
    [partialCloneOne] when runs are aliased and one of them ends past the
    end of the source buffer. *)
Lemma serialize_aliased_overrun cfg fuel sizes strides data dtype elementSize
    order sharing c (f : nat) :
  dchecks cfg = true -> isChained data = false ->
  order = NATIVE \/ order = gMachineEndianness cfg ->
  length strides = length sizes ->
  analyze cfg sizes strides = Done c ->
  firstContiguousDim c = Z.of_nat (S f) ->
  mayShareOf sharing data = true ->
  kMinCloneSize <= mul64 (contiguousSize c) elementSize ->
  Forall (fun s => 0 < s < 2 ^ 64) (take (S f) sizes) ->
  io_length data < 2 ^ 64 ->
  (forall e, In e (rowMajor (take (S f) sizes) (take (S f) strides) 0) ->
     0 <= e * elementSize /\
     e * elementSize + mul64 (contiguousSize c) elementSize < 2 ^ 64) ->
  (exists e, In e (rowMajor (take (S f) sizes) (take (S f) strides) 0) /\
     io_length data < e * elementSize + mul64 (contiguousSize c) elementSize) ->
  (odometerSteps (take (S f) sizes) <= fuel)%nat ->
  serialize cfg fuel sizes strides data dtype elementSize order sharing = Fatal.
Proof.
  intros Hd Hch Hord Hls Han Hfcd Hshare Hk Hpos Hlen Hin (e0 & He0 & Hout) Hfuel.
  pose proof (analyze_range _ _ _ _ Han) as Hr. rewrite Hfcd in Hr.
  unfold serialize. rewrite Hch. cbn [negb].
  rewrite DCHECK_true, bind_Done, (resolveEndianness_native _ _ Hord), bind_Done.
  rewrite Han, bind_Done. cbv zeta.
  destruct (DCHECK_cases cfg
              (mul64 (contiguousSize c) elementSize <=? mul64 (dataSize c) elementSize))
    as [-> | ->]; [|reflexivity].
  rewrite bind_Done.
  destruct (Z.eqb_spec (Z.of_nat (length sizes)) 0) as [E|_]; [lia|].
  rewrite Hfcd.
  destruct (Z.eqb_spec (Z.of_nat (S f)) 0) as [E|_]; [lia|].
  rewrite traverse_emits by (auto; lia). rewrite Hshare.
  rewrite emitAll_overrun; auto.
  - apply Forall_forall. intros src Hsrc.
    apply list_elem_of_In, in_map_iff in Hsrc as (e & <- & He).
    destruct (Hin e He) as [Hlo Hhi]. rewrite u64_small; [lia|].
    pose proof (u64_range (contiguousSize c * elementSize)). unfold mul64 in Hhi. lia.
  - apply Exists_exists. exists (u64 (e0 * elementSize)). split.
    + apply list_elem_of_In, in_map_iff. exists e0. auto.
    + destruct (Hin e0 He0) as [Hlo Hhi]. rewrite u64_small; [lia|].
      pose proof (u64_range (contiguousSize c * elementSize)). unfold mul64 in Hhi. lia.
Qed.

(** In a debug build the fast path stops at [DCHECK_GE(data.length(),
    dataSize)] when the payload is longer than the source buffer, with
    implicit and with explicit strides. *)
Lemma serialize_fast_path_overrun cfg fuel sizes strides data dtype elementSize
    order sharing c :
  dchecks cfg = true -> isChained data = false ->
  order = NATIVE \/ order = gMachineEndianness cfg ->
  sizes <> [] ->
  analyze cfg sizes strides = Done c ->
  firstContiguousDim c = 0 ->
  io_length data < mul64 (dataSize c) elementSize ->
  serialize cfg fuel sizes strides data dtype elementSize order sharing = Fatal.
Proof.
  intros Hd Hch Hord Hne Han Hfcd Hout.
  unfold serialize. rewrite Hch. cbn [negb].
  rewrite DCHECK_true, bind_Done, (resolveEndianness_native _ _ Hord), bind_Done.
  rewrite Han, bind_Done. cbv zeta.
  destruct (DCHECK_cases cfg
              (mul64 (contiguousSize c) elementSize <=? mul64 (dataSize c) elementSize))
    as [-> | ->]; [|reflexivity].
  rewrite bind_Done.
  destruct (Z.eqb_spec (Z.of_nat (length sizes)) 0) as [E|_].
  { destruct sizes; [done|simpl in E; lia]. }
  rewrite Hfcd, Z.eqb_refl.
  destruct (Z.leb_spec (mul64 (dataSize c) elementSize) (io_length data)); [lia|].
  now rewrite DCHECK_false.
Qed.

(** C6, as amended.  An explicit byte order that is not that of the
    machine stops the process at a [CHECK] in every build.  In the builds
    that compile [DCHECK] in, the process is stopped at a [DCHECK] by a
    chained source buffer, by strides that are not empty and whose number
    differs from the number of sizes, by a fast-path payload, with implicit
    or explicit strides, that is longer than the source buffer, and, on
    the general path of a view with positive leading sizes whose runs
    start at non-negative offsets, by an aliased run that ends past the end
    of the source buffer; the assertion of [partialCloneOne] is on the sum
    of offset and length modulo 2^64.  The byte order [NATIVE] is resolved
    to that of the machine and is not an error: the call behaves as with
    the machine order. *)
Theorem contract_violations
    (cfg : Build) (fuel : nat) (sizes strides : list Z) (data : IOBuf)
    (dtype : ThriftTensorDataType) (elementSize : Z)
    (endianness : ThriftTensorEndianness) (sharing : SharingMode)
    (offset length : Z) (c : Contiguity) (f : nat) :
  (endianness <> NATIVE -> endianness <> gMachineEndianness cfg ->
   serialize cfg fuel sizes strides data dtype elementSize endianness sharing
   = Fatal) /\
  (dchecks cfg = true -> isChained data = true ->
   serialize cfg fuel sizes strides data dtype elementSize endianness sharing
   = Fatal) /\
  (dchecks cfg = true -> strides <> [] ->
   List.length strides <> List.length sizes ->
   serialize cfg fuel sizes strides data dtype elementSize endianness sharing
   = Fatal) /\
  (dchecks cfg = true -> io_length data < add64 offset length ->
   partialCloneOne cfg data offset length = Fatal) /\
  (dchecks cfg = true -> isChained data = false ->
   endianness = NATIVE \/ endianness = gMachineEndianness cfg ->
   List.length strides = List.length sizes ->
   analyze cfg sizes strides = Done c ->
   firstContiguousDim c = Z.of_nat (S f) ->
   mayShareOf sharing data = true ->
   kMinCloneSize <= mul64 (contiguousSize c) elementSize ->
   Forall (fun s => 0 < s < 2 ^ 64) (take (S f) sizes) ->
   io_length data < 2 ^ 64 ->
   (forall e, In e (rowMajor (take (S f) sizes) (take (S f) strides) 0) ->
      0 <= e * elementSize /\
      e * elementSize + mul64 (contiguousSize c) elementSize < 2 ^ 64) ->
   (exists e, In e (rowMajor (take (S f) sizes) (take (S f) strides) 0) /\
      io_length data < e * elementSize + mul64 (contiguousSize c) elementSize) ->
   (odometerSteps (take (S f) sizes) <= fuel)%nat ->
   serialize cfg fuel sizes strides data dtype elementSize endianness sharing
   = Fatal) /\
  (dchecks cfg = true -> isChained data = false ->
   endianness = NATIVE \/ endianness = gMachineEndianness cfg ->
   sizes <> [] ->
   analyze cfg sizes strides = Done c ->
   firstContiguousDim c = 0 ->
   io_length data < mul64 (dataSize c) elementSize ->
   serialize cfg fuel sizes strides data dtype elementSize endianness sharing
   = Fatal) /\
  (dchecks cfg = true -> isChained data = false ->
   endianness = NATIVE \/ endianness = gMachineEndianness cfg ->
   sizes <> [] ->
   io_length data < mul64 (u64 (prodZ sizes)) elementSize ->
   serialize cfg fuel sizes [] data dtype elementSize endianness sharing
   = Fatal) /\
  resolveEndianness cfg NATIVE = Done (gMachineEndianness cfg) /\
  serialize cfg fuel sizes strides data dtype elementSize NATIVE sharing
  = serialize cfg fuel sizes strides data dtype elementSize
              (gMachineEndianness cfg) sharing.
Proof.
  split; [|split; [|split; [|split; [|split; [|split; [|split; [|split]]]]]]].
  - (* byte order *)
    intros Hn Hm. unfold serialize.
    destruct (DCHECK_cases cfg (negb (isChained data))) as [-> | ->]; [|done].
    rewrite bind_Done.
    assert (Hr : resolveEndianness cfg endianness = Fatal).
    { unfold resolveEndianness, gMachineEndianness, CHECK in *.
      destruct endianness, (littleEndianHost cfg); simpl; congruence. }
    now rewrite Hr.
  - (* chained buffer *)
    intros Hd Hch. unfold serialize. rewrite Hch. cbn [negb].
    now rewrite DCHECK_false.
  - (* number of strides *)
    intros Hd Hne Hlen. unfold serialize.
    destruct (DCHECK_cases cfg (negb (isChained data))) as [-> | ->]; [|done].
    rewrite bind_Done.
    destruct (resolveEndianness_cases cfg endianness) as [[e' ->] | ->]; [|done].
    rewrite bind_Done. unfold analyze.
    destruct strides as [|t strides']; [done|].
    destruct (Z.eqb_spec (Z.of_nat (List.length (t :: strides')))
                         (Z.of_nat (List.length sizes))) as [E|E]; [lia|].
    now rewrite DCHECK_false.
  - (* the assertion of partialCloneOne *)
    intros Hd Hout. unfold partialCloneOne.
    destruct (Z.leb_spec (add64 offset length) (io_length data)); [lia|].
    now rewrite DCHECK_false.
  - (* aliased run of the general path *)
    apply serialize_aliased_overrun.
  - (* fast path *)
    apply serialize_fast_path_overrun.
  - (* fast path, implicit strides *)
    intros Hd Hch Hend Hne Hout.
    apply (serialize_fast_path_overrun cfg fuel sizes [] data dtype elementSize
             endianness sharing _ Hd Hch Hend Hne (analyze_implicit cfg sizes));
      [reflexivity|exact Hout].
  - (* NATIVE *)
    reflexivity.
  - unfold serialize.
    destruct (DCHECK_cases cfg (negb (isChained data))) as [-> | ->]; [|done].
    rewrite !bind_Done.
    rewrite (resolveEndianness_native cfg NATIVE) by auto.
    now rewrite (resolveEndianness_native cfg (gMachineEndianness cfg)) by auto.
Qed.

(** One input for each violation: a byte order that is not that of the
    machine, in a release build; a chained buffer; one stride for two
    sizes; a clone past the end of the buffer; two aliased runs of 4096
    bytes of which the second starts at byte 1 of a buffer of 4096 bytes;
    seven elements with the explicit stride 1, and with implicit strides,
    over six bytes. *)
Lemma contract_violations_witness :
  serialize releaseBuild 0 [2] [] (bufferOf abcdef) 0 1 BIG SHARE_NONE = Fatal /\
  serialize debugBuild 0 [2] [] (chainOf abcdef abcdef) 0 1 NATIVE SHARE_NONE
    = Fatal /\
  serialize debugBuild 0 [2; 3] [1] (bufferOf abcdef) 0 1 NATIVE SHARE_NONE
    = Fatal /\
  partialCloneOne debugBuild (bufferOf abcdef) 4 4096 = Fatal /\
  serialize debugBuild 4 [2; 4096] [1; 1] (bufferOf (replicate 4096 x00)) 0 1
            NATIVE SHARE_ALL = Fatal /\
  serialize debugBuild 0 [7] [1] (bufferOf abcdef) 0 1 NATIVE SHARE_NONE = Fatal /\
  serialize debugBuild 0 [7] [] (bufferOf abcdef) 0 1 NATIVE SHARE_NONE = Fatal.
Proof.
  split; [|split; [|split; [|split; [|split; [|split]]]]].
  - apply (proj1 (contract_violations releaseBuild 0 [2] [] (bufferOf abcdef)
                    0 1 BIG SHARE_NONE 0 0
                    {| firstContiguousDim := 0; contiguousSize := 0; dataSize := 0 |}
                    0)); discriminate.
  - apply (proj1 (proj2 (contract_violations debugBuild 0 [2] []
                           (chainOf abcdef abcdef) 0 1 NATIVE SHARE_NONE 0 0
                           {| firstContiguousDim := 0; contiguousSize := 0;
                              dataSize := 0 |} 0)));
      reflexivity.
  - apply (proj1 (proj2 (proj2 (contract_violations debugBuild 0 [2; 3] [1]
                           (bufferOf abcdef) 0 1 NATIVE SHARE_NONE 0 0
                           {| firstContiguousDim := 0; contiguousSize := 0;
                              dataSize := 0 |} 0))));
      [reflexivity|discriminate|discriminate].
  - apply (proj1 (proj2 (proj2 (proj2 (contract_violations debugBuild 0 [] []
                           (bufferOf abcdef) 0 1 NATIVE SHARE_NONE 4 4096
                           {| firstContiguousDim := 0; contiguousSize := 0;
                              dataSize := 0 |} 0)))));
      [reflexivity|vm_compute; reflexivity].
  - apply (proj1 (proj2 (proj2 (proj2 (proj2 (contract_violations debugBuild 4
                           [2; 4096] [1; 1] (bufferOf (replicate 4096 x00)) 0 1
                           NATIVE SHARE_ALL 0 0
                           {| firstContiguousDim := 1; contiguousSize := 4096;
                              dataSize := 8192 |} 0)))))).
    + reflexivity.
    + reflexivity.
    + left. reflexivity.
    + reflexivity.
    + vm_compute. reflexivity.
    + reflexivity.
    + reflexivity.
    + vm_compute. discriminate.
    + repeat constructor; vm_compute; congruence.
    + vm_compute. reflexivity.
    + intros e He. vm_compute in He. cbn [contiguousSize].
      change (mul64 4096 1) with 4096.
      repeat (destruct He as [<- | He]; [lia|]). destruct He.
    + exists 1. split; [vm_compute; auto|].
      cbn [contiguousSize]. change (mul64 4096 1) with 4096.
      change (io_length (bufferOf (replicate 4096 x00))) with 4096. lia.
    + vm_compute. lia.
  - apply (proj1 (proj2 (proj2 (proj2 (proj2 (proj2 (contract_violations
                           debugBuild 0 [7] [1] (bufferOf abcdef) 0 1 NATIVE
                           SHARE_NONE 0 0
                           {| firstContiguousDim := 0; contiguousSize := 7;
                              dataSize := 7 |} 0))))))).
    + reflexivity.
    + reflexivity.
    + left. reflexivity.
    + discriminate.
    + vm_compute. reflexivity.
    + reflexivity.
    + vm_compute. reflexivity.
  - apply (proj1 (proj2 (proj2 (proj2 (proj2 (proj2 (proj2 (contract_violations
                           debugBuild 0 [7] [] (bufferOf abcdef) 0 1 NATIVE
                           SHARE_NONE 0 0
                           {| firstContiguousDim := 0; contiguousSize := 0;
                              dataSize := 0 |} 0))))))));
      [reflexivity|reflexivity|left; reflexivity|discriminate
      |vm_compute; reflexivity].
Defined.

(** C6 as stated fails for a copied run that exceeds the source buffer.
    Shape [2] with stride 3 over a two-byte buffer under [SHARE_NONE]: the
    second run starts at offset 3.  [appender.push] reads it without any
    check, in a debug build too; only [partialCloneOne], on the aliasing
    branch, asserts the bounds.  And a [DCHECK] is compiled out of a release
    build: there a chained source buffer is serialized without complaint. *)
Lemma copied_run_out_of_bounds_not_asserted :
  serialize debugBuild 3 [2] [3] (bufferOf [x61; x62]) 0 1 NATIVE SHARE_NONE
    = Undefined /\
  (forall fuel,
     serialize debugBuild fuel [2] [3] (bufferOf [x61; x62]) 0 1 NATIVE SHARE_NONE
     <> Fatal) /\
  exists out rest,
    serialize releaseBuild 0 [2] [] (chainOf abcdef abcdef) 0 1 NATIVE SHARE_NONE
    = Done (out, rest).
Proof.
  split; [reflexivity|]. split.
  - intros fuel.
    do 3 (destruct fuel as [|fuel]; [vm_compute; discriminate|]).
    vm_compute. discriminate.
  - eexists _, _. vm_compute. reflexivity.
Qed.

(* ================================================================== *)
(** * Further properties of the serializer *)

(** ** The fields of the record *)

(** X1. Whatever the path, a call that returns has written the data type
    and the sizes it was given to the record, and as byte order that of
    the machine: [NATIVE] never reaches the wire, and an explicit order is
    accepted only when it is the order written. *)
Theorem record_fields
    (cfg : Build) (fuel : nat) (shape strides : list Z) (source : IOBuf)
    (dtype : ThriftTensorDataType) (elementSize : Z)
    (order : ThriftTensorEndianness) (sharing : SharingMode)
    (out : ThriftTensor) (source' : IOBuf) :
  serialize cfg fuel shape strides source dtype elementSize order sharing
    = Done (out, source') ->
  dataType out = dtype /\ sizes out = shape /\
  endianness out = gMachineEndianness cfg /\
  endianness out <> NATIVE /\
  (order = NATIVE \/ order = endianness out).
Proof.
  intros H. pose proof (serialize_record _ _ _ _ _ _ _ _ _ _ _ H) as (Hd & Hs & He).
  repeat split; auto.
  - rewrite He. unfold gMachineEndianness. destruct (littleEndianHost cfg); discriminate.
  - rewrite He. unfold serialize in H. do 2 done_inv H.
    unfold resolveEndianness, CHECK, gMachineEndianness in *.
    destruct order, (littleEndianHost cfg); simpl in *; auto; discriminate.
Qed.

Lemma record_fields_witness :
  exists out source',
    serialize debugBuild 14 [2; 3] [1; 2] (bufferOf abcdef) 5 1 LITTLE SHARE_NONE
      = Done (out, source') /\
    dataType out = 5 /\ sizes out = [2; 3] /\
    endianness out = LITTLE /\ endianness out <> NATIVE /\
    (LITTLE = NATIVE \/ LITTLE = endianness out).
Proof.
  eexists _, _.
  assert (H : serialize debugBuild 14 [2; 3] [1; 2] (bufferOf abcdef) 5 1 LITTLE
                SHARE_NONE = Done (_, _)) by (vm_compute; reflexivity).
  split; [exact H|].
  exact (record_fields _ _ _ _ _ _ _ _ _ _ _ H).
Defined.

(** ** Assertions only remove behaviours *)

Lemma assertsOr_bind {A B : Type} (m m' : outcome A) (k k' : A -> outcome B) :
  assertsOr m m' -> (forall a, assertsOr (k a) (k' a)) ->
  assertsOr (m ≫= k) (m' ≫= k').
Proof.
  intros [-> | ->] Hk; [now left|].
  destruct m' as [a| | |]; simpl; [apply Hk|now left|now right|now right].
Qed.

Lemma assertsOr_refl {A : Type} (r : outcome A) : assertsOr r r.
Proof. now right. Qed.

Lemma DCHECK_assertsOr host c :
  assertsOr (DCHECK {| dchecks := true; littleEndianHost := host |} c)
            (DCHECK {| dchecks := false; littleEndianHost := host |} c).
Proof. unfold DCHECK, CHECK. simpl. destruct c; [now right|now left]. Qed.

Lemma loop_assertsOr host sizes strides data elementSize fcd cs mayShare fuel :
  forall o,
    assertsOr
      (loop {| dchecks := true; littleEndianHost := host |} sizes strides data
            elementSize fcd cs mayShare fuel o)
      (loop {| dchecks := false; littleEndianHost := host |} sizes strides data
            elementSize fcd cs mayShare fuel o).
Proof.
  induction fuel as [|fuel IH]; intros o; simpl;
    destruct (idx o <? 0); try apply assertsOr_refl.
  apply assertsOr_bind; [|exact IH].
  unfold step. destruct (idx o =? fcd); [|apply assertsOr_refl].
  apply assertsOr_bind; [|intros; apply assertsOr_refl].
  unfold emitRun. destruct (mayShare && (kMinCloneSize <=? cs));
    [|apply assertsOr_refl].
  apply assertsOr_bind; [|intros; apply assertsOr_refl].
  unfold partialCloneOne.
  apply assertsOr_bind; [apply DCHECK_assertsOr|intros; apply assertsOr_refl].
Qed.

(** X3. The [DCHECK]s of [serialize] and [partialCloneOne] are pure
    checks: on every input a debug build either stops at an assertion or
    does exactly what the release build does, result, source buffer and
    failure included. *)
Theorem debug_build_asserts_or_agrees
    (host : bool) (fuel : nat) (sizes strides : list Z) (data : IOBuf)
    (dtype : ThriftTensorDataType) (elementSize : Z)
    (endianness : ThriftTensorEndianness) (sharing : SharingMode) :
  assertsOr
    (serialize {| dchecks := true; littleEndianHost := host |} fuel sizes strides
               data dtype elementSize endianness sharing)
    (serialize {| dchecks := false; littleEndianHost := host |} fuel sizes strides
               data dtype elementSize endianness sharing).
Proof.
  unfold serialize. cbv zeta.
  apply assertsOr_bind; [apply DCHECK_assertsOr|intros _].
  apply assertsOr_bind; [apply assertsOr_refl|intros e].
  apply assertsOr_bind.
  { unfold analyze. destruct strides as [|t strides']; [apply assertsOr_refl|].
    apply assertsOr_bind; [apply DCHECK_assertsOr|intros; apply assertsOr_refl]. }
  intros c.
  apply assertsOr_bind; [apply DCHECK_assertsOr|intros _].
  destruct (Z.of_nat (length sizes) =? 0); [apply assertsOr_refl|].
  destruct (firstContiguousDim c =? 0).
  - apply assertsOr_bind; [apply DCHECK_assertsOr|intros; apply assertsOr_refl].
  - apply assertsOr_bind; [|intros; apply assertsOr_refl].
    unfold traverse.
    apply assertsOr_bind; [apply loop_assertsOr|intros; apply assertsOr_refl].
Qed.

(** ** partialCloneOne *)

(** X4. The clone of a run that lies inside the buffer is a single,
    unchained buffer over the allocation of the source, managed as the
    source is, whose data are the [length] bytes from [offset] on; the
    call returns it in every build. *)
Theorem partialCloneOne_exact
    (cfg : Build) (buf : IOBuf) (offset length : Z) :
  0 <= offset -> 0 <= length < 2 ^ 64 -> io_length buf < 2 ^ 64 ->
  offset + length <= io_length buf ->
  exists cloned,
    partialCloneOne cfg buf offset length = Done cloned /\
    chain_bytes cloned
      = take (Z.to_nat length) (drop (Z.to_nat offset) (data_bytes buf)) /\
    io_length cloned = length /\
    isChained cloned = false /\
    seg_buffer (io_head cloned) = seg_buffer (io_head buf) /\
    isManagedOne cloned = isManagedOne buf.
Proof.
  intros Hoff Hn Hlen Hin.
  eexists. split; [apply partialCloneOne_eq; auto; lia|].
  rewrite chain_bytes_single. cbn [with_bytes seg_bytes].
  repeat split.
  unfold io_length in *. unfold data_bytes at 1.
  cbn [io_head with_bytes seg_bytes].
  rewrite length_take_drop by lia. lia.
Qed.

Lemma partialCloneOne_exact_witness :
  exists cloned,
    partialCloneOne debugBuild (bufferOf abcdef) 2 3 = Done cloned /\
    chain_bytes cloned
      = take (Z.to_nat 3) (drop (Z.to_nat 2) (data_bytes (bufferOf abcdef))) /\
    io_length cloned = 3 /\
    isChained cloned = false /\
    seg_buffer (io_head cloned) = seg_buffer (io_head (bufferOf abcdef)) /\
    isManagedOne cloned = isManagedOne (bufferOf abcdef).
Proof.
  apply (partialCloneOne_exact debugBuild (bufferOf abcdef) 2 3
           ltac:(lia) ltac:(lia) ltac:(vm_compute; reflexivity)).
  vm_compute. congruence.
Defined.

Lemma take_drop_take {A : Type} (l : list A) (o1 n1 o2 n2 : nat) :
  (o2 + n2 <= n1)%nat ->
  take n2 (drop o2 (take n1 (drop o1 l))) = take n2 (drop (o1 + o2) l).
Proof.
  intros H. rewrite (take_drop_commute _ n2 o2), take_take.
  replace (min (o2 + n2) n1) with (o2 + n2)%nat by lia.
  rewrite <- take_drop_commute, drop_drop. reflexivity.
Qed.

(** X5. Clones compose: the clone of a run of a clone is the clone of the
    corresponding run of the original buffer, at the sum of the offsets. *)
Theorem partialCloneOne_compose
    (cfg : Build) (buf cloned : IOBuf) (offset1 length1 offset2 length2 : Z) :
  0 <= offset1 -> 0 <= length1 -> 0 <= offset2 -> 0 <= length2 ->
  offset1 + length1 <= io_length buf -> io_length buf < 2 ^ 64 ->
  offset2 + length2 <= length1 ->
  partialCloneOne cfg buf offset1 length1 = Done cloned ->
  partialCloneOne cfg cloned offset2 length2
  = partialCloneOne cfg buf (offset1 + offset2) length2.
Proof.
  intros Ho1 Hl1 Ho2 Hl2 Hin1 Hlen Hin2 Hc.
  rewrite partialCloneOne_eq in Hc by auto. injection Hc as <-.
  assert (Hlc : io_length
                  {| io_head := with_bytes (io_head buf)
                       (take (Z.to_nat length1)
                             (drop (Z.to_nat offset1) (data_bytes buf)));
                     io_rest := [] |} = length1).
  { unfold io_length in *. unfold data_bytes at 1.
    cbn [io_head with_bytes seg_bytes]. rewrite length_take_drop by lia. lia. }
  rewrite !partialCloneOne_eq by lia.
  unfold data_bytes at 1. cbn [io_head with_bytes seg_bytes seg_buffer seg_managed].
  unfold with_bytes. cbn [seg_buffer seg_managed].
  change (data_bytes {| io_head := ?h; io_rest := _ |}) with (seg_bytes h).
  cbn [seg_bytes]. rewrite take_drop_take by lia.
  do 5 f_equal. lia.
Qed.

Lemma partialCloneOne_compose_witness :
  partialCloneOne debugBuild
    {| io_head := with_bytes (io_head (bufferOf abcdef)) [x62; x63; x64; x65];
       io_rest := [] |} 1 2
  = partialCloneOne debugBuild (bufferOf abcdef) (1 + 1) 2.
Proof.
  apply (partialCloneOne_compose debugBuild (bufferOf abcdef) _ 1 4 1 2);
    try lia; try (vm_compute; congruence); reflexivity.
Defined.

(** ** The runs of the general path *)

Lemma emitRun_runOfSource cfg data cs mayShare src c :
  0 <= cs < 2 ^ 64 -> io_length data < 2 ^ 64 -> 0 <= src ->
  emitRun cfg data cs mayShare src = Done c -> runOfSource data cs c.
Proof.
  intros Hcs Hlen Hsrc H. unfold emitRun in H.
  destruct (Z.le_gt_cases (src + cs) (io_length data)) as [Hin|Hout].
  - destruct (mayShare && (kMinCloneSize <=? cs)).
    + rewrite partialCloneOne_eq in H by (auto; lia). simpl in H.
      injection H as <-. split; [|done].
      exists src. repeat split; auto. simpl. apply chain_bytes_single.
    + rewrite read_bytes_Done in H by (auto; lia). simpl in H.
      injection H as <-. split; [|done]. exists src. auto.
  - exfalso. destruct (mayShare && (kMinCloneSize <=? cs)).
    + destruct (partialCloneOne_outside cfg data src cs) as [E|E]; auto;
        rewrite E in H; discriminate.
    + unfold read_bytes in H.
      destruct (Z.leb_spec (src + cs) (io_length data)); [lia|discriminate].
Qed.

Lemma loop_runOfSource cfg sizes strides data elementSize fcd cs mayShare fuel :
  0 <= cs < 2 ^ 64 -> io_length data < 2 ^ 64 ->
  forall o o',
    0 <= src o -> Forall (runOfSource data cs) (outQueue o) ->
    loop cfg sizes strides data elementSize fcd cs mayShare fuel o = Done o' ->
    Forall (runOfSource data cs) (outQueue o').
Proof.
  intros Hcs Hlen. induction fuel as [|fuel IH]; intros o o' Hsrc Hq H;
    simpl in H; destruct (idx o <? 0); try discriminate;
    try (injection H as <-; done).
  done_inv H. apply (IH a o'); [| |exact H]; clear H IH.
  - unfold step in Ha. destruct (idx o =? fcd).
    + done_inv Ha. injection Ha as <-. done.
    + do 3 done_inv Ha. destruct (_ =? _); injection Ha as <-; simpl;
        apply u64_range.
  - unfold step in Ha. destruct (idx o =? fcd).
    + done_inv Ha. injection Ha as <-. simpl.
      apply Forall_app. split; [done|]. constructor; [|constructor].
      eapply emitRun_runOfSource; eauto.
    + do 3 done_inv Ha. destruct (_ =? _); injection Ha as <-; done.
Qed.

Lemma traverse_runOfSource cfg fuel sizes strides data elementSize sharing fcd cs q :
  0 <= cs < 2 ^ 64 -> io_length data < 2 ^ 64 ->
  traverse cfg fuel sizes strides data elementSize sharing fcd cs = Done q ->
  Forall (runOfSource data cs) q /\
  Forall (fun c => Z.of_nat (length (chunk_bytes c)) = cs) q.
Proof.
  intros Hcs Hlen H. unfold traverse in H. done_inv H. injection H as <-.
  assert (Hq : Forall (runOfSource data cs) (outQueue a)).
  { eapply loop_runOfSource; [exact Hcs|exact Hlen| | |exact Ha]; simpl;
      [lia|constructor]. }
  split; [exact Hq|].
  eapply Forall_impl; [exact Hq|].
  intros c [(off & Ho & Hin & Hb) _]. rewrite Hb.
  unfold io_length in Hin. rewrite length_take_drop by lia. lia.
Qed.

(** X6. Every run that a traversal has put in the output queue holds
    exactly [contiguousSize] bytes, and an aliased run is a single
    unchained buffer over the allocation of the source. *)
Theorem runs_have_run_length
    (cfg : Build) (fuel : nat) (sizes strides : list Z) (data : IOBuf)
    (elementSize : Z) (sharing : SharingMode)
    (firstContiguousDim contiguousSize : Z) (q : list Chunk) :
  0 <= contiguousSize < 2 ^ 64 -> io_length data < 2 ^ 64 ->
  traverse cfg fuel sizes strides data elementSize sharing
           firstContiguousDim contiguousSize = Done q ->
  Forall (fun c =>
            Z.of_nat (length (chunk_bytes c)) = contiguousSize /\
            match c with
            | Inserted b =>
                isChained b = false /\
                seg_buffer (io_head b) = seg_buffer (io_head data)
            | Pushed _ => True
            end) q.
Proof.
  intros Hcs Hlen H.
  destruct (traverse_runOfSource _ _ _ _ _ _ _ _ _ _ Hcs Hlen H) as [Hruns Hlens].
  rewrite Forall_forall in Hruns, Hlens. apply Forall_forall. intros c Hc.
  split; [now apply Hlens|]. now destruct (Hruns c Hc).
Qed.

Lemma runs_have_run_length_witness :
  exists q,
    traverse debugBuild 4 [2; 4096] [0; 1] (bufferOf (replicate 4096 x00)) 1
             SHARE_ALL 1 4096 = Done q /\
    Forall (fun c =>
              Z.of_nat (length (chunk_bytes c)) = 4096 /\
              match c with
              | Inserted b =>
                  isChained b = false /\
                  seg_buffer (io_head b)
                  = seg_buffer (io_head (bufferOf (replicate 4096 x00)))
              | Pushed _ => True
              end) q.
Proof.
  eexists. split; [vm_compute; reflexivity|].
  apply (runs_have_run_length debugBuild 4 [2; 4096] [0; 1]
           (bufferOf (replicate 4096 x00)) 1 SHARE_ALL 1 4096).
  - lia.
  - vm_compute. reflexivity.
  - vm_compute. reflexivity.
Defined.

Lemma length_flat_map_const {A B : Type} (f : A -> list B) (l : list A) (n : nat) :
  (forall x, In x l -> length (f x) = n) ->
  length (flat_map f l) = (length l * n)%nat.
Proof.
  induction l as [|x l IH]; intros H; simpl; [done|].
  rewrite length_app, H by (simpl; auto).
  rewrite IH; [lia|]. intros y Hy. apply H. simpl. auto.
Qed.

Lemma prodZ_nonneg l : Forall (fun s => 0 <= s) l -> 0 <= prodZ l.
Proof. unfold prodZ. induction 1; simpl; lia. Qed.

(** A view has as many elements as the product of its sizes. *)
Lemma length_rowMajor sizes : forall strides base,
  length strides = length sizes -> Forall (fun s => 0 <= s) sizes ->
  Z.of_nat (length (rowMajor sizes strides base)) = prodZ sizes.
Proof.
  induction sizes as [|s sizes IH]; intros [|t strides] base Hlen Hpos;
    try discriminate; [reflexivity|].
  apply Forall_cons in Hpos as [Hs Hpos]. simpl rowMajor.
  rewrite (length_flat_map_const _ _ (Z.to_nat (prodZ sizes))).
  - rewrite length_seqZ. change (prodZ (s :: sizes)) with (s * prodZ sizes).
    pose proof (prodZ_nonneg sizes Hpos). nia.
  - intros i _. specialize (IH strides (base + i * t)).
    rewrite <- IH by (simpl in Hlen; auto; lia). lia.
Qed.

Lemma length_queue_bytes q (n : nat) :
  Forall (fun c => length (chunk_bytes c) = n) q ->
  length (queue_bytes q) = (length q * n)%nat.
Proof.
  unfold queue_bytes. induction 1 as [|c q Hc _ IH]; simpl; [done|].
  rewrite length_app, Hc, IH. lia.
Qed.

(** X7. The general path emits one run for each combination of indices of
    the leading dimensions, no more and no fewer: their number is the
    product of the sizes of these dimensions. *)
Theorem one_run_per_index_combination
    (cfg : Build) (fuel : nat) (sizes strides : list Z) (data : IOBuf)
    (elementSize : Z) (sharing : SharingMode) (f : nat) (contiguousSize : Z) :
  (f <= length sizes)%nat -> (f <= length strides)%nat ->
  Forall (fun s => 0 < s < 2 ^ 64) (take f sizes) ->
  0 < contiguousSize < 2 ^ 64 -> io_length data < 2 ^ 64 ->
  (forall e, In e (rowMajor (take f sizes) (take f strides) 0) ->
     runInBuffer data elementSize contiguousSize e) ->
  (odometerSteps (take f sizes) <= fuel)%nat ->
  exists q,
    traverse cfg fuel sizes strides data elementSize sharing (Z.of_nat f)
             contiguousSize = Done q /\
    Z.of_nat (length q) = prodZ (take f sizes).
Proof.
  intros Hf1 Hf2 Hpos Hcs Hlen Hin Hfuel.
  destruct (traverse_row_major cfg fuel sizes strides data elementSize sharing f
              contiguousSize) as (q & Hq & Hbytes); auto; try lia.
  exists q. split; [exact Hq|].
  destruct (traverse_runOfSource cfg fuel sizes strides data elementSize sharing
              (Z.of_nat f) contiguousSize q ltac:(lia) Hlen Hq) as [_ Hlens].
  assert (Hl1 : length (queue_bytes q) = (length q * Z.to_nat contiguousSize)%nat).
  { apply length_queue_bytes. eapply Forall_impl; [exact Hlens|].
    intros c Hc. cbn beta in Hc. lia. }
  assert (Hl2 : length (flat_map (runBytes (data_bytes data) elementSize contiguousSize)
                          (rowMajor (take f sizes) (take f strides) 0))
                = (length (rowMajor (take f sizes) (take f strides) 0)
                   * Z.to_nat contiguousSize)%nat).
  { apply length_flat_map_const. intros e He.
    destruct (Hin e He) as [Hlo Hhi]. unfold runBytes.
    unfold io_length in Hhi. apply length_take_drop. lia. }
  rewrite Hbytes, Hl2 in Hl1.
  assert (Hc : length q = length (rowMajor (take f sizes) (take f strides) 0)) by nia.
  rewrite Hc. apply length_rowMajor.
  - rewrite !length_take. lia.
  - eapply Forall_impl; [exact Hpos|]. intros s Hs. cbn beta in Hs. lia.
Qed.

Lemma one_run_per_index_combination_witness :
  exists q,
    traverse debugBuild 14 [2; 3] [1; 2] (bufferOf abcdef) 1 SHARE_NONE
             (Z.of_nat 2) 1 = Done q /\
    Z.of_nat (length q) = prodZ (take 2 [2; 3]).
Proof.
  apply (one_run_per_index_combination debugBuild 14 [2; 3] [1; 2]
           (bufferOf abcdef) 1 SHARE_NONE 2 1).
  - simpl. lia.
  - simpl. lia.
  - repeat constructor; vm_compute; congruence.
  - lia.
  - vm_compute. reflexivity.
  - intros e He. vm_compute in He. unfold runInBuffer.
    change (io_length (bufferOf abcdef)) with 6.
    repeat (destruct He as [<- | He]; [lia|]). destruct He.
  - vm_compute. lia.
Defined.

(** ** The length of the payload *)

Lemma length_elementBytes (bs : list byte) elementSize e :
  0 <= e -> 0 <= elementSize ->
  (e + 1) * elementSize <= Z.of_nat (length bs) ->
  length (elementBytes bs elementSize e) = Z.to_nat elementSize.
Proof. intros He Hes Hin. unfold elementBytes. apply length_take_drop. nia. Qed.

Lemma length_logicalBytes sizes strides (bs : list byte) elementSize :
  sizes <> [] ->
  length (effectiveStrides sizes strides) = length sizes ->
  Forall (fun s => 0 < s) sizes -> 0 < elementSize ->
  viewInBuffer sizes strides elementSize (Z.of_nat (length bs)) ->
  Z.of_nat (length (logicalBytes sizes strides bs elementSize))
  = prodZ sizes * elementSize.
Proof.
  intros Hne Hlen Hpos Hes Hview. unfold logicalBytes, viewInBuffer in *.
  assert (Hoff : viewOffsets sizes strides
                 = rowMajor sizes (effectiveStrides sizes strides) 0)
    by (unfold viewOffsets; destruct sizes; done).
  rewrite Hoff in *.
  rewrite (length_flat_map_const _ _ (Z.to_nat elementSize)).
  - assert (Hl : Z.of_nat (length (rowMajor sizes (effectiveStrides sizes strides) 0))
                 = prodZ sizes).
    { apply length_rowMajor; [exact Hlen|].
      eapply Forall_impl; [exact Hpos|]. intros s Hs. cbn beta in Hs. lia. }
    rewrite Nat2Z.inj_mul, Hl, Z2Nat.id by lia. done.
  - intros e He. rewrite Forall_forall in Hview.
    apply list_elem_of_In, Hview in He. apply length_elementBytes; lia.
Qed.

(** X2. The payload of a view with positive sizes whose elements lie in
    the buffer has exactly the product of the sizes times the element size
    bytes, on the fast path and on the general path alike; without
    dimensions it is empty. *)
Theorem payload_length
    (cfg : Build) (fuel : nat) (sizes strides : list Z) (source : IOBuf)
    (dtype : ThriftTensorDataType) (elementSize : Z)
    (endianness : ThriftTensorEndianness) (sharing : SharingMode) :
  servableView sizes strides source elementSize ->
  endianness = NATIVE \/ endianness = gMachineEndianness cfg ->
  (odometerSteps sizes <= fuel)%nat ->
  exists out rest,
    serialize cfg fuel sizes strides source dtype elementSize endianness sharing
      = Done (out, rest) /\
    Z.of_nat (length (payload out))
    = match sizes with
      | [] => 0
      | _ :: _ => prodZ sizes * elementSize
      end.
Proof.
  intros V Hend Hfuel.
  pose proof V as (Hch & Hlen & Hsl & Hpos & Hlong & Hes & Hprod & Hview).
  destruct (serialize_view cfg fuel sizes strides source dtype elementSize
              endianness sharing) as (d & rest & Hser & Hbytes); auto.
  eexists _, rest. split; [exact Hser|].
  unfold payload. cbn [data]. rewrite Hbytes.
  destruct sizes as [|s sizes]; [reflexivity|].
  apply length_logicalBytes; [done| |exact Hpos|exact Hes|exact Hview].
  destruct Hsl as [-> | Hsl]; [apply length_rowMajorStrides|].
  destruct strides; [discriminate|exact Hsl].
Qed.

Lemma payload_length_witness :
  exists out rest,
    serialize debugBuild 14 [2; 3] [1; 2] (bufferOf abcdef) 4 1 NATIVE SHARE_NONE
      = Done (out, rest) /\
    Z.of_nat (length (payload out)) = prodZ [2; 3] * 1.
Proof.
  apply (payload_length debugBuild 14 [2; 3] [1; 2] (bufferOf abcdef) 4 1
           NATIVE SHARE_NONE).
  - concrete_view.
  - left. reflexivity.
  - vm_compute. lia.
Defined.

(** ** serialize followed by deserializeTH *)

(** Read row-major at offset zero, a buffer that holds exactly the elements
    of a shape is its own logical content. *)
Lemma logicalBytes_whole sizes (bs : list byte) elementSize :
  sizes <> [] -> Forall (fun s => 0 < s) sizes -> 0 <= elementSize ->
  Z.of_nat (length bs) = prodZ sizes * elementSize ->
  logicalBytes sizes [] bs elementSize = bs.
Proof.
  intros Hne Hpos Hes Hlen. unfold logicalBytes, viewOffsets.
  destruct sizes as [|s sizes]; [done|]. cbn [effectiveStrides].
  rewrite rowMajor_consecutive by (auto using rowMajorLike_implicit).
  pose proof (prodZ_pos _ Hpos) as HP.
  rewrite <- (Z2Nat.id (prodZ (s :: sizes))) by lia.
  rewrite consecutive_elementBytes by lia.
  rewrite Z2Nat.id by lia. simpl drop. apply take_ge. lia.
Qed.

(** X9. Round trip.  A view written by [serialize] and read back by
    [deserializeTH] for the same data type is a tensor with the sizes of
    the view, storage offset zero and null strides, whose elements, read
    row-major from its storage, are the logical elements of the view,
    whatever the strides of the view and whatever the two sharing modes. *)
Theorem serialize_deserializeTH_round_trip
    (cfg : Build) (fuel : nat) (shape strides : list Z) (source : IOBuf)
    (dtype : ThriftTensorDataType) (elementSize : Z)
    (order : ThriftTensorEndianness) (sharing sharing' : SharingMode) :
  servableView shape strides source elementSize ->
  order = NATIVE \/ order = gMachineEndianness cfg ->
  (odometerSteps shape <= fuel)%nat ->
  exists out rest t',
    serialize cfg fuel shape strides source dtype elementSize order sharing
    = Done (out, rest) /\
    deserializeTH dtype out sharing' = Done t' /\
    th_sizes t' = shape /\
    th_storageOffset t' = 0 /\
    th_strides t' = None /\
    logicalBytes (th_sizes t') [] (chain_bytes (th_storage t')) elementSize
    = logicalBytes shape strides (data_bytes source) elementSize.
Proof.
  intros V Hord Hfuel.
  pose proof V as (Hch & Hlen & Hsl & Hpos & Hlong & Hes & Hprod & Hview).
  destruct (serialize_view cfg fuel shape strides source dtype elementSize
              order sharing) as (d & rest & Hser & Hbytes); auto.
  eexists _, rest, _. split; [exact Hser|].
  unfold deserializeTH, deserialize, CHECK. cbn [dataType sizes data].
  rewrite Z.eqb_refl. split; [reflexivity|].
  cbn [th_sizes th_storageOffset th_strides th_storage].
  split; [reflexivity|]. split; [reflexivity|]. split; [reflexivity|].
  rewrite Hbytes.
  destruct shape as [|s ss]; [reflexivity|].
  apply logicalBytes_whole; [done|exact Hpos|lia|].
  apply length_logicalBytes; [done| |exact Hpos|exact Hes|exact Hview].
  destruct Hsl as [-> | Hsl]; [apply length_rowMajorStrides|].
  destruct strides; [discriminate|exact Hsl].
Qed.

(** The transposed view of "abcdef" comes back as the row-major tensor
    "acebdf". *)
Lemma serialize_deserializeTH_round_trip_witness :
  exists out rest t',
    serialize debugBuild 14 [2; 3] [1; 2] (bufferOf abcdef) 4 1 NATIVE SHARE_NONE
    = Done (out, rest) /\
    deserializeTH 4 out SHARE_ALL = Done t' /\
    th_sizes t' = [2; 3] /\
    th_storageOffset t' = 0 /\
    th_strides t' = None /\
    logicalBytes (th_sizes t') [] (chain_bytes (th_storage t')) 1
    = logicalBytes [2; 3] [1; 2] (data_bytes (bufferOf abcdef)) 1.
Proof.
  apply (serialize_deserializeTH_round_trip debugBuild 14 [2; 3] [1; 2]
           (bufferOf abcdef) 4 1 NATIVE SHARE_NONE SHARE_ALL).
  - concrete_view.
  - left. reflexivity.
  - vm_compute. lia.
Defined.

(** ** Strides of dimensions of size one *)

Lemma rowMajor_sameButUnit sizes : forall strides1 strides2 base,
  sameButUnit sizes strides1 strides2 ->
  rowMajor sizes strides1 base = rowMajor sizes strides2 base.
Proof.
  induction sizes as [|s sizes IH]; intros [|t1 strides1] [|t2 strides2] base H;
    try done.
  destruct H as [Ht H]. simpl rowMajor. destruct Ht as [-> | ->].
  - rewrite seqZ_cons, seqZ_nil by lia. cbn [flat_map].
    rewrite !app_nil_r, !Z.mul_0_l. apply IH, H.
  - apply flat_map_ext_in. intros i _. apply IH, H.
Qed.

Lemma sameButUnit_length sizes : forall strides1 strides2,
  sameButUnit sizes strides1 strides2 ->
  length strides1 = length sizes /\ length strides2 = length sizes.
Proof.
  induction sizes as [|s sizes IH]; intros [|t1 strides1] [|t2 strides2] H;
    try done.
  destruct H as [_ H]. apply IH in H as [H1 H2]. simpl. lia.
Qed.

(** X10. The stride of a dimension of size one has no part in the payload:
    two views of the same buffer whose strides differ only in such
    dimensions are both served and give the same payload, although the
    contiguity scan compares these strides too and may send one view to the
    fast path and the other through the traversal. *)
Theorem unit_dimension_stride_irrelevant
    (cfg : Build) (fuel : nat) (sizes strides1 strides2 : list Z)
    (source : IOBuf) (dtype : ThriftTensorDataType) (elementSize : Z)
    (order : ThriftTensorEndianness) (sharing : SharingMode) :
  servableView sizes strides1 source elementSize ->
  sizes <> [] ->
  sameButUnit sizes strides1 strides2 ->
  Forall (fun t => - 2 ^ 63 <= t < 2 ^ 63) strides2 ->
  order = NATIVE \/ order = gMachineEndianness cfg ->
  (odometerSteps sizes <= fuel)%nat ->
  exists out1 rest1 out2 rest2,
    serialize cfg fuel sizes strides1 source dtype elementSize order sharing
      = Done (out1, rest1) /\
    serialize cfg fuel sizes strides2 source dtype elementSize order sharing
      = Done (out2, rest2) /\
    payload out1 = payload out2.
Proof.
  intros (Hch & Hlen & Hsl & Hpos & Hlong & Hes & Hprod & Hview) Hne Hsame
         Hlong2 Hord Hfuel.
  destruct (sameButUnit_length _ _ _ Hsame) as [Hl1 Hl2].
  assert (Hoff : viewOffsets sizes strides1 = viewOffsets sizes strides2).
  { unfold viewOffsets, effectiveStrides.
    destruct sizes as [|s sizes]; [done|].
    destruct strides1, strides2; try discriminate.
    apply rowMajor_sameButUnit, Hsame. }
  destruct (serialize_view cfg fuel sizes strides1 source dtype elementSize
              order sharing) as (d1 & rest1 & Hser1 & Hb1); auto.
  destruct (serialize_view cfg fuel sizes strides2 source dtype elementSize
              order sharing) as (d2 & rest2 & Hser2 & Hb2); auto.
  { unfold viewInBuffer in *. rewrite <- Hoff. exact Hview. }
  eexists _, rest1, _, rest2. split; [exact Hser1|]. split; [exact Hser2|].
  unfold payload. cbn [data]. rewrite Hb1, Hb2. unfold logicalBytes.
  now rewrite Hoff.
Qed.

Lemma unit_dimension_stride_irrelevant_witness :
  exists out1 rest1 out2 rest2,
    serialize debugBuild 40 [2; 1; 3] [3; 3; 1] (bufferOf abcdef) 4 1 NATIVE
              SHARE_NONE = Done (out1, rest1) /\
    serialize debugBuild 40 [2; 1; 3] [3; 7; 1] (bufferOf abcdef) 4 1 NATIVE
              SHARE_NONE = Done (out2, rest2) /\
    payload out1 = payload out2.
Proof.
  apply (unit_dimension_stride_irrelevant debugBuild 40 [2; 1; 3] [3; 3; 1]
           [3; 7; 1] (bufferOf abcdef) 4 1 NATIVE SHARE_NONE).
  - concrete_view.
  - discriminate.
  - simpl. repeat split; auto.
  - repeat constructor; vm_compute; congruence.
  - left. reflexivity.
  - vm_compute. lia.
Defined.

(** ** What is left of the assertions in a release build *)

Lemma bind_not_Fatal {A B : Type} (m : outcome A) (k : A -> outcome B) :
  m <> Fatal -> (forall a, m = Done a -> k a <> Fatal) -> (m ≫= k) <> Fatal.
Proof. destruct m; simpl; auto; congruence. Qed.

Lemma at_index_not_Fatal {A : Type} (l : list A) i : at_index l i <> Fatal.
Proof. unfold at_index. repeat case_match; discriminate. Qed.

Lemma trimStart_not_Fatal n b : trimStart n b <> Fatal.
Proof. unfold trimStart. case_match; discriminate. Qed.

Lemma trimEnd_not_Fatal n b : trimEnd n b <> Fatal.
Proof. unfold trimEnd. case_match; discriminate. Qed.

Lemma queue_move_cloneInto_not_Fatal q : queue_move_cloneInto q <> Fatal.
Proof. unfold queue_move_cloneInto. case_match; discriminate. Qed.

Section ReleaseBuild.

Variable cfg : Build.
Hypothesis release : dchecks cfg = false.

Lemma DCHECK_release c : DCHECK cfg c = Done tt.
Proof. unfold DCHECK. now rewrite release. Qed.

Lemma partialCloneOne_not_Fatal buf offset n :
  partialCloneOne cfg buf offset n <> Fatal.
Proof.
  unfold partialCloneOne. rewrite DCHECK_release, bind_Done.
  apply bind_not_Fatal; [apply trimStart_not_Fatal|intros ? _].
  apply trimEnd_not_Fatal.
Qed.

Lemma emitRun_not_Fatal data cs mayShare s :
  emitRun cfg data cs mayShare s <> Fatal.
Proof.
  unfold emitRun. case_match.
  - apply bind_not_Fatal; [apply partialCloneOne_not_Fatal|discriminate].
  - apply bind_not_Fatal; [|discriminate]. unfold read_bytes.
    case_match; discriminate.
Qed.

Lemma step_not_Fatal sizes strides data elementSize fcd cs mayShare o :
  step cfg sizes strides data elementSize fcd cs mayShare o <> Fatal.
Proof.
  unfold step. case_match.
  - apply bind_not_Fatal; [apply emitRun_not_Fatal|discriminate].
  - apply bind_not_Fatal; [apply at_index_not_Fatal|intros ? _].
    apply bind_not_Fatal; [apply at_index_not_Fatal|intros ? _].
    apply bind_not_Fatal; [apply at_index_not_Fatal|intros ? _].
    case_match; discriminate.
Qed.

Lemma loop_not_Fatal sizes strides data elementSize fcd cs mayShare fuel :
  forall o,
  loop cfg sizes strides data elementSize fcd cs mayShare fuel o <> Fatal.
Proof.
  induction fuel as [|fuel IH]; intros o; simpl; case_match; try discriminate.
  apply bind_not_Fatal; [apply step_not_Fatal|intros o' _; apply IH].
Qed.

Lemma scanContiguous_not_Fatal sizes strides (k : nat) : forall cs,
  scanContiguous k sizes strides cs <> Fatal.
Proof.
  induction k as [|k IH]; intros cs; simpl; [discriminate|].
  apply bind_not_Fatal; [apply at_index_not_Fatal|intros stride _].
  case_match; [discriminate|].
  apply bind_not_Fatal; [apply at_index_not_Fatal|intros size _]. apply IH.
Qed.

Lemma analyze_not_Fatal sizes strides : analyze cfg sizes strides <> Fatal.
Proof.
  unfold analyze. destruct strides as [|t strides]; [discriminate|].
  rewrite DCHECK_release, bind_Done.
  apply bind_not_Fatal; [apply scanContiguous_not_Fatal|intros [? ?] _].
  discriminate.
Qed.

Lemma serialize_release_Fatal fuel sizes strides data dtype elementSize order
    sharing :
  serialize cfg fuel sizes strides data dtype elementSize order sharing = Fatal
  <-> order <> NATIVE /\ order <> gMachineEndianness cfg.
Proof.
  unfold serialize. rewrite DCHECK_release, bind_Done.
  destruct (resolveEndianness cfg order) as [e| | |] eqn:He.
  - rewrite bind_Done. split.
    + intros H. exfalso. revert H.
      apply bind_not_Fatal; [apply analyze_not_Fatal|intros c _].
      cbv zeta. rewrite !DCHECK_release, !bind_Done.
      case_match; [discriminate|]. case_match.
      * apply bind_not_Fatal; [apply trimEnd_not_Fatal|discriminate].
      * apply bind_not_Fatal.
        { unfold traverse. apply bind_not_Fatal; [apply loop_not_Fatal|discriminate]. }
        intros q _.
        apply bind_not_Fatal; [apply queue_move_cloneInto_not_Fatal|discriminate].
    + intros [Hn Hm]. exfalso.
      unfold resolveEndianness, CHECK, gMachineEndianness in *.
      destruct order, (littleEndianHost cfg); simpl in He; congruence.
  - split; [intros _|done].
    unfold resolveEndianness, CHECK, gMachineEndianness in *.
    destruct order, (littleEndianHost cfg); simpl in He; split; congruence.
  - exfalso. unfold resolveEndianness, CHECK in He.
    destruct order, (gMachineEndianness cfg); simpl in He; discriminate.
  - exfalso. unfold resolveEndianness, CHECK in He.
    destruct order, (gMachineEndianness cfg); simpl in He; discriminate.
Qed.

End ReleaseBuild.

(** X11. In a build without [DCHECK] the byte order is the only contract
    that is still enforced: a call stops at an assertion exactly when it is
    given an explicit byte order that is not the one of the machine,
    whatever the shape, the strides and the buffer. *)
Theorem release_build_asserts_byte_order_only
    (cfg : Build) (fuel : nat) (sizes strides : list Z) (source : IOBuf)
    (dtype : ThriftTensorDataType) (elementSize : Z)
    (order : ThriftTensorEndianness) (sharing : SharingMode) :
  dchecks cfg = false ->
  (serialize cfg fuel sizes strides source dtype elementSize order sharing = Fatal
   <-> order <> NATIVE /\ order <> gMachineEndianness cfg).
Proof. intros Hrel. now apply serialize_release_Fatal. Qed.

Lemma release_build_asserts_byte_order_only_witness :
  serialize releaseBuild 0 [2] [3] (chainOf abcdef abcdef) 4 1 BIG SHARE_NONE
  = Fatal
  <-> BIG <> NATIVE /\ BIG <> gMachineEndianness releaseBuild.
Proof.
  apply (release_build_asserts_byte_order_only releaseBuild 0 [2] [3]
           (chainOf abcdef abcdef) 4 1 BIG SHARE_NONE).
  reflexivity.
Defined.

(** ** TensorBase::mode *)

(** X12. The two flags of [mode] are independent bits: each of the two
    answers is read back from the result with its own mask, no other bit is
    ever set, and two results are equal only for the same answers. *)
Theorem mode_flags (isUnique isContiguous : bool) :
  (Z.land (mode isUnique isContiguous) UNIQUE =? 0) = negb isUnique /\
  (Z.land (mode isUnique isContiguous) CONTIGUOUS =? 0) = negb isContiguous /\
  Z.land (mode isUnique isContiguous) (Z.lnot (Z.lor UNIQUE CONTIGUOUS)) = 0 /\
  (forall u c, mode u c = mode isUnique isContiguous ->
     u = isUnique /\ c = isContiguous).
Proof.
  destruct isUnique, isContiguous; repeat split;
    try reflexivity; destruct u, c; vm_compute in H; congruence.
Qed.

(** ** The memory behind the payload of the general path *)

Lemma queue_segments_Forall (P : Segment -> Prop) q :
  Forall (fun c => Forall P (chunk_segments c)) q -> Forall P (queue_segments q).
Proof.
  induction 1 as [|c q Hc _ IH]; simpl; [constructor|].
  destruct c as [[|b bs]|b]; auto; apply Forall_app; auto.
Qed.

Lemma traverse_kind cfg fuel sizes strides data elementSize sharing fcd cs q :
  traverse cfg fuel sizes strides data elementSize sharing fcd cs = Done q ->
  Forall (fun c => isInserted c
                   = mayShareOf sharing data && (kMinCloneSize <=? cs)) q.
Proof.
  intros H. unfold traverse in H. done_inv H. injection H as <-.
  eapply loop_queue; [|eassumption|constructor].
  intros src c Hc. now apply emitRun_kind in Hc.
Qed.

(** X13. The memory behind a payload built by the traversal is all of one
    kind.  When the mode permits sharing and a run has at least
    [kMinCloneSize] bytes, every buffer of the payload chain lies in the
    allocation of the source buffer, which the payload so keeps alive;
    otherwise no buffer of the chain does: the payload is private to the
    record. *)
Theorem general_path_payload_memory
    (cfg : Build) (fuel : nat) (shape strides : list Z) (source : IOBuf)
    (dtype : ThriftTensorDataType) (elementSize : Z)
    (order : ThriftTensorEndianness) (sharing : SharingMode)
    (c : Contiguity) (out : ThriftTensor) (rest : IOBuf) :
  io_length source < 2 ^ 64 ->
  shape <> [] ->
  analyze cfg shape strides = Done c ->
  firstContiguousDim c <> 0 ->
  serialize cfg fuel shape strides source dtype elementSize order sharing
    = Done (out, rest) ->
  Forall (fun s =>
            seg_buffer s
            = if mayShareOf sharing source
                 && (kMinCloneSize <=? mul64 (contiguousSize c) elementSize)
              then seg_buffer (io_head source)
              else None)
         (io_head (data out) :: io_rest (data out)).
Proof.
  intros Hlen Hne Hc Hfcd H. unfold serialize in H.
  do 4 done_inv H. rewrite Hc in Ha1. injection Ha1 as <-.
  destruct (Z.eqb_spec (Z.of_nat (length shape)) 0) as [E|_];
    [destruct shape; [done|discriminate]|].
  destruct (Z.eqb_spec (firstContiguousDim c) 0) as [E|_]; [done|].
  do 2 done_inv H. injection H as <- <-. cbn [data].
  pose proof (traverse_kind _ _ _ _ _ _ _ _ _ _ Ha1) as Hkind.
  destruct (traverse_runOfSource cfg fuel shape strides source elementSize sharing
              (firstContiguousDim c) (mul64 (contiguousSize c) elementSize) a1
              (u64_range _) Hlen Ha1) as [Hruns _].
  unfold queue_move_cloneInto in Ha3.
  destruct (queue_segments a1) as [|s segs] eqn:Eq; [discriminate|].
  injection Ha3 as <-. cbn [io_head io_rest]. rewrite <- Eq.
  apply queue_segments_Forall.
  rewrite Forall_forall in Hkind, Hruns. apply Forall_forall. intros ch Hch.
  specialize (Hkind ch Hch). specialize (Hruns ch Hch). cbv beta in Hkind.
  destruct Hruns as [_ Hal]. rewrite <- Hkind.
  destruct ch as [bs|b]; simpl.
  - repeat constructor.
  - destruct Hal as [Hch1 Hbuf]. unfold isChained in Hch1.
    destruct (io_rest b); [|discriminate]. repeat constructor. exact Hbuf.
Qed.

Lemma general_path_payload_memory_witness :
  exists out,
    serialize debugBuild 4 [2; 4096] [0; 1] (bufferOf (replicate 4096 x00))
              0 1 NATIVE SHARE_ALL
      = Done (out, bufferOf (replicate 4096 x00)) /\
    Forall (fun s => seg_buffer s = Some 0%nat)
           (io_head (data out) :: io_rest (data out)).
Proof.
  destruct (serialize debugBuild 4 [2; 4096] [0; 1]
              (bufferOf (replicate 4096 x00)) 0 1 NATIVE SHARE_ALL)
    as [[out rest]| | |] eqn:E; try (vm_compute in E; discriminate).
  assert (Hrest : rest = bufferOf (replicate 4096 x00)).
  { vm_compute in E. injection E as _ <-. reflexivity. }
  exists out. split; [now rewrite Hrest|].
  apply (general_path_payload_memory debugBuild 4 [2; 4096] [0; 1]
           (bufferOf (replicate 4096 x00)) 0 1 NATIVE SHARE_ALL
           {| firstContiguousDim := 1; contiguousSize := 4096; dataSize := 8192 |}
           out rest).
  - vm_compute. reflexivity.
  - discriminate.
  - vm_compute. reflexivity.
  - simpl. lia.
  - exact E.
Defined.
